(** * yt_downloader: a shallow embedding of [src/yt_downloader.py]

    The module downloads media through the external [yt_dlp] provider and
    runs batches of downloads on a thread pool.  Every Python function of
    the module is embedded below under its own name, and so is the [main]
    of [src/source.py], which runs the batch of [configuration.json].  Functions that perform
    I/O are embedded as finite interaction programs ([Prog]): a tree whose
    nodes are the calls the function makes into its environment (the file
    system, the provider, the progress log [downloads.txt]) and whose
    branches are the environment's answers.  Exceptions are explicit
    ([Raise] / [try_except]).  The thread pool of [run_download_tasks] is a
    step relation that interleaves the workers' programs one call at a
    time. *)

From Stdlib Require Import Ascii String.
From stdpp Require Import gmap strings list fin_maps relations sorting pretty.

Set Default Proof Using "Type".
Local Open Scope Z_scope.

(** ** Python values *)

(** A Python [str] is a sequence of Unicode code points. *)
Definition pystr := list N.

(** [lit s] is the [str] literal written [s] in the source (the characters
    of the literals used by the module are all ASCII). *)
Definition lit (s : string) : pystr :=
  N_of_ascii <$> String.list_ascii_of_string s.

(** The scalar values a task dictionary carries (what [json.load] and
    [yaml.safe_load] produce for the leaves of a document). *)
Inductive pyval : Type :=
| VNone
| VBool (b : bool)
| VInt (z : Z)
| VStr (s : pystr).

#[global] Instance pyval_eq_dec : EqDecision pyval.
Proof. solve_decision. Defined.

(** Truth value of an object, as taken by [if x] and [not x]. *)
Definition truthy (v : pyval) : bool :=
  match v with
  | VNone => false
  | VBool b => b
  | VInt z => negb (z =? 0)
  | VStr s => match s with [] => false | _ => true end
  end.

(** [str(v)], as taken by an f-string field [{v}]. *)
Definition py_str (v : pyval) : pystr :=
  match v with
  | VNone => lit "None"
  | VBool true => lit "True"
  | VBool false => lit "False"
  | VInt z => lit (pretty z)
  | VStr s => s
  end.

(** [type(v).__name__], used by the interpreter's error messages. *)
Definition type_name (v : pyval) : pystr :=
  match v with
  | VNone => lit "NoneType"
  | VBool _ => lit "bool"
  | VInt _ => lit "int"
  | VStr _ => lit "str"
  end.

(** *** [str.strip] *)

(** [str.isspace] on one code point: CPython's [_Py_ascii_whitespace] table
    below 128 and [_PyUnicode_IsWhitespace] above. *)
Definition py_isspace (c : N) : bool :=
  ((9 <=? c) && (c <=? 13) || (28 <=? c) && (c <=? 32)
   || (c =? 133) || (c =? 160) || (c =? 5760)
   || (8192 <=? c) && (c <=? 8202)
   || (c =? 8232) || (c =? 8233) || (c =? 8239) || (c =? 8287)
   || (c =? 12288))%N.

Fixpoint lstrip (s : pystr) : pystr :=
  match s with
  | [] => []
  | c :: s' => if py_isspace c then lstrip s' else s
  end.

Definition rstrip (s : pystr) : pystr := reverse (lstrip (reverse s)).

(** [s.strip()]: leading and trailing whitespace removed. *)
Definition strip (s : pystr) : pystr := rstrip (lstrip s).

(** A url is whitespace-only when every character of it is whitespace (the
    empty url included). *)
Definition whitespace_only (s : pystr) : Prop := Forall (λ c, py_isspace c = true) s.

(** ** Exceptions *)

Inductive exn_class : Type :=
| ValueError | KeyError | AttributeError | TypeError | IndexError | OSError
| ProviderError      (* any exception class of the [yt_dlp] package *)
| PlainException.    (* [Exception] itself *)

(** An exception instance: its class and [str(e)]. All classes above derive
    from [Exception], so [except Exception] catches every [exn]. *)
Record exn : Type := Exn { exn_cls : exn_class; exn_str : pystr }.

#[global] Instance exn_class_eq_dec : EqDecision exn_class.
Proof. solve_decision. Defined.
#[global] Instance exn_eq_dec : EqDecision exn.
Proof. solve_decision. Defined.

(** ** Paths, provider options and provider answers *)

(** A [pathlib.Path] (of a POSIX system), given by the string it was built
    from. Python takes two strings with the same root and the same
    components for the same path; here they are kept apart, and [path_str]
    is the text both are written as. *)
Record Path : Type := MkPath { path_arg : pystr }.

#[global] Instance Path_eq_dec : EqDecision Path.
Proof. solve_decision. Defined.

(** The pieces of a string between its slashes. *)
Fixpoint split_slash (s : pystr) : list pystr :=
  match s with
  | [] => [[]]
  | c :: s' =>
      if (c =? 47)%N then [] :: split_slash s'
      else match split_slash s' with
           | x :: xs => (c :: x) :: xs
           | [] => [[c]]
           end
  end.

(** The root of a path string: ["/"] for a leading slash, ["//"] for
    exactly two. *)
Definition path_root (s : pystr) : pystr :=
  match s with
  | 47%N :: 47%N :: 47%N :: _ => lit "/"
  | 47%N :: 47%N :: _ => lit "//"
  | 47%N :: _ => lit "/"
  | _ => []
  end.

(** The components of a path string: the pieces that are neither empty
    nor ["."]. *)
Definition path_parts (s : pystr) : list pystr :=
  filter (λ x, x ≠ [] ∧ x ≠ lit ".") (split_slash s).

Fixpoint join_slash (parts : list pystr) : pystr :=
  match parts with
  | [] => []
  | x :: parts' =>
      match parts' with
      | [] => x
      | _ :: _ => x ++ lit "/" ++ join_slash parts'
      end
  end.

(** [str(p)]: the root and the components, joined by slashes; ["."] for
    the path without either. *)
Definition path_str (p : Path) : pystr :=
  match path_root (path_arg p), path_parts (path_arg p) with
  | [], [] => lit "."
  | root, parts => root ++ join_slash parts
  end.

(** [d / name]: an absolute [name] replaces [d]; otherwise the components
    of [name] follow those of [d]. *)
Definition path_join (d : Path) (name : pystr) : Path :=
  match name with
  | 47%N :: _ => MkPath name
  | _ =>
      match path_parts (path_arg d) with
      | [] => MkPath (path_root (path_arg d) ++ name)
      | _ :: _ => MkPath (path_arg d ++ lit "/" ++ name)
      end
  end.

(** [st_mtime]: only the order of two time stamps is used by the module. *)
Abbreviation mtime := Z.

(** One [postprocessors] entry: a small dict of strings. *)
Definition postprocessor := list (string * pystr).

(** The options dictionary built by [_prepare_download_options]. The keys
    [extract_audio] and [keepvideo] are present in audio mode only. *)
Record ydl_opts : Type := MkOpts {
  retries : Z;
  fragment_retries : Z;
  socket_timeout : Z;
  ignoreerrors : bool;
  continuedl : bool;
  format : pystr;
  outtmpl : pystr;
  postprocessors : list postprocessor;
  extract_audio : option bool;
  keepvideo : option bool;
  writesubtitles : bool;
  writeautomaticsub : bool;
}.

(** One entry of [info_dict["requested_downloads"]]; [filepath] is [None]
    when the entry has no such key. *)
Record requested_download : Type := MkDownload { filepath : option pystr }.

(** The part of the provider's [info_dict] that the module reads; a field
    is [None] when the key is absent. *)
Record info_dict : Type := MkInfo {
  requested_downloads : option (list requested_download);
  filename : option pystr;
}.

(** ** Interaction programs *)

(** Identity of a [YoutubeDL] object and of an open file object. *)
Definition ydl := N.
Definition fileobj := N.

(** A value found under a key of the configuration: a mapping (its items
    in insertion order, with distinct keys), a sequence, or a scalar. The
    members of a mapping or a sequence are taken to be scalars; keys are
    strings. *)
Inductive node : Type :=
| NMap (items : list (string * pyval))
| NSeq (l : list pyval)
| NLeaf (v : pyval).

(** A configuration document that is a mapping, as far as
    [_unified_download_tasks] looks at it: what it has under ["defaults"]
    and under ["urls"], [None] when the key is absent. *)
Record config : Type := MkConfig {
  cfg_defaults : option node;
  cfg_urls : option node;
}.

(** What [json.load] / [yaml.safe_load] return: a mapping, or some other
    value (a list, a scalar, [None] for an empty YAML file). *)
Inductive document : Type :=
| DocDict (c : config)
| DocList (l : list pyval)
| DocScalar (v : pyval).

(** The calls the module makes into its environment, indexed by the type of
    the answer. An answer [inl e] means the call raised [e]. *)
Inductive op : Type → Type :=
| Mkdir (d : Path) : op (exn + unit)
    (* d.mkdir(parents=True, exist_ok=True) *)
| YdlOpen (opts : ydl_opts) : op (exn + ydl)
    (* yt_dlp.YoutubeDL(opts).__enter__() *)
| ExtractInfo (y : ydl) (url : pyval) : op (exn + option info_dict)
    (* y.extract_info(url, download=True) *)
| YdlExit (y : ydl) : op (exn + unit)
    (* y.__exit__(...) *)
| Glob (d : Path) : op (exn + list Path)
    (* list(d.glob("*")) *)
| PathExists (p : Path) : op (exn + bool)
    (* p.exists() *)
| Stat (p : Path) : op (exn + mtime)
    (* p.stat().st_mtime *)
| LogOpen : op (exn + fileobj)
    (* open("downloads.txt", "a", encoding="utf-8") *)
| LogWrite (f : fileobj) (s : pystr) : op (exn + unit)
    (* f.write(s) *)
| LogClose (f : fileobj) : op (exn + unit)
    (* f.__exit__(...), which closes f *)
| LoadJson (file : pystr) : op (exn + document)
    (* with open(file, "r") as f: json.load(f) *)
| LoadYaml (file : pystr) : op (exn + document)
    (* with open(file, "r") as f: yaml.safe_load(f) *)
| Print (s : pystr) : op unit.
    (* print(s) *)

(** A program: returns, raises, or makes a call and continues with the
    answer. *)
Inductive Prog (R : Type) : Type :=
| Ret (r : R)
| Raise (e : exn)
| Do {A : Type} (o : op A) (k : A → Prog R).

Arguments Ret {R} r.
Arguments Raise {R} e.
Arguments Do {R A} o k.

Fixpoint bind {A B : Type} (p : Prog A) (f : A → Prog B) : Prog B :=
  match p with
  | Ret a => f a
  | Raise e => Raise e
  | Do o k => Do o (λ r, bind (k r) f)
  end.

(** [try: p  except Exception as e: h e] *)
Fixpoint try_except {A : Type} (p : Prog A) (h : exn → Prog A) : Prog A :=
  match p with
  | Ret a => Ret a
  | Raise e => h e
  | Do o k => Do o (λ r, try_except (k r) h)
  end.

(** A call whose [inl] answer is raised in the caller. *)
Definition call {A : Type} (o : op (exn + A)) : Prog A :=
  Do o (λ r, match r with inl e => Raise e | inr a => Ret a end).

#[global] Instance prog_ret : MRet Prog := λ A a, Ret a.
#[global] Instance prog_bind : MBind Prog := λ A B f p, bind p f.

(** [with cm as x: body]: [fin] (the manager's [__exit__]) runs when the
    body returns and when it raises; the body's exception then propagates,
    unless [fin] raises itself. *)
Fixpoint finally {A : Type} (p : Prog A) (fin : Prog unit) : Prog A :=
  match p with
  | Ret a => fin;; Ret a
  | Raise e => fin;; Raise e
  | Do o k => Do o (λ r, finally (k r) fin)
  end.

(** ** The module's functions *)

(** A task: a Python [dict] with string keys. *)
Abbreviation task := (gmap string pyval).

(** [d[key]] *)
Definition getitem (d : task) (key : string) : Prog pyval :=
  match d !! key with
  | Some v => Ret v
  | None => Raise (Exn KeyError (lit "'" ++ lit key ++ lit "'"))
  end.

(** [d.get(key, dflt)] *)
Definition get (d : task) (key : string) (dflt : pyval) : pyval :=
  default dflt (d !! key).

(** [v.strip()] for an arbitrary object [v]. *)
Definition py_strip (v : pyval) : Prog pyval :=
  match v with
  | VStr s => Ret (VStr (strip s))
  | _ => Raise (Exn AttributeError
           (lit "'" ++ type_name v ++ lit "' object has no attribute 'strip'"))
  end.

(** [Path(v)] for an arbitrary object [v] (the message is CPython 3.11's). *)
Definition make_path (v : pyval) : Prog Path :=
  match v with
  | VStr s => Ret (MkPath s)
  | _ => Raise (Exn TypeError
           (lit "expected str, bytes or os.PathLike object, not " ++ type_name v))
  end.

Definition _prepare_download_options
    (target_dir : Path) (only_audio quality title : pyval) : ydl_opts :=
  let highest := bool_decide (quality = VStr (lit "highest")) in
  if truthy only_audio then
    {| retries := 10; fragment_retries := 10; socket_timeout := 30;
       ignoreerrors := true; continuedl := true;
       format := if highest then lit "bestaudio" else lit "worstaudio";
       outtmpl :=
         if truthy title
         then path_str (path_join target_dir (py_str title ++ lit ".%(ext)s"))
         else path_str (path_join target_dir (lit "%(title)s.%(ext)s"));
       postprocessors :=
         [[("key", lit "FFmpegExtractAudio");
           ("preferredcodec", lit "mp3");
           ("preferredquality", lit "192")]];
       extract_audio := Some true;
       keepvideo := Some false;
       writesubtitles := false; writeautomaticsub := false |}
  else
    {| retries := 10; fragment_retries := 10; socket_timeout := 30;
       ignoreerrors := true; continuedl := true;
       format :=
         if highest
         then lit "bestvideo[ext=mp4]+bestaudio[ext=m4a]/best[ext=mp4]"
         else lit "worstvideo[ext=mp4]+worstaudio[ext=m4a]/worst[ext=mp4]";
       outtmpl :=
         if truthy title
         then path_str (path_join target_dir (py_str title ++ lit ".mp4"))
         else path_str (path_join target_dir (lit "%(title)s.mp4"));
       postprocessors :=
         [[("key", lit "FFmpegVideoConvertor"); ("preferedformat", lit "mp4")]];
       extract_audio := None;
       keepvideo := None;
       writesubtitles := false; writeautomaticsub := false |}.

(** *** Output resolution *)

(** Method 1: the [filepath] of every entry of [requested_downloads] that
    has one; nothing when the key is absent or the list is empty. *)
Definition reported_files (info : info_dict) : list Path :=
  match requested_downloads info with
  | Some ((_ :: _) as downloads) => omap (λ d, MkPath <$> filepath d) downloads
  | _ => []
  end.

(** Stable insertion of a keyed file into a list sorted by decreasing key:
    the new file goes before the files whose key is not greater. *)
Fixpoint insert_desc (x : mtime * Path) (l : list (mtime * Path))
    : list (mtime * Path) :=
  match l with
  | [] => [x]
  | y :: l' => if x.1 <? y.1 then y :: insert_desc x l' else x :: l
  end.

(** [sorted(keyed, reverse=True)] on the keys; Python's sort is stable with
    [reverse=True] too, which determines the result. *)
Definition sort_desc (keyed : list (mtime * Path)) : list (mtime * Path) :=
  foldr insert_desc [] keyed.

(** The head of a list sorted by [sort_desc] carries the largest key. *)
Definition head_is_max (l : list (mtime * Path)) : Prop :=
  match l with
  | [] => True
  | x :: l' => ∀ y, y ∈ l' → y.1 ≤ x.1
  end.

(** The keys [x.stat().st_mtime], computed for every file in list order
    before any element is moved. *)
Fixpoint stat_all (files : list Path) : Prog (list (mtime * Path)) :=
  match files with
  | [] => Ret []
  | f :: files' =>
      m ← call (Stat f); keyed ← stat_all files'; Ret ((m, f) :: keyed)
  end.

(** [files.sort(key=lambda x: x.stat().st_mtime, reverse=True)] *)
Definition sort_by_mtime (files : list Path) : Prog (list Path) :=
  keyed ← stat_all files; Ret (snd <$> sort_desc keyed).

(** The body of the [with yt_dlp.YoutubeDL(ydl_opts) as ydl] block. *)
Definition resolve_output (y : ydl) (url : pyval) (target_dir : Path)
    : Prog Path :=
  info_dict ← call (ExtractInfo y url);
  info ← match info_dict with
         | Some info => Ret info
         | None => Raise (Exn AttributeError
                     (lit "'NoneType' object has no attribute 'get'"))
         end;
  (* Method 1: Check requested_downloads *)
  let downloaded_files := reported_files info in
  (* Method 2: List files in target directory *)
  downloaded_files ← match downloaded_files with
                     | [] => call (Glob target_dir)
                     | _ => Ret downloaded_files
                     end;
  (* Method 3: Use filename from info_dict *)
  downloaded_files ← match downloaded_files, filename info with
                     | [], Some name =>
                         let potential_file := path_join target_dir name in
                         b ← call (PathExists potential_file);
                         Ret (if b : bool then [potential_file] else [])
                     | _, _ => Ret downloaded_files
                     end;
  match downloaded_files with
  | [] => Raise (Exn PlainException (lit "No files were downloaded"))
  | [file] => Ret file
  | _ =>
      (* Find the most recently modified file if multiple exist *)
      sorted ← sort_by_mtime downloaded_files;
      match sorted with
      | file :: _ => Ret file
      | [] => Raise (Exn IndexError (lit "list index out of range"))
      end
  end.

(** [f"Error downloading {url}: {str(e)}"] *)
Definition error_downloading (url : pyval) (e : exn) : pystr :=
  lit "Error downloading " ++ py_str url ++ lit ": " ++ exn_str e.

Definition yt_downloader (url target_dir only_audio quality title : pyval)
    : Prog Path :=
  (* Input validation: if not url or not url.strip() *)
  invalid ← (if truthy url
             then stripped ← py_strip url; Ret (negb (truthy stripped))
             else Ret true);
  if invalid : bool then Raise (Exn ValueError (lit "URL cannot be empty")) else
  (* Create target directories if they don't exist *)
  target_dir ← make_path target_dir;
  call (Mkdir target_dir);;
  (* Prepare yt-dlp options *)
  let ydl_opts := _prepare_download_options target_dir only_audio quality title in
  try_except
    (y ← call (YdlOpen ydl_opts);
     finally (resolve_output y url target_dir) (call (YdlExit y)))
    (λ e, Raise (Exn PlainException (error_downloading url e))).

Definition yt_audio_downloader (url target_dir quality title : pyval)
    : Prog Path :=
  try_except (yt_downloader url target_dir (VBool true) quality title)
    (λ e, Raise (Exn PlainException (error_downloading url e))).

Definition yt_video_downloader (url target_dir quality title : pyval)
    : Prog Path :=
  try_except (yt_downloader url target_dir (VBool false) quality title)
    (λ e, Raise (Exn PlainException (error_downloading url e))).

(** *** Task source *)

(** [type(n).__name__]. *)
Definition node_type (n : node) : pystr :=
  match n with
  | NMap _ => lit "dict"
  | NSeq _ => lit "list"
  | NLeaf v => type_name v
  end.

(** [for x in n]: the members of a list, the keys of a dict, the
    characters of a [str]; anything else is not iterable. *)
Definition py_iter (n : node) : exn + list pyval :=
  match n with
  | NSeq l => inr l
  | NMap items => inr ((λ kv, VStr (lit kv.1)) <$> items)
  | NLeaf (VStr s) => inr ((λ c, VStr [c]) <$> s)
  | NLeaf v =>
      inl (Exn TypeError (lit "'" ++ type_name v ++ lit "' object is not iterable"))
  end.

(** [{**n}]: the items of a mapping put into a new dict one after the
    other; anything else cannot be unpacked. *)
Definition py_unpack (n : node) : exn + task :=
  match n with
  | NMap items => inr (foldl (λ d kv, <[kv.1 := kv.2]> d) ∅ items)
  | _ => inl (Exn TypeError (lit "'" ++ node_type n ++ lit "' object is not a mapping"))
  end.

(** A list comprehension [[f x for x in l]]: the elements are built in
    order and the first exception ends it. *)
Fixpoint comprehension {A B : Type} (f : A → exn + B) (l : list A)
    : exn + list B :=
  match l with
  | [] => inr []
  | x :: l' =>
      match f x with
      | inl e => inl e
      | inr y =>
          match comprehension f l' with
          | inl e => inl e
          | inr ys => inr (y :: ys)
          end
      end
  end.

(** The defaults used when the configuration has no [defaults] key. *)
Definition fallback_defaults : node :=
  NMap [("quality", VStr (lit "lowest"));
        ("only_audio", VBool false);
        ("target_dir", VStr (lit "./downloads"))].

(** [download_config.get("defaults", {...})] and
    [download_config.get("urls", [])] on a mapping. *)
Definition get_defaults (c : config) : node :=
  default fallback_defaults (cfg_defaults c).
Definition get_urls (c : config) : node := default (NSeq []) (cfg_urls c).

(** [download_config.get] on a document that is not a mapping. *)
Definition no_get (type : pystr) : exn :=
  Exn AttributeError (lit "'" ++ type ++ lit "' object has no attribute 'get'").

Definition _unified_download_tasks (download_config : document)
    : Prog (list task) :=
  match download_config with
  | DocDict c =>
      let defaults := get_defaults c in
      let urls := get_urls c in
      (* Process URLs into task dictionaries using defaults *)
      match py_iter urls with
      | inl e => Raise e
      | inr urls =>
          (* [{**defaults, "url": url} for url in urls] *)
          match comprehension
                  (λ url, match py_unpack defaults with
                          | inl e => inl e
                          | inr d => inr (<["url" := url]> d)
                          end) urls with
          | inl e => Raise e
          | inr url_tasks => Ret url_tasks
          end
      end
  | DocList _ => Raise (no_get (lit "list"))
  | DocScalar v => Raise (no_get (type_name v))
  end.

Definition get_download_tasks_from_json (config_file : pystr)
    : Prog (list task) :=
  Do (LoadJson config_file) (λ r,
    match r with
    | inl e =>
        Do (Print (lit "Error loading JSON file: " ++ exn_str e)) (λ _, Ret [])
    | inr config => _unified_download_tasks config
    end).

Definition get_download_tasks_from_yaml (config_file : pystr)
    : Prog (list task) :=
  Do (LoadYaml config_file) (λ r,
    match r with
    | inl e =>
        Do (Print (lit "Error loading YAML file: " ++ exn_str e)) (λ _, Ret [])
    | inr config => _unified_download_tasks config
    end).

(** *** Orchestrator *)

(** The dictionaries returned by [download_task]:
    [{"url": u, "path": p}] and [{"url": u, "error": msg}]. *)
Inductive Result : Type :=
| Success (url : pyval) (path : Path)
| Failure (url : pyval) (error : pystr).

Definition result_url (r : Result) : pyval :=
  match r with Success u _ | Failure u _ => u end.

(** The line terminator written after each url. *)
Definition newline : pystr := [10%N].

(** [with open("downloads.txt", "a", encoding="utf-8") as f: f.write(line)] *)
Definition append_progress (line : pystr) : Prog unit :=
  f ← call LogOpen;
  finally (call (LogWrite f line)) (call (LogClose f)).

(** The worker function nested in [run_download_tasks]. The line to
    append is computed here before the file is opened, the source computes
    it inside the [with] block: [task['url']] succeeded before and has no
    effect, so the order cannot be observed. *)
Definition download_task (t : task) : Prog Result :=
  try_except
    (url ← getitem t "url";
     path ← (url ← getitem t "url";
             yt_downloader url
               (get t "target_dir" (VStr (lit "./downloads")))
               (get t "only_audio" (VBool true))
               (get t "quality" (VStr (lit "highest")))
               (get t "title" VNone));
     (* Append successful download URL to 'downloads.txt' *)
     (url ← getitem t "url"; append_progress (py_str url ++ newline));;
     Ret (Success url path))
    (λ e, url ← getitem t "url"; Ret (Failure url (exn_str e))).

(** ** The environment *)

(** The state of the progress log: the content of [downloads.txt] and, for
    every file object currently open on it, the text written to the object
    and not yet passed on to the file (Python's text files are buffered; a
    file opened in append mode puts the text it passes on at the end of the
    file). *)
Record world : Type := MkWorld {
  log_content : pystr;
  open_files : gmap fileobj pystr;
}.

(** [env_step w o r w']: in state [w] the environment may answer call [o]
    with [r], leaving state [w']. Calls to the file system and to the
    provider may be answered in any way and leave the progress log alone.
    On the log, [open] gives a file object that is not in use. A [write]
    either extends the buffer of the object, or passes the buffer and the
    text on to the file at once: which of the two happens depends on the
    length of the text and on the buffer size of the platform (a text
    that does not fit the buffer is written through), and is left open
    here. [close] passes what is left in the buffer on to the file. Text
    that is passed on goes to the end of the file in one piece. Each of
    the three calls may fail instead. A failure of [write] or [close] is
    a failure to pass text on: the failed call adds nothing to the file,
    and [close] does not fail on a file object whose buffer is empty (it
    does on an object that is not open). A file object is gone after
    [close] whether it failed or not. *)
Definition env_step {A : Type} (w : world) (o : op A) : A → world → Prop :=
  match o in op A return A → world → Prop with
  | LogOpen => λ r w',
      match r with
      | inl _ => w' = w
      | inr f => open_files w !! f = None ∧
                 w' = MkWorld (log_content w) (<[f := []]> (open_files w))
      end
  | LogWrite f s => λ r w',
      match r with
      | inl _ => w' = w
      | inr _ => ∃ buf, open_files w !! f = Some buf ∧
                 (w' = MkWorld (log_content w) (<[f := buf ++ s]> (open_files w)) ∨
                  w' = MkWorld (log_content w ++ buf ++ s)
                         (<[f := []]> (open_files w)))
      end
  | LogClose f => λ r w',
      match r with
      | inl _ => open_files w !! f ≠ Some [] ∧
                 w' = MkWorld (log_content w) (delete f (open_files w))
      | inr _ => ∃ buf, open_files w !! f = Some buf ∧
                 w' = MkWorld (log_content w ++ buf) (delete f (open_files w))
      end
  | _ => λ _ w', w' = w
  end.

(** One call together with its answer. *)
Inductive event : Type :=
| Ev (A : Type) (o : op A) (r : A).
Arguments Ev {A} o r.

(** [exec p w tr out w']: run alone from state [w], program [p] can make
    the calls [tr] and end with [out] ([inl e]: it raised [e]) in state
    [w']. *)
Fixpoint exec {R : Type} (p : Prog R) (w : world) (tr : list event)
    (out : exn + R) (w' : world) : Prop :=
  match p with
  | Ret r => tr = [] ∧ out = inr r ∧ w' = w
  | Raise e => tr = [] ∧ out = inl e ∧ w' = w
  | Do o k => ∃ r w1 tr1,
      env_step w o r w1 ∧ tr = Ev o r :: tr1 ∧ exec (k r) w1 tr1 out w'
  end.

(** [ends p out]: some branch of [p] finishes with [out]. *)
Inductive ends {R : Type} : Prog R → exn + R → Prop :=
| ends_ret r : ends (Ret r) (inr r)
| ends_raise e : ends (Raise e) (inl e)
| ends_do {A} (o : op A) k a out : ends (k a) out → ends (Do o k) out.

(** ** The thread pool *)

(** The state of one submitted task. *)
Inductive slot : Type :=
| Pending (t : task)               (* queued, not yet picked by a worker *)
| Running (p : Prog Result)        (* a worker is inside download_task *)
| Done (out : exn + Result).       (* the future is resolved *)

Definition is_pending (s : slot) : bool :=
  match s with Pending _ => true | _ => false end.
Definition is_running (s : slot) : bool :=
  match s with Running _ => true | _ => false end.

(** [slots]: one slot per submitted task, in submission order. [raised]:
    the exception the consumer of [executor.map] has met, if any; from then
    on the futures still pending are cancelled. *)
Record pool : Type := MkPool {
  slots : list slot;
  pworld : world;
  raised : option exn;
}.

Definition running_count (l : list slot) : nat :=
  length (filter (λ s, is_running s = true) l).

(** One step of a pool of [workers] threads.
    - [step_start]: a free worker takes the first queued task (the work
      queue is first in, first out) and enters [download_task];
    - [step_call]: a running worker makes its next call and the
      environment answers; between two calls of a worker the others may
      move;
    - [step_return], [step_raise]: the worker function ends and the future
      is resolved with its result, or with its exception;
    - [step_cancel]: the consumer of [executor.map], which reads the
      futures in submission order, meets the first exception; the futures
      not yet started are cancelled and [run_download_tasks] raises once
      the running workers are done. *)
Inductive pool_step (workers : nat) : pool → pool → Prop :=
| step_start st i t :
    raised st = None →
    slots st !! i = Some (Pending t) →
    (∀ j s, (j < i)%nat → slots st !! j = Some s → is_pending s = false) →
    (running_count (slots st) < workers)%nat →
    pool_step workers st
      (MkPool (<[i := Running (download_task t)]> (slots st)) (pworld st) (raised st))
| step_call st i {A} (o : op A) k r w' :
    slots st !! i = Some (Running (Do o k)) →
    env_step (pworld st) o r w' →
    pool_step workers st
      (MkPool (<[i := Running (k r)]> (slots st)) w' (raised st))
| step_return st i r :
    slots st !! i = Some (Running (Ret r)) →
    pool_step workers st
      (MkPool (<[i := Done (inr r)]> (slots st)) (pworld st) (raised st))
| step_raise st i e :
    slots st !! i = Some (Running (Raise e)) →
    pool_step workers st
      (MkPool (<[i := Done (inl e)]> (slots st)) (pworld st) (raised st))
| step_cancel st i e :
    raised st = None →
    (∀ j, (j < i)%nat → ∃ r, slots st !! j = Some (Done (inr r))) →
    slots st !! i = Some (Done (inl e)) →
    pool_step workers st (MkPool (slots st) (pworld st) (Some e)).

(** [ThreadPoolExecutor(max_workers)]: the constructor rejects a pool
    without workers. *)
Definition ThreadPoolExecutor (max_workers : Z) : exn + nat :=
  if max_workers <=? 0
  then inl (Exn ValueError (lit "max_workers must be greater than 0"))
  else inr (Z.to_nat max_workers).

(** The pool just after [executor.map] has submitted every task. *)
Definition submitted (download_tasks : list task) (w : world) : pool :=
  MkPool (Pending <$> download_tasks) w None.

(** [run_download_tasks download_tasks max_workers] started in state [w]
    can end with [out] in state [w']. *)
Inductive run_download_tasks (download_tasks : list task) (max_workers : Z)
    (w : world) : exn + list Result → world → Prop :=
| run_no_pool e :
    ThreadPoolExecutor (Z.min max_workers (Z.of_nat (length download_tasks))) = inl e →
    run_download_tasks download_tasks max_workers w (inl e) w
| run_results workers st results :
    ThreadPoolExecutor (Z.min max_workers (Z.of_nat (length download_tasks))) = inr workers →
    rtc (pool_step workers) (submitted download_tasks w) st →
    raised st = None →
    slots st = (λ r, Done (inr r)) <$> results →
    run_download_tasks download_tasks max_workers w (inr results) (pworld st)
| run_raised workers st e :
    ThreadPoolExecutor (Z.min max_workers (Z.of_nat (length download_tasks))) = inr workers →
    rtc (pool_step workers) (submitted download_tasks w) st →
    raised st = Some e →
    Forall (λ s, is_running s = false) (slots st) →
    run_download_tasks download_tasks max_workers w (inl e) (pworld st).

(** ** Observing a run *)

(** Which call an event is. *)
Inductive call_kind : Type :=
| KMkdir | KYdlOpen | KExtractInfo | KYdlExit | KGlob | KExists | KStat
| KLogOpen | KLogWrite | KLogClose | KLoadJson | KLoadYaml | KPrint.

#[global] Instance call_kind_eq_dec : EqDecision call_kind.
Proof. solve_decision. Defined.

Definition op_kind {A : Type} (o : op A) : call_kind :=
  match o with
  | Mkdir _ => KMkdir | YdlOpen _ => KYdlOpen | ExtractInfo _ _ => KExtractInfo
  | YdlExit _ => KYdlExit | Glob _ => KGlob | PathExists _ => KExists
  | Stat _ => KStat | LogOpen => KLogOpen | LogWrite _ _ => KLogWrite
  | LogClose _ => KLogClose | LoadJson _ => KLoadJson | LoadYaml _ => KLoadYaml
  | Print _ => KPrint
  end.

Definition kind_of (ev : event) : call_kind :=
  match ev with Ev o _ => op_kind o end.

(** The kinds of the calls of a run, in order. *)
Definition calls (tr : list event) : list call_kind := kind_of <$> tr.

Definition is_log_kind (c : call_kind) : bool :=
  match c with KLogOpen | KLogWrite | KLogClose => true | _ => false end.

Definition is_fs_kind (c : call_kind) : bool :=
  match c with KGlob | KExists | KStat => true | _ => false end.

Definition is_log_call (ev : event) : bool := is_log_kind (kind_of ev).

Definition raised_by {A : Type} (r : exn + A) : option exn :=
  match r with inl e => Some e | inr _ => None end.

(** The exception a call into the provider raised, if the event is one. *)
Definition provider_error (ev : event) : option exn :=
  match ev with
  | Ev o r =>
      match o in op A return A → option exn with
      | YdlOpen _ => raised_by
      | ExtractInfo _ _ => raised_by
      | YdlExit _ => raised_by
      | _ => λ _, None
      end r
  end.

(** The exception a call on the progress log raised, if the event is one. *)
Definition log_error (ev : event) : option exn :=
  match ev with
  | Ev o r =>
      match o in op A return A → option exn with
      | LogOpen => raised_by
      | LogWrite _ _ => raised_by
      | LogClose _ => raised_by
      | _ => λ _, None
      end r
  end.

(** The exceptions raised by the provider, resp. by the progress log,
    during a run, in order. *)
Definition provider_errors (tr : list event) : list exn := omap provider_error tr.
Definition log_errors (tr : list event) : list exn := omap log_error tr.

(** The exception raised by the first call of the run, if that call loads a
    configuration file. *)
Definition load_error (tr : list event) : option exn :=
  match tr with
  | Ev o r :: _ =>
      match o in op A return A → option exn with
      | LoadJson _ => raised_by
      | LoadYaml _ => raised_by
      | _ => λ _, None
      end r
  | [] => None
  end.

(** The options the provider was opened with during the run. *)
Definition opened_with (tr : list event) : list ydl_opts :=
  omap (λ ev, match ev with
              | Ev o _ => match o with YdlOpen opts => Some opts | _ => None end
              end) tr.

(** *** A well-behaved environment *)

(** What the provider reports and what the file system holds at the time of
    one fetch. *)
Record fs_view : Type := MkView {
  provider_info : info_dict;
  listing : Path → list Path;
  exists_ : Path → bool;
  mtime_of : Path → mtime;
}.

(** The event is a call that succeeded with the answer [v] prescribes
    (calls on the progress log are not constrained). *)
Definition agrees (v : fs_view) (ev : event) : Prop :=
  match ev with
  | Ev o r =>
      match o in op A return A → Prop with
      | Mkdir _ => λ r, r = inr ()
      | YdlOpen _ => λ r, raised_by r = None
      | ExtractInfo _ _ => λ r, r = inr (Some (provider_info v))
      | YdlExit _ => λ r, r = inr ()
      | Glob d => λ r, r = inr (listing v d)
      | PathExists p => λ r, r = inr (exists_ v p)
      | Stat p => λ r, r = inr (mtime_of v p)
      | _ => λ _, True
      end r
  end.

(** An oracle chooses the answer to every call, given the state. *)
Definition oracle : Type := world → ∀ A : Type, op A → A.

(** The answer of the environment described by [v] in state [w]; the
    progress log works (a fresh file object on open, no failure on an open
    file) and loading a configuration finds no file. *)
Definition answer_of (v : fs_view) : oracle := λ w A o,
  match o in op A return A with
  | Mkdir _ => inr ()
  | YdlOpen _ => inr 0%N
  | ExtractInfo _ _ => inr (Some (provider_info v))
  | YdlExit _ => inr ()
  | Glob d => inr (listing v d)
  | PathExists p => inr (exists_ v p)
  | Stat p => inr (mtime_of v p)
  | LogOpen => inr (fresh (dom (open_files w)))
  | LogWrite f _ | LogClose f =>
      match open_files w !! f with
      | Some _ => inr ()
      | None => inl (Exn ValueError (lit "I/O operation on closed file."))
      end
  | LoadJson _ | LoadYaml _ =>
      inl (Exn OSError (lit "[Errno 2] No such file or directory"))
  | Print _ => ()
  end.

(** The state after call [o] was answered with [r], on a platform whose
    buffer holds every text written (one of the states [env_step] allows). *)
Definition env_apply {A : Type} (w : world) (o : op A) : A → world :=
  match o in op A return A → world with
  | LogOpen => λ r,
      match r with
      | inl _ => w
      | inr f => MkWorld (log_content w) (<[f := []]> (open_files w))
      end
  | LogWrite f s => λ r,
      match r with
      | inl _ => w
      | inr _ => MkWorld (log_content w)
                   (<[f := default [] (open_files w !! f) ++ s]> (open_files w))
      end
  | LogClose f => λ r,
      match r with
      | inl _ => MkWorld (log_content w) (delete f (open_files w))
      | inr _ => MkWorld (log_content w ++ default [] (open_files w !! f))
                   (delete f (open_files w))
      end
  | _ => λ _, w
  end.

(** Running [p] alone with the answers of [ans]: the calls made, the
    outcome and the final state. *)
Fixpoint interp {R : Type} (ans : oracle) (p : Prog R) (w : world)
    : list event * (exn + R) * world :=
  match p with
  | Ret r => ([], inr r, w)
  | Raise e => ([], inl e, w)
  | Do o k =>
      let r := ans w _ o in
      let '(tr, out, w') := interp ans (k r) (env_apply w o r) in
      (Ev o r :: tr, out, w')
  end.

(** The answers of [ans] are answers the environment may give. *)
Definition valid_oracle (ans : oracle) : Prop :=
  ∀ w A (o : op A), env_step w o (ans w A o) (env_apply w o (ans w A o)).

(** The environment of [v] with a provider whose [extract_info] raises [e],
    and with a progress log that cannot be opened (raising [e]). *)
Definition provider_raising (e : exn) (v : fs_view) : oracle := λ w A o,
  match o in op A return A → A with
  | ExtractInfo _ _ => λ _, inl e
  | _ => λ r, r
  end (answer_of v w A o).


(** *** The resolution policy in the words of the specification *)

(** The candidates: the first non-empty of (1) the files the provider
    reports, (2) the listing of the target directory, (3) the nominal file
    name if it exists in the target directory. *)
Definition resolution_candidates (v : fs_view) (target_dir : Path) : list Path :=
  match reported_files (provider_info v) with
  | (_ :: _) as files => files
  | [] =>
      match listing v target_dir with
      | (_ :: _) as files => files
      | [] =>
          match filename (provider_info v) with
          | Some name =>
              if exists_ v (path_join target_dir name)
              then [path_join target_dir name] else []
          | None => []
          end
      end
  end.

(** The files paired with their modification time in view [v]. *)
Definition keyed_by (v : fs_view) (files : list Path) : list (mtime * Path) :=
  (λ f, (mtime_of v f, f)) <$> files.

(** [p] is a most recently modified file among [files]. *)
Definition most_recent (v : fs_view) (files : list Path) (p : Path) : Prop :=
  p ∈ files ∧ ∀ c, c ∈ files → mtime_of v c ≤ mtime_of v p.

(** ** Sample inputs *)

Definition sample_url : pystr := lit "https://youtu.be/dQw4w9WgXcQ".
Definition sample_dir : pystr := lit "/d".

(** No progress log yet and no file object open. *)
Definition no_log : world := MkWorld [] ∅.

(** The provider reports [/d/x.mp3]; the directory also holds an older
    download, which is the more recently touched file. *)
Definition view_reported : fs_view :=
  MkView
    (MkInfo (Some [MkDownload (Some (lit "/d/x.mp3"))]) (Some (lit "x.webm")))
    (λ _, [MkPath (lit "/d/old.mp3"); MkPath (lit "/d/x.mp3")])
    (λ _, true)
    (λ p, if decide (p = MkPath (lit "/d/old.mp3")) then 5 else 1).

(** The provider reports nothing and the directory is empty. *)
Definition view_empty : fs_view :=
  MkView (MkInfo None None) (λ _, []) (λ _, false) (λ _, 0).

(** A task as [_unified_download_tasks] builds it, and one with a url only. *)
Definition sample_task : task :=
  <["url" := VStr sample_url]> (<["target_dir" := VStr sample_dir]> ∅).
Definition task_url_only : task := <["url" := VStr sample_url]> ∅.

(** The error of a full disk. *)
Definition disk_full : exn := Exn OSError (lit "[Errno 28] No space left on device").

(** A fetch of the sample url in audio mode. *)
Definition sample_fetch : Prog Path :=
  yt_downloader (VStr sample_url) (VStr sample_dir) (VBool true)
    (VStr (lit "highest")) VNone.

(** ** Parts of the functions, named for the proofs *)

(** The part of [resolve_output] that follows the provider's answer. *)
Definition resolve_from_info (info : info_dict) (d : Path) : Prog Path :=
  bind (match reported_files info with
        | [] => call (Glob d)
        | _ => Ret (reported_files info)
        end) (λ files2,
  bind (match files2, filename info with
        | [], Some name =>
            bind (call (PathExists (path_join d name)))
              (λ b, Ret (if b : bool then [path_join d name] else []))
        | _, _ => Ret files2
        end) (λ files3,
  match files3 with
  | [] => Raise (Exn PlainException (lit "No files were downloaded"))
  | [file] => Ret file
  | _ => bind (sort_by_mtime files3) (λ sorted,
           match sorted with
           | file :: _ => Ret file
           | [] => Raise (Exn IndexError (lit "list index out of range"))
           end)
  end)).

(** The part of [yt_downloader] that follows the validation of its
    arguments. *)
Definition fetch (url : pyval) (target_dir : Path) (ydl_opts : ydl_opts)
    : Prog Path :=
  bind (call (Mkdir target_dir)) (λ _,
    try_except
      (bind (call (YdlOpen ydl_opts)) (λ y,
         finally (resolve_output y url target_dir) (call (YdlExit y))))
      (λ e, Raise (Exn PlainException (error_downloading url e)))).

(** ** Invariants of the thread pool *)

(** Every slot holds (what is left of) the worker function applied to the
    task submitted at that position. *)
Definition slot_ok (t : task) (s : slot) : Prop :=
  match s with
  | Pending t' => t' = t
  | Running p => ∀ out, ends p out → ends (download_task t) out
  | Done out => ends (download_task t) out
  end.

Definition pool_ok (tasks : list task) (st : pool) : Prop :=
  Forall2 slot_ok tasks (slots st).

(** The pool has nothing left to do: every future is resolved with a
    result, or the consumer has met an exception and no worker is still
    running. These are the states in which [run_download_tasks] ends. *)
Definition pool_final (st : pool) : Prop :=
  match raised st with
  | None => Forall (λ s, ∃ r, s = Done (inr r)) (slots st)
  | Some _ => Forall (λ s, is_running s = false) (slots st)
  end.

(** What one step of the pool can do to one slot. *)
Inductive slot_next : slot → slot → Prop :=
| next_start t p : slot_next (Pending t) (Running p)
| next_call {A} (o : op A) k r : slot_next (Running (Do o k)) (Running (k r))
| next_done p out : slot_next (Running p) (Done out).

Definition slots_next (l l' : list slot) : Prop :=
  ∃ i s s', l !! i = Some s ∧ slot_next s s' ∧ l' = <[i := s']> l.

Definition has_result (s : slot) : bool :=
  match s with Done (inr _) => true | _ => false end.

(** A task with a blank url, and two batches. *)
Definition blank_task : task := <["url" := VStr (lit "   ")]> ∅.
Definition sample_batch : list task := [sample_task; task_url_only].
Definition batch_with_blank : list task := [sample_task; blank_task; task_url_only].

(** ** The protocol of a worker on the progress log *)

(** The program makes no call on the progress log. *)
Fixpoint log_free {R : Type} (p : Prog R) : Prop :=
  match p with
  | Do o k => is_log_kind (op_kind o) = false ∧ ∀ r, log_free (k r)
  | _ => True
  end.

(** Where a worker stands with respect to the progress log. *)
Inductive log_stage : Type :=
| Fetching                    (* no call on the log yet *)
| Opened (f : fileobj)        (* holds [f], nothing written *)
| WriteFailed (f : fileobj)   (* holds [f], the write raised *)
| Written (f : fileobj) (through : bool)
    (* holds [f], the write returned: the line is in the file already
       ([through]) or still in the buffer of [f] *)
| Finished (appended : bool). (* done with the log *)

#[global] Instance log_stage_eq_dec : EqDecision log_stage.
Proof. solve_decision. Defined.

(** [at_stage u line σ p]: [p] is what is left of a worker for url [u] that
    stands at stage [σ]: the only calls it still makes on the log are those
    of one open-write-close sequence for [line], and it returns [Success]
    exactly when the close succeeded after the write did. The worker does
    not know whether its write went through. *)
Fixpoint at_stage (u : pyval) (line : pystr) (σ : log_stage)
    (p : Prog Result) : Prop :=
  match p with
  | Ret r =>
      match σ with
      | Fetching | Finished false => ∃ msg, r = Failure u msg
      | Finished true => ∃ path, r = Success u path
      | _ => False
      end
  | Raise _ => False
  | Do o k =>
      match o in op A return (A → Prog Result) → Prop with
      | LogOpen => λ k,
          σ = Fetching ∧
          (∀ e, at_stage u line (Finished false) (k (inl e))) ∧
          (∀ f, at_stage u line (Opened f) (k (inr f)))
      | LogWrite f s => λ k,
          σ = Opened f ∧ s = line ∧
          (∀ e, at_stage u line (WriteFailed f) (k (inl e))) ∧
          (∀ x through, at_stage u line (Written f through) (k (inr x)))
      | LogClose f => λ k,
          (σ = WriteFailed f ∧ ∀ r, at_stage u line (Finished false) (k r)) ∨
          ((∃ through, σ = Written f through) ∧
           (∀ e, at_stage u line (Finished false) (k (inl e))) ∧
           (∀ x, at_stage u line (Finished true) (k (inr x))))
      | _ => λ k, σ = Fetching ∧ ∀ r, at_stage u line Fetching (k r)
      end k
  end.

(** The file object a worker holds at a stage, and the text in the buffer
    of that object. *)
Definition holds (σ : log_stage) : option fileobj :=
  match σ with
  | Opened f | WriteFailed f | Written f _ => Some f
  | _ => None
  end.

Definition buffered (line : pystr) (σ : log_stage) : pystr :=
  match σ with Written _ false => line | _ => [] end.

(** The line of a worker at this stage is in the file. *)
Definition in_file (σ : log_stage) : bool :=
  match σ with Written _ true | Finished true => true | _ => false end.

(** The url of a task and the line its worker appends on success. *)
Definition url_of (t : task) : pyval := default VNone (t !! "url").
Definition line_of (t : task) : pystr := py_str (url_of t) ++ newline.

(** The lines of the tasks at positions [order], in that order. *)
Definition lines_of (tasks : list task) (order : list nat) : pystr :=
  concat ((λ i, from_option line_of [] (tasks !! i)) <$> order).

Definition slot_at_stage (t : task) (σ : log_stage) (s : slot) : Prop :=
  match s with
  | Pending t' => t' = t ∧ σ = Fetching
  | Running p => at_stage (url_of t) (line_of t) σ p
  | Done (inr r) => at_stage (url_of t) (line_of t) σ (Ret r)
  | Done (inl _) => False
  end.

(** The invariant of a pool started in state [w0] on [tasks]: [stages]
    tells where each worker stands and [order] lists the tasks whose line
    has reached the file, in the order in which the lines did. *)
Record log_inv (tasks : list task) (w0 : world) (st : pool)
    (stages : list log_stage) (order : list nat) : Prop := MkLogInv {
  inv_stages : length stages = length tasks;
  inv_length : length (slots st) = length tasks;
  inv_raised : raised st = None;
  inv_slots : ∀ i t σ s,
    tasks !! i = Some t → stages !! i = Some σ → slots st !! i = Some s →
    slot_at_stage t σ s;
  inv_bufs : ∀ i t σ f,
    tasks !! i = Some t → stages !! i = Some σ → holds σ = Some f →
    open_files (pworld st) !! f = Some (buffered (line_of t) σ);
  inv_distinct : ∀ i j σi σj f,
    stages !! i = Some σi → stages !! j = Some σj →
    holds σi = Some f → holds σj = Some f → i = j;
  inv_order : ∀ i, i ∈ order ↔ ∃ σ, stages !! i = Some σ ∧ in_file σ = true;
  inv_nodup : NoDup order;
  inv_content :
    log_content (pworld st) = log_content w0 ++ lines_of tasks order;
}.

(** ** A scheduler *)

(** [tick workers ans i st]: the worker of slot [i] makes its next move,
    the environment answering as [ans] says; [None] when the slot cannot
    move (the task is queued behind another one or no worker is free, or
    the future is resolved). *)
Definition tick (workers : nat) (ans : oracle) (i : nat) (st : pool)
    : option pool :=
  match slots st !! i with
  | Some (Pending t) =>
      if decide (raised st = None)
      then if forallb (λ s, negb (is_pending s)) (take i (slots st))
                && (running_count (slots st) <? workers)%nat
           then Some (MkPool (<[i := Running (download_task t)]> (slots st))
                        (pworld st) (raised st))
           else None
      else None
  | Some (Running (Do o k)) =>
      let r := ans (pworld st) _ o in
      Some (MkPool (<[i := Running (k r)]> (slots st))
              (env_apply (pworld st) o r) (raised st))
  | Some (Running (Ret r)) =>
      Some (MkPool (<[i := Done (inr r)]> (slots st)) (pworld st) (raised st))
  | Some (Running (Raise e)) =>
      Some (MkPool (<[i := Done (inl e)]> (slots st)) (pworld st) (raised st))
  | _ => None
  end.

(** The state after the moves of the slots listed in [sched], in order. *)
Fixpoint schedule (workers : nat) (ans : oracle) (sched : list nat) (st : pool)
    : option pool :=
  match sched with
  | [] => Some st
  | i :: sched' =>
      match tick workers ans i st with
      | Some st' => schedule workers ans sched' st'
      | None => None
      end
  end.

(** Two workers take turns until both have opened the progress log. *)
Definition both_open : list nat := [0; 1; 0; 1; 0; 1; 0; 1; 0; 1; 0; 1]%nat.


(** The property claimed of the progress log: at no moment of a batch is
    more than one file object open on it. *)
Definition exclusive_appends (workers : nat) (tasks : list task) (w : world)
    : Prop :=
  ∀ st, rtc (pool_step workers) (submitted tasks w) st →
        (size (open_files (pworld st)) ≤ 1)%nat.

(** ** Further sample inputs *)

(** [KeyError('url')], as raised by [task["url"]]. *)
Definition missing_url : exn := Exn KeyError (lit "'url'").

(** A task without a url, and a batch that holds it. *)
Definition task_no_url : task := <["target_dir" := VStr sample_dir]> ∅.
Definition batch_with_no_url : list task := [sample_task; task_no_url].

(** ** Further observers *)

(** The exception a call raised, whatever the call. *)
Definition call_error (ev : event) : option exn :=
  match ev with
  | Ev o r =>
      match o in op A return A → option exn with
      | Mkdir _ => raised_by
      | YdlOpen _ => raised_by
      | ExtractInfo _ _ => raised_by
      | YdlExit _ => raised_by
      | Glob _ => raised_by
      | PathExists _ => raised_by
      | Stat _ => raised_by
      | LogOpen => raised_by
      | LogWrite _ _ => raised_by
      | LogClose _ => raised_by
      | LoadJson _ => raised_by
      | LoadYaml _ => raised_by
      | Print _ => λ _, None
      end r
  end.

(** The exceptions raised by the calls of a run, in order. *)
Definition call_errors (tr : list event) : list exn := omap call_error tr.

(** The provider objects created during a run, and the provider objects
    whose [__exit__] was called, in order. *)
Definition opened_provider (ev : event) : option ydl :=
  match ev with
  | Ev o r =>
      match o in op A return A → option ydl with
      | YdlOpen _ => λ r, match r with inr y => Some y | inl _ => None end
      | _ => λ _, None
      end r
  end.

Definition closed_provider (ev : event) : option ydl :=
  match ev with
  | Ev o _ => match o with YdlExit y => Some y | _ => None end
  end.

(** What [extract_info] returned, for an event that is such a call and did
    not raise. *)
Definition extracted (ev : event) : option (option info_dict) :=
  match ev with
  | Ev o r =>
      match o in op A return A → option (option info_dict) with
      | ExtractInfo _ _ => λ r, match r with inr i => Some i | inl _ => None end
      | _ => λ _, None
      end r
  end.

(** A program in which the exception of a failed call is raised at once:
    nothing catches it and no further call is made. *)
Fixpoint strict {R : Type} (p : Prog R) : Prop :=
  match p with
  | Do o k => ∀ r, match call_error (Ev o r) with
                   | Some e => k r = Raise e
                   | None => strict (k r)
                   end
  | _ => True
  end.

(** [str(AttributeError)] of [None.get]. *)
Definition none_has_no_get : exn :=
  Exn AttributeError (lit "'NoneType' object has no attribute 'get'").

(** The environment of [v] with a provider whose [extract_info] returns
    [None], and one in which listing a directory raises [e]. *)
Definition provider_returning_none (v : fs_view) : oracle := λ w A o,
  match o in op A return A → A with
  | ExtractInfo _ _ => λ _, inr None
  | _ => λ r, r
  end (answer_of v w A o).

Definition glob_failing (e : exn) (v : fs_view) : oracle := λ w A o,
  match o in op A return A → A with
  | Glob _ => λ _, inl e
  | _ => λ r, r
  end (answer_of v w A o).

Definition permission_denied : exn :=
  Exn OSError (lit "[Errno 13] Permission denied").

(** A provider error. *)
Definition not_found : exn := Exn ProviderError (lit "HTTP Error 404").

(** The four values [_prepare_download_options] gives to [format]. *)
Definition best_formats : list pystr :=
  [lit "bestaudio"; lit "bestvideo[ext=mp4]+bestaudio[ext=m4a]/best[ext=mp4]"].
Definition worst_formats : list pystr :=
  [lit "worstaudio"; lit "worstvideo[ext=mp4]+worstaudio[ext=m4a]/worst[ext=mp4]"].

(** A download in which [only_audio] and [quality] are not the values the
    signature announces: a non-empty string, and a misspelt quality. *)
Definition sloppy_fetch : Prog Path :=
  yt_downloader (VStr sample_url) (VStr sample_dir) (VStr (lit "false"))
    (VStr (lit "Highest")) VNone.

(** The document a loader parsed, when the first call of the run loads a
    configuration file and succeeds. *)
Definition loaded_document (tr : list event) : option document :=
  match tr with
  | Ev o r :: _ =>
      match o in op A return A → option document with
      | LoadJson _ => λ r, match r with inr doc => Some doc | inl _ => None end
      | LoadYaml _ => λ r, match r with inr doc => Some doc | inl _ => None end
      | _ => λ _, None
      end r
  | [] => None
  end.

(** [type(doc).__name__] for a document that is not a mapping. *)
Definition document_type (doc : document) : pystr :=
  match doc with
  | DocDict _ => lit "dict"
  | DocList _ => lit "list"
  | DocScalar v => type_name v
  end.

(** The environment of [v] in which loading a configuration file gives
    [doc]. *)
Definition loading (doc : document) (v : fs_view) : oracle := λ w A o,
  match o in op A return A → A with
  | LoadJson _ => λ _, inr doc
  | LoadYaml _ => λ _, inr doc
  | _ => λ r, r
  end (answer_of v w A o).

(** A configuration with two urls and defaults that carry a url of their
    own. *)
Definition sample_config : config :=
  MkConfig (Some (NMap [("quality", VStr (lit "lowest"));
                        ("url", VStr (lit "https://example.org/default"))]))
           (Some (NSeq [VStr sample_url; VStr (lit "https://youtu.be/second")])).

(** A configuration without ["defaults"], and one whose ["defaults"] are
    empty. *)
Definition config_without_defaults : config :=
  MkConfig None (Some (NSeq [VStr sample_url])).
Definition config_empty_defaults : config :=
  MkConfig (Some (NMap [])) (Some (NSeq [VStr sample_url])).

(** Configurations that parse but are not of the expected shape:
    [{"urls": null}], and [{"defaults": 5, "urls": [sample_url]}]. *)
Definition config_null_urls : config := MkConfig None (Some (NLeaf VNone)).
Definition config_bad_defaults : config :=
  MkConfig (Some (NLeaf (VInt 5))) (Some (NSeq [VStr sample_url])).

(** What can be asked of a node: whether [for] can iterate it, whether
    it has at least one member, and whether it is a mapping. *)
Definition iterable (n : node) : bool :=
  match n with
  | NLeaf (VStr _) | NSeq _ | NMap _ => true
  | NLeaf _ => false
  end.

Definition has_members (n : node) : bool :=
  match py_iter n with inr (_ :: _) => true | _ => false end.

Definition is_mapping (n : node) : bool :=
  match n with NMap _ => true | _ => false end.

(** A parsed document is unusable when it is not a mapping, when its
    ["urls"] cannot be iterated, or when it has a url and its ["defaults"]
    are not a mapping. *)
Definition unusable (doc : document) : bool :=
  match doc with
  | DocDict c =>
      negb (iterable (get_urls c))
      || has_members (get_urls c) && negb (is_mapping (get_defaults c))
  | _ => true
  end.

(** The dict of the fallback defaults. *)
Definition task_defaults : task :=
  <["target_dir" := VStr (lit "./downloads")]>
    (<["only_audio" := VBool false]>
       (<["quality" := VStr (lit "lowest")]> ∅)).

(** The file objects opened on the progress log during a run, and the file
    objects closed, in order. *)
Definition opened_file (ev : event) : option fileobj :=
  match ev with
  | Ev o r =>
      match o in op A return A → option fileobj with
      | LogOpen => λ r, match r with inr f => Some f | inl _ => None end
      | _ => λ _, None
      end r
  end.

Definition closed_file (ev : event) : option fileobj :=
  match ev with
  | Ev o _ => match o with LogClose f => Some f | _ => None end
  end.

(** The environment of [v] with a progress log on which writing raises
    [e]. *)
Definition write_failing (e : exn) (v : fs_view) : oracle := λ w A o,
  match o in op A return A → A with
  | LogWrite _ _ => λ _, inl e
  | _ => λ r, r
  end (answer_of v w A o).

(** ** The command-line entry point ([source.py]) *)

(** What is printed on standard output: a text, or (by [print(result)]) a
    result dictionary; how [print] formats the dictionary is not modelled. *)
Inductive printed : Type :=
| PrintedText (s : pystr)
| PrintedResult (r : Result).

(** What a call prints, if it is a [print]. *)
Definition printed_by (ev : event) : option printed :=
  match ev with
  | Ev o _ => match o with Print s => Some (PrintedText s) | _ => None end
  end.


(** ** The file objects of a batch *)

(** The invariant of a pool started in state [w0] on the file objects open
    on the progress log: besides those that were open at the start, which
    are left as they were, the open file objects are those the workers
    hold. *)
Record files_inv (w0 w : world) (stages : list log_stage) : Prop := MkFilesInv {
  fi_size :
    size (open_files w) = (size (open_files w0) + length (omap holds stages))%nat;
  fi_kept : ∀ f b, open_files w0 !! f = Some b → open_files w !! f = Some b;
  fi_new : ∀ i σ f,
    stages !! i = Some σ → holds σ = Some f → open_files w0 !! f = None;
}.

(** ** A pool of one worker *)




(** ** What a program does when no call fails *)

(** [unfailing E Q p]: as long as no call fails, [p] raises only exceptions
    in [E] and returns only values in [Q]. *)
Fixpoint unfailing {R : Type} (E : exn → Prop) (Q : R → Prop) (p : Prog R) : Prop :=
  match p with
  | Ret r => Q r
  | Raise e => E e
  | Do o k => ∀ r, call_error (Ev o r) = None → unfailing E Q (k r)
  end.

(** The exception raised when no method finds a file. *)
Definition no_files : exn := Exn PlainException (lit "No files were downloaded").

(** ** The choice among several candidates *)

(** [p] is, among [files], the first of those modified last. *)
Definition first_most_recent (v : fs_view) (files : list Path) (p : Path) : Prop :=
  ∃ pre post, files = pre ++ p :: post ∧
    Forall (λ c, mtime_of v c < mtime_of v p) pre ∧
    Forall (λ c, mtime_of v c ≤ mtime_of v p) post.

(** What the last step of the resolution gives on the candidates [files]
    when no call fails. *)
Definition chosen (v : fs_view) (files : list Path) : exn + Path :=
  match files with
  | [] => inl no_files
  | [file] => inr file
  | _ => match snd <$> sort_desc (keyed_by v files) with
         | file :: _ => inr file
         | [] => inl (Exn IndexError (lit "list index out of range"))
         end
  end.

(** Three files of which the last two were modified at the same time, after
    the first; the provider reports them all. *)
Definition view_tie : fs_view :=
  MkView
    (MkInfo (Some [MkDownload (Some (lit "/d/a.mp3"));
                   MkDownload (Some (lit "/d/b.mp3"));
                   MkDownload (Some (lit "/d/c.mp3"))]) None)
    (λ _, [])
    (λ _, true)
    (λ p, if decide (p = MkPath (lit "/d/a.mp3")) then 1 else 7).

(** * Properties *)

(** ** The embedding on sample inputs *)

Example strip_sample : strip (lit "  a b  ") = lit "a b".
Proof. reflexivity. Qed.

Example strip_blank : strip [32; 9; 12288; 10]%N = [].
Proof. reflexivity. Qed.

Example path_join_relative :
  path_join (MkPath (lit "/d")) (lit "x.mp3") = MkPath (lit "/d/x.mp3").
Proof. reflexivity. Qed.

Example path_join_absolute :
  path_join (MkPath (lit "/d")) (lit "/tmp/x.mp3") = MkPath (lit "/tmp/x.mp3").
Proof. reflexivity. Qed.

(** [str(Path("./downloads"))] is ["downloads"], [Path("") / "x.mp3"] is
    written ["x.mp3"], and repeated slashes count once. *)
Example path_str_sample :
  path_str (MkPath (lit "./downloads")) = lit "downloads" ∧
  path_str (MkPath (lit "")) = lit "." ∧
  path_str (path_join (MkPath (lit "")) (lit "x.mp3")) = lit "x.mp3" ∧
  path_str (path_join (MkPath (lit "/")) (lit "x.mp3")) = lit "/x.mp3" ∧
  path_str (MkPath (lit "a//b/./c/")) = lit "a/b/c" ∧
  path_str (MkPath (lit "//a")) = lit "//a" ∧
  path_str (MkPath (lit "///a/../b")) = lit "/a/../b".
Proof. repeat split; reflexivity. Qed.

Example default_outtmpl_sample :
  outtmpl (_prepare_download_options (MkPath (lit "./downloads")) (VBool true)
             (VStr (lit "highest")) VNone) = lit "downloads/%(title)s.%(ext)s".
Proof. reflexivity. Qed.

Example reported_files_sample :
  reported_files (MkInfo (Some [MkDownload (Some (lit "/d/x.mp3")); MkDownload None]) None)
  = [MkPath (lit "/d/x.mp3")].
Proof. reflexivity. Qed.

(** Files with equal time stamps keep their order, as with Python's
    stable sort. *)
Example sort_desc_sample :
  snd <$> sort_desc [(1, MkPath (lit "a")); (5, MkPath (lit "b"));
                     (5, MkPath (lit "c")); (2, MkPath (lit "d"))]
  = [MkPath (lit "b"); MkPath (lit "c"); MkPath (lit "d"); MkPath (lit "a")].
Proof. reflexivity. Qed.

Example audio_options_sample :
  format (_prepare_download_options (MkPath (lit "/d")) (VBool true)
            (VStr (lit "lowest")) (VStr (lit "song"))) = lit "worstaudio" ∧
  outtmpl (_prepare_download_options (MkPath (lit "/d")) (VBool true)
             (VStr (lit "lowest")) (VStr (lit "song"))) = lit "/d/song.%(ext)s".
Proof. split; reflexivity. Qed.

Example executor_sample :
  ThreadPoolExecutor 3 = inr 3%nat ∧
  ThreadPoolExecutor 0
    = inl (Exn ValueError (lit "max_workers must be greater than 0")).
Proof. split; reflexivity. Qed.

(** A task run alone in a well-behaved environment: the calls it makes, its
    result and the progress log afterwards. *)
Example download_task_sample :
  let run := interp (answer_of view_reported) (download_task sample_task) no_log in
  calls run.1.1
    = [KMkdir; KYdlOpen; KExtractInfo; KYdlExit; KLogOpen; KLogWrite; KLogClose] ∧
  run.1.2 = inr (Success (VStr sample_url) (MkPath (lit "/d/x.mp3"))) ∧
  log_content run.2 = sample_url ++ newline.
Proof. vm_compute. done. Qed.

(** Without a report from the provider the newest file of the directory is
    taken. *)
Example listing_fallback_sample :
  (interp (answer_of (MkView (MkInfo None None) (listing view_reported)
                        (λ _, false) (mtime_of view_reported)))
     sample_fetch no_log).1.2 = inr (MkPath (lit "/d/old.mp3")).
Proof. vm_compute. done. Qed.

(** ** Strings *)

Lemma lstrip_nil_iff (s : pystr) : lstrip s = [] ↔ whitespace_only s.
Proof.
  unfold whitespace_only. induction s as [|c s IH]; simpl.
  - split; [constructor | done].
  - destruct (py_isspace c) eqn:Hc.
    + rewrite IH. split; [by constructor | by inversion 1].
    + split; [done | inversion 1; congruence].
Qed.

Lemma lstrip_head (s : pystr) :
  lstrip s = [] ∨ ∃ c s', lstrip s = c :: s' ∧ py_isspace c = false.
Proof.
  induction s as [|c s IH]; simpl; [by left|].
  destruct (py_isspace c) eqn:Hc; [done | right; eauto].
Qed.

(** [s.strip()] is empty exactly when [s] is whitespace-only. *)
Lemma strip_nil_iff (s : pystr) : strip s = [] ↔ whitespace_only s.
Proof.
  unfold strip, rstrip. split.
  - intros H. apply lstrip_nil_iff.
    destruct (lstrip_head s) as [|(c & s' & Hs & Hc)]; [done|].
    assert (Hr : lstrip (reverse (lstrip s)) = []).
    { apply (f_equal reverse) in H. by rewrite reverse_involutive in H. }
    apply lstrip_nil_iff in Hr. unfold whitespace_only in Hr.
    rewrite Hs, reverse_cons, Forall_app, Forall_singleton in Hr.
    destruct Hr; congruence.
  - intros H. apply lstrip_nil_iff in H. by rewrite H.
Qed.

(** ** Programs *)

Arguments yt_downloader : simpl never.
Arguments resolve_output : simpl never.
Arguments sort_by_mtime : simpl never.
Arguments append_progress : simpl never.
Arguments download_task : simpl never.
Arguments error_downloading : simpl never.
Arguments lit : simpl never.

Ltac prog_unfold := unfold mbind, prog_bind, mret, prog_ret in *.
Ltac prog_simpl := repeat (progress (prog_unfold; cbn in *)).

Lemma ends_Do_inv {R A} (o : op A) (k : A → Prog R) out :
  ends (Do o k) out → ∃ a, ends (k a) out.
Proof.
  intros H.
  refine (match H in ends p out' return
            match p with Do o' k' => ∃ a, ends (k' a) out' | _ => True end
          with ends_do _ _ a _ H' => ex_intro _ a H' | _ => I end).
Qed.

Lemma ends_Ret_inv {R} (r : R) out : ends (Ret r) out → out = inr r.
Proof. by inversion 1. Qed.

Lemma ends_Raise_inv {R} (e : exn) (out : exn + R) : ends (Raise e) out → out = inl e.
Proof. by inversion 1. Qed.

Lemma ends_bind {A B} (p : Prog A) (f : A → Prog B) out :
  ends (bind p f) out ↔
  (∃ e, ends p (inl e) ∧ out = inl e) ∨ (∃ a, ends p (inr a) ∧ ends (f a) out).
Proof.
  induction p as [a|e|X o k IH]; simpl.
  - split.
    + intros H. right. exists a. split; [constructor | done].
    + intros [(e & H & _)|(a' & H & H')]; apply ends_Ret_inv in H; congruence.
  - split.
    + intros H%ends_Raise_inv. left. exists e. split; [constructor | done].
    + intros [(e' & H & ->)|(a' & H & H')]; apply ends_Raise_inv in H;
        [injection H as ->; constructor | done].
  - split.
    + intros (a & H)%ends_Do_inv. apply IH in H as [(e & H & ->)|(b & H & H')].
      * left. exists e. split; [by econstructor | done].
      * right. exists b. split; [by econstructor | done].
    + intros [(e & (a & H)%ends_Do_inv & ->)|(b & (a & H)%ends_Do_inv & H')].
      * apply (ends_do _ _ a). apply IH. left. eauto.
      * apply (ends_do _ _ a). apply IH. right. eauto.
Qed.

Lemma ends_try_except {A} (p : Prog A) (h : exn → Prog A) out :
  ends (try_except p h) out ↔
  (∃ a, ends p (inr a) ∧ out = inr a) ∨ (∃ e, ends p (inl e) ∧ ends (h e) out).
Proof.
  induction p as [a|e|X o k IH]; simpl.
  - split.
    + intros H%ends_Ret_inv. left. exists a. split; [constructor | done].
    + intros [(a' & H & ->)|(e & H & H')]; apply ends_Ret_inv in H;
        [injection H as ->; constructor | done].
  - split.
    + intros H. right. exists e. split; [constructor | done].
    + intros [(a & H & _)|(e' & H & H')]; apply ends_Raise_inv in H; congruence.
  - split.
    + intros (a & H)%ends_Do_inv. apply IH in H as [(b & H & ->)|(e & H & H')].
      * left. exists b. split; [by econstructor | done].
      * right. exists e. split; [by econstructor | done].
    + intros [(b & (a & H)%ends_Do_inv & ->)|(e & (a & H)%ends_Do_inv & H')].
      * apply (ends_do _ _ a). apply IH. left. eauto.
      * apply (ends_do _ _ a). apply IH. right. eauto.
Qed.
Lemma download_task_ends (t : task) u out :
  t !! "url" = Some u → ends (download_task t) out →
  ∃ r, out = inr r ∧ result_url r = u.
Proof.
  intros Hu H. unfold download_task, getitem in H. rewrite Hu in H.
  apply ends_try_except in H as [(a & H & ->)|(e & _ & H)]; prog_simpl.
  - 
    apply ends_bind in H as [(e & _ & ?)|(path & _ & H)]; [done|].
    apply ends_bind in H as [(e & _ & ?)|(? & _ & H)]; [done|].
    apply ends_Ret_inv in H. injection H as ->. eauto.
  - apply ends_Ret_inv in H. eauto.
Qed.

Lemma download_task_blank_url (t : task) s :
  t !! "url" = Some (VStr s) → whitespace_only s →
  download_task t = Ret (Failure (VStr s) (lit "URL cannot be empty")).
Proof.
  intros Hu Hs. unfold download_task, getitem. rewrite Hu.
  unfold yt_downloader. prog_simpl.
  destruct s as [|c s]; simpl; [done|].
  apply strip_nil_iff in Hs. rewrite Hs. simpl. done.
Qed.

Lemma exec_ends {R} (p : Prog R) w tr out w' : exec p w tr out w' → ends p out.
Proof.
  revert w tr. induction p as [a|e|X o k IH]; simpl; intros w tr.
  - intros (_ & -> & _). constructor.
  - intros (_ & -> & _). constructor.
  - intros (r & w1 & tr1 & _ & _ & H). econstructor. eauto.
Qed.

Lemma exec_call {A} (o : op (exn + A)) w tr out w' :
  exec (call o) w tr out w' ↔ env_step w o out w' ∧ tr = [Ev o out].
Proof.
  unfold call. simpl. split.
  - intros (r & w1 & tr1 & Hs & -> & H).
    destruct r; simpl in H; destruct H as (-> & -> & ->); done.
  - intros (Hs & ->). exists out, w', [].
    destruct out; simpl; done.
Qed.

Lemma exec_bind {A B} (p : Prog A) (f : A → Prog B) w tr out w' :
  exec (bind p f) w tr out w' ↔
  (∃ e, exec p w tr (inl e) w' ∧ out = inl e) ∨
  (∃ a w1 tr1 tr2,
     exec p w tr1 (inr a) w1 ∧ exec (f a) w1 tr2 out w' ∧ tr = tr1 ++ tr2).
Proof.
  revert w tr. induction p as [a|e|X o k IH]; simpl; intros w tr.
  - split.
    + intros H. right. by exists a, w, [], tr.
    + intros [(e & (_ & ? & _) & _)|(a' & w1 & tr1 & tr2 & (-> & [= <-] & ->) & Hf & ->)];
        done.
  - split.
    + intros (-> & -> & ->). left. by exists e.
    + intros [(e' & (-> & [= <-] & ->) & ->)|(a' & w1 & tr1 & tr2 & (_ & ? & _) & _)];
        done.
  - split.
    + intros (r & w1 & tr1 & Hs & -> & H).
      apply IH in H as [(e & H & ->)|(a & w2 & t1 & t2 & H1 & H2 & ->)].
      * left. exists e. split; [|done]. by exists r, w1, tr1.
      * right. exists a, w2, (Ev o r :: t1), t2. split; [|done].
        by exists r, w1, t1.
    + intros [(e & (r & w1 & tr1 & Hs & -> & H) & ->)
             |(a & w2 & t1 & t2 & (r & w1 & tr1 & Hs & -> & H1) & H2 & ->)].
      * exists r, w1, tr1. split; [done|]. split; [done|]. apply IH. left. eauto.
      * exists r, w1, (tr1 ++ t2). split; [done|]. split; [done|].
        apply IH. right. by exists a, w2, tr1, t2.
Qed.

Lemma exec_try_except {A} (p : Prog A) (h : exn → Prog A) w tr out w' :
  exec (try_except p h) w tr out w' ↔
  (∃ a, exec p w tr (inr a) w' ∧ out = inr a) ∨
  (∃ e w1 tr1 tr2,
     exec p w tr1 (inl e) w1 ∧ exec (h e) w1 tr2 out w' ∧ tr = tr1 ++ tr2).
Proof.
  revert w tr. induction p as [a|e|X o k IH]; simpl; intros w tr.
  - split.
    + intros (-> & -> & ->). left. by exists a.
    + intros [(a' & (-> & [= <-] & ->) & ->)|(e & w1 & tr1 & tr2 & (_ & ? & _) & _)];
        done.
  - split.
    + intros H. right. by exists e, w, [], tr.
    + intros [(a & (_ & ? & _) & _)|(e' & w1 & tr1 & tr2 & (-> & [= <-] & ->) & Hf & ->)];
        done.
  - split.
    + intros (r & w1 & tr1 & Hs & -> & H).
      apply IH in H as [(a & H & ->)|(e & w2 & t1 & t2 & H1 & H2 & ->)].
      * left. exists a. split; [|done]. by exists r, w1, tr1.
      * right. exists e, w2, (Ev o r :: t1), t2. split; [|done].
        by exists r, w1, t1.
    + intros [(a & (r & w1 & tr1 & Hs & -> & H) & ->)
             |(e & w2 & t1 & t2 & (r & w1 & tr1 & Hs & -> & H1) & H2 & ->)].
      * exists r, w1, tr1. split; [done|]. split; [done|]. apply IH. left. eauto.
      * exists r, w1, (tr1 ++ t2). split; [done|]. split; [done|].
        apply IH. right. by exists e, w2, tr1, t2.
Qed.

Lemma exec_finally {A} (p : Prog A) (fin : Prog unit) w tr out w' :
  exec (finally p fin) w tr out w' ↔
  ∃ out1 w1 tr1 tr2 outf,
    exec p w tr1 out1 w1 ∧ exec fin w1 tr2 outf w' ∧ tr = tr1 ++ tr2 ∧
    out = match outf with inl e => inl e | inr _ => out1 end.
Proof.
  revert w tr. induction p as [a|e|X o k IH]; simpl; intros w tr.
  - prog_unfold. rewrite exec_bind. simpl. split.
    + intros [(e & H & ->)|(u & w1 & tr1 & tr2 & H & (-> & -> & ->) & ->)].
      * by exists (inr a), w, [], tr, (inl e).
      * exists (inr a), w, [], tr1, (inr u). by rewrite app_nil_r.
    + intros (out1 & w1 & tr1 & tr2 & outf & (-> & -> & ->) & H & -> & ->).
      destruct outf as [e|u]; [left; eauto|].
      right. exists u, w', tr2, []. by rewrite app_nil_r.
  - prog_unfold. rewrite exec_bind. simpl. split.
    + intros [(e' & H & ->)|(u & w1 & tr1 & tr2 & H & (-> & -> & ->) & ->)].
      * by exists (inl e), w, [], tr, (inl e').
      * exists (inl e), w, [], tr1, (inr u). by rewrite app_nil_r.
    + intros (out1 & w1 & tr1 & tr2 & outf & (-> & -> & ->) & H & -> & ->).
      destruct outf as [e'|u]; [left; eauto|].
      right. exists u, w', tr2, []. by rewrite app_nil_r.
  - split.
    + intros (r & w1 & tr1 & Hs & -> & H).
      apply IH in H as (out1 & w2 & t1 & t2 & outf & H1 & H2 & -> & ->).
      exists out1, w2, (Ev o r :: t1), t2, outf. split; [|done].
      by exists r, w1, t1.
    + intros (out1 & w2 & t1 & t2 & outf & (r & w1 & tr1 & Hs & -> & H1) & H2 & -> & ->).
      exists r, w1, (tr1 ++ t2). split; [done|]. split; [done|].
      apply IH. by exists out1, w2, tr1, t2, outf.
Qed.

(** ** Oracles and the interpreter *)

Lemma answer_of_valid (v : fs_view) : valid_oracle (answer_of v).
Proof.
  intros w A o. destruct o; simpl; try done.
  - split; [|done]. apply not_elem_of_dom, is_fresh.
  - destruct (open_files w !! f) as [buf|] eqn:Hf; simpl; [|done].
    exists buf. split; [done|by left].
  - destruct (open_files w !! f) as [buf|] eqn:Hf; simpl; [by exists buf|done].
Qed.

Lemma provider_raising_valid e v : valid_oracle (provider_raising e v).
Proof.
  intros w A o. pose proof (answer_of_valid v w A o) as H.
  by destruct o.
Qed.


Lemma answer_agrees (v : fs_view) (w : world) {A} (o : op A) :
  agrees v (Ev o (answer_of v w A o)).
Proof. by destruct o. Qed.

(** The interpreter computes a run of the program. *)
Lemma interp_exec {R} (ans : oracle) (p : Prog R) (w : world) :
  valid_oracle ans →
  exec p w (interp ans p w).1.1 (interp ans p w).1.2 (interp ans p w).2.
Proof.
  intros Hans. revert w. induction p as [r|e|A o k IH]; intros w; simpl; [done..|].
  specialize (IH (ans w A o) (env_apply w o (ans w A o))).
  destruct (interp ans (k (ans w A o)) _) as [[tr out] w'].
  simpl in *. eexists _, _, tr. split; [apply Hans|done].
Qed.

(** Against the environment of [v], every call is answered as [v]
    prescribes. *)
Lemma interp_agrees {R} (v : fs_view) (p : Prog R) (w : world) :
  Forall (agrees v) (interp (answer_of v) p w).1.1.
Proof.
  revert w. induction p as [r|e|A o k IH]; intros w; simpl; [done..|].
  specialize (IH (answer_of v w A o) (env_apply w o (answer_of v w A o))).
  destruct (interp (answer_of v) (k (answer_of v w A o)) _) as [[tr out] w'].
  simpl in *. constructor; [apply answer_agrees|done].
Qed.

(** ** Sorting by modification time *)

Lemma insert_desc_elem (x y : mtime * Path) l :
  y ∈ insert_desc x l ↔ y = x ∨ y ∈ l.
Proof.
  induction l as [|z l IH]; simpl.
  - rewrite list_elem_of_singleton, elem_of_nil. tauto.
  - destruct (x.1 <? z.1); rewrite !elem_of_cons, ?IH; tauto.
Qed.

Lemma sort_desc_elem (y : mtime * Path) l : y ∈ sort_desc l ↔ y ∈ l.
Proof.
  induction l as [|x l IH]; simpl; [done|].
  rewrite insert_desc_elem, elem_of_cons, IH. done.
Qed.

Lemma insert_desc_head x l : head_is_max l → head_is_max (insert_desc x l).
Proof.
  destruct l as [|z l]; simpl; [by intros _ y ?%elem_of_nil|].
  intros Hz. destruct (Z.ltb_spec x.1 z.1) as [Hlt|Hge].
  - simpl. intros y [->|Hy]%insert_desc_elem; [lia|by apply Hz].
  - intros y [->|Hy]%elem_of_cons; [lia|]. specialize (Hz y Hy). lia.
Qed.

Lemma sort_desc_head l : head_is_max (sort_desc l).
Proof. induction l as [|x l IH]; simpl; [done|]. by apply insert_desc_head. Qed.

Lemma sort_desc_length l : length (sort_desc l) = length l.
Proof.
  induction l as [|x l IH]; simpl; [done|]. rewrite <- IH.
  generalize (sort_desc l). intros l'. induction l' as [|z l' IH']; simpl; [done|].
  destruct (x.1 <? z.1); simpl; by rewrite ?IH'.
Qed.

Lemma stat_all_cons f files :
  stat_all (f :: files) =
  bind (call (Stat f)) (λ m, bind (stat_all files) (λ keyed, Ret ((m, f) :: keyed))).
Proof. done. Qed.

Lemma exec_stat_all files w tr out w' :
  exec (stat_all files) w tr out w' →
  w' = w ∧ Forall (λ ev, kind_of ev = KStat) tr ∧
  ∀ v, Forall (agrees v) tr → out = inr (keyed_by v files).
Proof.
  revert w tr out. induction files as [|f files IH]; intros w tr out.
  - intros (-> & -> & ->). done.
  - rewrite stat_all_cons. intros H.
    apply exec_bind in H as [(e & [Hs ->]%exec_call & ->)
                            |(m & w1 & tr1 & tr2 & [Hs ->]%exec_call & H & ->)].
    + simpl in Hs. subst w'. split; [done|]. split; [by repeat constructor|].
      intros v [Hv _]%Forall_cons. done.
    + simpl in Hs. subst w1.
      apply exec_bind in H as [(e & H & ->)|(keyed & w1 & t1 & t2 & H & (-> & -> & ->) & ->)];
        apply IH in H as (-> & Hk & Ho).
      * split; [done|]. split; [by constructor|].
        intros v [Hv Ht]%Forall_cons. by specialize (Ho v Ht).
      * rewrite app_nil_r. split; [done|]. split; [by constructor|].
        intros v [Hv Ht]%Forall_cons. specialize (Ho v Ht). simpl in Hv.
        by simplify_eq.
Qed.

Lemma exec_sort_by_mtime files w tr out w' :
  exec (sort_by_mtime files) w tr out w' →
  w' = w ∧ Forall (λ ev, kind_of ev = KStat) tr ∧
  ∀ v, Forall (agrees v) tr → out = inr (snd <$> sort_desc (keyed_by v files)).
Proof.
  unfold sort_by_mtime. prog_unfold. intros H.
  apply exec_bind in H as [(e & H & ->)|(keyed & w1 & t1 & t2 & H & (-> & -> & ->) & ->)];
    apply exec_stat_all in H as (-> & Hk & Ho).
  - split; [done|]. split; [done|]. intros v Hv. by specialize (Ho v Hv).
  - rewrite app_nil_r. split; [done|]. split; [done|].
    intros v Hv. specialize (Ho v Hv). by simplify_eq.
Qed.

Lemma sort_desc_most_recent v files :
  files ≠ [] →
  ∃ p rest, snd <$> sort_desc (keyed_by v files) = p :: rest ∧ most_recent v files p.
Proof.
  intros Hne.
  destruct (sort_desc (keyed_by v files)) as [|x rest] eqn:Hs.
  { apply (f_equal length) in Hs. rewrite sort_desc_length in Hs.
    unfold keyed_by in Hs. rewrite length_fmap in Hs. by destruct files. }
  exists x.2, (snd <$> rest). split; [done|].
  assert (Hx : x ∈ keyed_by v files).
  { apply sort_desc_elem. rewrite Hs. left. }
  apply list_elem_of_fmap in Hx as (f & -> & Hf). split; [done|].
  intros c Hc. pose proof (sort_desc_head (keyed_by v files)) as Hmax.
  rewrite Hs in Hmax. simpl in Hmax.
  assert (Hc' : (mtime_of v c, c) ∈ (mtime_of v f, f) :: rest).
  { rewrite <- Hs. apply sort_desc_elem. by apply (list_elem_of_fmap_2 (λ f, (mtime_of v f, f))). }
  apply elem_of_cons in Hc' as [[= -> ->]|Hc']; [done|].
  by apply (Hmax _ Hc').
Qed.

(** The last step of the resolution, on the candidates found. *)
Lemma exec_pick files w tr out w' :
  exec (match files with
        | [] => Raise (Exn PlainException (lit "No files were downloaded"))
        | [file] => Ret file
        | _ => bind (sort_by_mtime files) (λ sorted,
                 match sorted with
                 | file :: _ => Ret file
                 | [] => Raise (Exn IndexError (lit "list index out of range"))
                 end)
        end) w tr out w' →
  w' = w ∧ Forall (λ ev, kind_of ev = KStat) tr ∧
  ∀ v, Forall (agrees v) tr →
    match files with
    | [] => out = inl (Exn PlainException (lit "No files were downloaded"))
    | _ => ∃ p, out = inr p ∧ most_recent v files p
    end.
Proof.
  destruct files as [|f1 [|f2 files]].
  - intros (-> & -> & ->). done.
  - intros (-> & -> & ->). split; [done|]. split; [constructor|]. intros v _.
    exists f1. split; [done|]. split; [left|].
    by intros c ->%list_elem_of_singleton.
  - intros H.
    apply exec_bind in H as [(e & H & ->)|(sorted & w1 & t1 & t2 & H & H2 & ->)];
      apply exec_sort_by_mtime in H as (-> & Hk & Ho).
    + split; [done|]. split; [done|]. intros v Hv. by specialize (Ho v Hv).
    + assert (tr2ok : t2 = [] ∧ w' = w ∧
        out = match sorted with
              | file :: _ => inr file
              | [] => inl (Exn IndexError (lit "list index out of range"))
              end).
      { by destruct sorted; destruct H2 as (-> & -> & ->). }
      destruct tr2ok as (-> & -> & ->). rewrite app_nil_r.
      split; [done|]. split; [done|]. intros v Hv.
      specialize (Ho v Hv).
      destruct (sort_desc_most_recent v (f1 :: f2 :: files)) as (p & rest & Hs & Hp);
        [done|].
      assert (sorted = p :: rest) as -> by congruence. eauto.
Qed.

Ltac forall_events :=
  simpl; repeat first [apply Forall_nil_2 | apply Forall_cons_2; [done|]]; try done.

Lemma exec_resolve_from_info info d w tr out w' :
  exec (resolve_from_info info d) w tr out w' →
  w' = w ∧
  Forall (λ ev, is_fs_kind (kind_of ev) = true) tr ∧
  ∀ v, provider_info v = info → Forall (agrees v) tr →
    match resolution_candidates v d with
    | [] => out = inl (Exn PlainException (lit "No files were downloaded"))
    | _ => ∃ p, out = inr p ∧ most_recent v (resolution_candidates v d) p
    end ∧
    (reported_files info ≠ [] → Forall (λ ev, kind_of ev = KStat) tr) ∧
    (listing v d ≠ [] → Forall (λ ev, kind_of ev ≠ KExists) tr).
Proof.
  unfold resolve_from_info, resolution_candidates. intros H.
  assert (Hstat : ∀ t, Forall (λ ev, kind_of ev = KStat) t →
            Forall (λ ev, is_fs_kind (kind_of ev) = true) t
            ∧ Forall (λ ev, kind_of ev ≠ KExists) t).
  { intros t Ht. split; eapply Forall_impl; try exact Ht; by intros ev ->. }
  destruct (reported_files info) as [|f1 fs] eqn:Hrep.
  - (* nothing reported: the directory is listed *)
    apply exec_bind in H as [(e & [Hs ->]%exec_call & ->)
                            |(files2 & w1 & t1 & t2 & [Hs ->]%exec_call & H & ->)];
      simpl in Hs; subst.
    { split; [done|]. split; [forall_events|].
      by intros v _ [Hv _]%Forall_cons. }
    destruct files2 as [|g1 gs].
    + (* empty listing: the nominal file name *)
      destruct (filename info) as [name|] eqn:Hname.
      * apply exec_bind in H as [(e & H & ->)|(files3 & w1 & t1 & t3 & H & H3 & ->)].
        { apply exec_bind in H as [(e' & [Hs ->]%exec_call & [= ->])
                                  |(? & ? & ? & ? & _ & (_ & ? & _) & _)]; [|done].
          simpl in Hs; subst. split; [done|].
          split; [forall_events|].
          intros v _ [_ [Hv _]%Forall_cons]%Forall_cons. done. }
        apply exec_bind in H as [(e' & _ & ?)
                                |(b & w2 & t4 & t5 & [Hs ->]%exec_call & (-> & [= ->] & ->) & ->)];
          [done|].
        simpl in Hs; subst.
        apply (exec_pick (if b then [path_join d name] else [])) in H3 as (-> & Hk & Hp). split; [done|].
        split; [forall_events; by apply Hstat|].
        intros v <- [Hg [He Ht]%Forall_cons]%Forall_cons. simpl in Hg, He.
        injection Hg as <-. injection He as ->. rewrite Hrep, Hname.
        specialize (Hp v Ht). split; [|done].
        by destruct (exists_ v (path_join d name)).
      * apply exec_bind in H as [(e & (_ & ? & _) & _)|(? & ? & ? & t3 & (-> & [= ->] & ->) & H3 & ->)];
          [done|].
        apply (exec_pick []) in H3 as (-> & Hk & Hp). split; [done|].
        split; [forall_events; by apply Hstat|].
        intros v <- [Hg Ht]%Forall_cons. simpl in Hg. injection Hg as <-.
        rewrite Hrep, Hname. specialize (Hp v Ht). done.
    + apply exec_bind in H as [(e & (_ & ? & _) & _)|(? & ? & ? & t3 & (-> & [= ->] & ->) & H3 & ->)];
        [done|].
      apply (exec_pick (g1 :: gs)) in H3 as (-> & Hk & Hp). split; [done|].
      split; [forall_events; by apply Hstat|].
      intros v <- [Hg Ht]%Forall_cons. simpl in Hg. injection Hg as Hg.
      rewrite Hrep, <- Hg. specialize (Hp v Ht). split; [exact Hp|]. split; [done|].
      intros _. forall_events. by apply Hstat.
  - (* the provider reported files *)
    apply exec_bind in H as [(e & (_ & ? & _) & _)|(? & ? & ? & t3 & (-> & [= ->] & ->) & H2 & ->)];
      [done|].
    apply exec_bind in H2 as [(e & (_ & ? & _) & _)|(? & ? & ? & t4 & (-> & [= ->] & ->) & H3 & ->)];
      [done|].
    apply (exec_pick (f1 :: fs)) in H3 as (-> & Hk & Hp). split; [done|].
    split; [by apply Hstat|].
    intros v <- Ht. rewrite Hrep. specialize (Hp v Ht).
    split; [done|]. split; [done|]. intros _. by apply Hstat.
Qed.

Lemma resolve_output_split y url d :
  resolve_output y url d =
  bind (call (ExtractInfo y url)) (λ info_dict,
  bind (match info_dict with
        | Some info => Ret info
        | None => Raise (Exn AttributeError
                    (lit "'NoneType' object has no attribute 'get'"))
        end) (λ info, resolve_from_info info d)).
Proof. done. Qed.

Lemma exec_resolve_output y url d w tr out w' :
  exec (resolve_output y url d) w tr out w' →
  w' = w ∧
  ∃ r rest, tr = Ev (ExtractInfo y url) r :: rest ∧
    Forall (λ ev, is_fs_kind (kind_of ev) = true) rest ∧
    (∀ e, r = inl e → out = inl e) ∧
    ∀ v, Forall (agrees v) tr →
      match resolution_candidates v d with
      | [] => out = inl (Exn PlainException (lit "No files were downloaded"))
      | _ => ∃ p, out = inr p ∧ most_recent v (resolution_candidates v d) p
      end ∧
      (reported_files (provider_info v) ≠ [] →
       Forall (λ ev, kind_of ev = KStat) rest) ∧
      (listing v d ≠ [] → Forall (λ ev, kind_of ev ≠ KExists) rest).
Proof.
  rewrite resolve_output_split. intros H.
  apply exec_bind in H as [(e & [Hs ->]%exec_call & ->)
                          |(oi & w1 & tr1 & tr2 & [Hs ->]%exec_call & H & ->)];
    simpl in Hs; subst.
  { split; [done|]. eexists _, []. split; [done|]. split; [constructor|].
    split; [by intros ? [= ->]|]. by intros v [Hv _]%Forall_cons. }
  destruct oi as [info|].
  - apply exec_bind in H as [(e & (_ & ? & _) & _)
                            |(? & ? & t1 & t2 & (-> & [= ->] & ->) & H2 & ->)]; [done|].
    apply exec_resolve_from_info in H2 as (-> & Hk & Hv). split; [done|].
    eexists _, _. split; [done|]. split; [done|]. split; [done|].
    intros v [He Ht]%Forall_cons. simpl in He. injection He as ->.
    by apply Hv.
  - apply exec_bind in H as [(e & (-> & [= ->] & ->) & ->)
                            |(? & ? & t1 & t2 & (_ & ? & _) & _)]; [|done].
    split; [done|]. eexists _, []. split; [done|]. split; [constructor|].
    split; [done|]. by intros v [He _]%Forall_cons.
Qed.

Lemma exec_fetch url d opts w tr out w' :
  exec (fetch url d opts) w tr out w' →
  w' = w ∧
  ((∃ e, tr = [Ev (Mkdir d) (inl e)] ∧ out = inl e) ∨
   (∃ e, tr = [Ev (Mkdir d) (inr ()); Ev (YdlOpen opts) (inl e)] ∧
         out = inl (Exn PlainException (error_downloading url e))) ∨
   (∃ y t1 out1 rx,
      tr = Ev (Mkdir d) (inr ()) :: Ev (YdlOpen opts) (inr y) :: t1
             ++ [Ev (YdlExit y) rx] ∧
      exec (resolve_output y url d) w t1 out1 w ∧
      out = match rx, out1 with
            | inl e, _ | inr _, inl e =>
                inl (Exn PlainException (error_downloading url e))
            | inr _, inr p => inr p
            end)).
Proof.
  unfold fetch. intros H.
  apply exec_bind in H as [(e & [Hs ->]%exec_call & ->)
                          |([] & w1 & tr1 & tr2 & [Hs ->]%exec_call & H & ->)];
    simpl in Hs; subst; [split; [done|]; left; eauto|].
  assert (Hin : ∀ t o w2,
    exec (bind (call (YdlOpen opts)) (λ y,
            finally (resolve_output y url d) (call (YdlExit y)))) w t o w2 →
    w2 = w ∧
    ((∃ e, t = [Ev (YdlOpen opts) (inl e)] ∧ o = inl e) ∨
     (∃ y t1 out1 rx, t = Ev (YdlOpen opts) (inr y) :: t1 ++ [Ev (YdlExit y) rx] ∧
        exec (resolve_output y url d) w t1 out1 w ∧
        o = match rx with inl e => inl e | inr _ => out1 end))).
  { intros t o w2 Hi.
    apply exec_bind in Hi as [(e & [Hs ->]%exec_call & ->)
                             |(y & w1 & t1 & t2 & [Hs ->]%exec_call & Hi & ->)];
      simpl in Hs; subst; [split; [done|]; left; eauto|].
    apply exec_finally in Hi as (out1 & w1 & t1 & t3 & rx & Hr & [Hs ->]%exec_call & -> & ->).
    simpl in Hs. pose proof Hr as (-> & _)%exec_resolve_output. subst.
    split; [done|]. right. exists y, t1, out1, rx. done. }
  apply exec_try_except in H as [(p & H & ->)
                                |(e & w1 & t1 & t2 & H & (-> & -> & ->) & ->)];
    apply Hin in H as (-> & [(e' & -> & ?)|(y & t3 & out1 & rx & -> & Hr & Ho)]);
    simplify_eq; (split; [done|]).
  - right; right. exists y, t3, out1, rx. split; [done|]. split; [done|].
    destruct rx; [done|]. by rewrite <- Ho.
  - right; left. eauto.
  - right; right. exists y, t3, out1, rx. rewrite app_nil_r.
    split; [done|]. split; [done|]. destruct rx; [congruence|]. by rewrite <- Ho.
Qed.

(** What is left of [yt_downloader] once the arguments are validated. *)
Lemma yt_downloader_cases url target_dir only_audio quality title :
  (∃ e, yt_downloader url target_dir only_audio quality title = Raise e) ∨
  (∃ s d, url = VStr s ∧ strip s ≠ [] ∧ target_dir = VStr d ∧
     yt_downloader url target_dir only_audio quality title =
     fetch url (MkPath d)
       (_prepare_download_options (MkPath d) only_audio quality title)).
Proof.
  unfold yt_downloader. prog_unfold.
  destruct url as [|[]|z|s]; simpl; eauto.
  - destruct (z =? 0); simpl; eauto.
  - destruct s as [|c s]; simpl; eauto.
    destruct (strip (c :: s)) as [|c' s'] eqn:Hs; simpl; eauto.
    destruct target_dir as [| | |d]; simpl; eauto.
    right. exists (c :: s), d. rewrite Hs. done.
Qed.

Lemma yt_downloader_valid s d only_audio quality title :
  strip s ≠ [] →
  yt_downloader (VStr s) (VStr d) only_audio quality title =
  fetch (VStr s) (MkPath d)
    (_prepare_download_options (MkPath d) only_audio quality title).
Proof.
  intros Hs. unfold yt_downloader. prog_unfold.
  destruct s as [|c s]; [done|]. simpl.
  destruct (strip (c :: s)); done.
Qed.

Lemma fs_calls_no_provider_error rest :
  Forall (λ ev, is_fs_kind (kind_of ev) = true) rest → provider_errors rest = [].
Proof.
  unfold provider_errors. induction 1 as [|[A o r] rest Hk _ IH]; [done|].
  destruct o; try done; simpl; exact IH.
Qed.

Lemma not_in_calls k tr : Forall (λ ev, kind_of ev ≠ k) tr → k ∉ calls tr.
Proof.
  unfold calls. intros H (ev & -> & Hev)%list_elem_of_fmap.
  by eapply Forall_forall in H.
Qed.

(** C4: the output path is resolved by trying (1) the files the provider
    reports, (2) the listing of the target directory, (3) the nominal file
    name checked for existence, the first non-empty result being the
    candidates; the adapter returns a most recently modified candidate; when
    the provider reports files neither the directory listing nor the
    existence check is consulted (and the existence check is not consulted
    when the listing is non-empty). Stated for a fetch whose calls succeed
    with the answers of view [v]; such a run exists and every such run
    returns. *)
Theorem output_resolution_order (v : fs_view) (s d : pystr)
    (only_audio quality title : pyval) (w : world) :
  strip s ≠ [] →
  resolution_candidates v (MkPath d) ≠ [] →
  (∃ tr out w',
     exec (yt_downloader (VStr s) (VStr d) only_audio quality title) w tr out w' ∧
     Forall (agrees v) tr) ∧
  ∀ tr out w',
    exec (yt_downloader (VStr s) (VStr d) only_audio quality title) w tr out w' →
    Forall (agrees v) tr →
    ∃ p, out = inr p ∧
      most_recent v (resolution_candidates v (MkPath d)) p ∧
      (reported_files (provider_info v) ≠ [] →
       (KGlob ∉ calls tr) ∧ (KExists ∉ calls tr)) ∧
      (listing v (MkPath d) ≠ [] → KExists ∉ calls tr).
Proof.
  intros Hs Hc. split.
  { eexists _, _, _. split; [apply (interp_exec (answer_of v)), answer_of_valid|].
    apply interp_agrees. }
  intros tr out w'. rewrite yt_downloader_valid by done.
  intros (-> & [(e & -> & _)|[(e & -> & _)|(y & t1 & out1 & rx & -> & Hr & ->)]])%exec_fetch Hv.
  - by apply Forall_cons in Hv as [? _].
  - by apply Forall_cons in Hv as [_ [? _]%Forall_cons].
  - apply Forall_cons in Hv as [_ [_ [Ht1 [Hx _]%Forall_cons]%Forall_app]%Forall_cons].
    simpl in Hx. subst rx.
    apply exec_resolve_output in Hr as (_ & r & rest & -> & Hk & _ & Hres).
    destruct (Hres v Ht1) as (Hout & Hrep & Hlist).
    destruct (resolution_candidates v (MkPath d)) as [|c cs] eqn:Hcands; [done|].
    destruct Hout as (p & -> & Hp). exists p. split; [done|]. split; [done|].
    assert (Hno : ∀ k, Forall (λ ev, kind_of ev ≠ k) rest →
              k ≠ KMkdir → k ≠ KYdlOpen → k ≠ KExtractInfo → k ≠ KYdlExit →
              k ∉ calls (Ev (Mkdir (MkPath d)) (inr ())
                 :: Ev (YdlOpen (_prepare_download_options (MkPath d) only_audio quality title)) (inr y)
                 :: (Ev (ExtractInfo y (VStr s)) r :: rest) ++ [Ev (YdlExit y) (inr ())])).
    { intros k Hrest ? ? ? ?. apply not_in_calls. simpl.
      repeat (apply Forall_cons_2; [done|]). apply Forall_app. split; [done|].
      by apply Forall_cons_2. }
    split.
    + intros Hne. specialize (Hrep Hne).
      split; apply Hno; try done; eapply Forall_impl; try exact Hrep;
        by intros ev ->.
    + intros Hne. apply Hno; try done. by apply Hlist.
Qed.

(** C5: when the three resolution strategies yield no candidate the fetch
    fails with the "No files were downloaded" error, and whenever a call
    into the provider raises, the fetch fails with an error whose message
    is "Error downloading <url>: <str of the provider's error>" (of the last
    error, when [__exit__] raises after [extract_info] did): no provider
    error is swallowed. *)
Theorem fetch_errors_are_reported (url target_dir only_audio quality title : pyval)
    (w : world) (tr : list event) (out : exn + Path) (w' : world) :
  exec (yt_downloader url target_dir only_audio quality title) w tr out w' →
  (∀ e, last (provider_errors tr) = Some e →
     out = inl (Exn PlainException
             (lit "Error downloading " ++ py_str url ++ lit ": " ++ exn_str e))) ∧
  (∀ v s d, url = VStr s → strip s ≠ [] → target_dir = VStr d →
     resolution_candidates v (MkPath d) = [] → Forall (agrees v) tr →
     out = inl (Exn PlainException
             (lit "Error downloading " ++ s ++ lit ": No files were downloaded"))).
Proof.
  intros H. split.
  - intros e He.
    destruct (yt_downloader_cases url target_dir only_audio quality title)
      as [(e0 & Heq)|(s & d & -> & Hs & -> & Heq)]; rewrite Heq in H.
    { destruct H as (-> & _). done. }
    apply exec_fetch in H
      as (-> & [(e1 & -> & _)|[(e1 & -> & ->)|(y & t1 & out1 & rx & -> & Hr & ->)]]).
    + done.
    + by injection He as ->.
    + apply exec_resolve_output in Hr as (_ & r & rest & -> & Hk & Hraise & _).
      apply fs_calls_no_provider_error in Hk.
      unfold provider_errors in *. simpl in He.
      rewrite omap_app, Hk in He. simpl in He.
      destruct rx as [e2|[]]; simpl in He.
      * destruct r; simpl in He; by injection He as ->.
      * destruct r as [e1|oi]; simpl in He; [|done].
        injection He as ->. by rewrite (Hraise e).
  - intros v s d -> Hs -> Hc Hv. rewrite yt_downloader_valid in H by done.
    apply exec_fetch in H
      as (-> & [(e & -> & _)|[(e & -> & _)|(y & t1 & out1 & rx & -> & Hr & ->)]]).
    + by apply Forall_cons in Hv as [? _].
    + by apply Forall_cons in Hv as [_ [? _]%Forall_cons].
    + apply Forall_cons in Hv as [_ [_ [Ht1 [Hx _]%Forall_cons]%Forall_app]%Forall_cons].
      simpl in Hx. subst rx.
      apply exec_resolve_output in Hr as (_ & r & rest & -> & _ & _ & Hres).
      destruct (Hres v Ht1) as (Hout & _). rewrite Hc in Hout. by subst out1.
Qed.

Lemma output_resolution_order_witness :
  strip sample_url ≠ [] ∧
  resolution_candidates view_reported (MkPath sample_dir) ≠ [] ∧
  (interp (answer_of view_reported) sample_fetch no_log).1.2
    = inr (MkPath (lit "/d/x.mp3")) ∧
  KGlob ∉ calls (interp (answer_of view_reported) sample_fetch no_log).1.1.
Proof.
  assert (Hs : strip sample_url ≠ []) by (vm_compute; discriminate).
  assert (Hc : resolution_candidates view_reported (MkPath sample_dir) ≠ [])
    by (vm_compute; discriminate).
  split; [exact Hs|]. split; [exact Hc|].
  destruct (output_resolution_order view_reported sample_url sample_dir
              (VBool true) (VStr (lit "highest")) VNone no_log Hs Hc) as [_ Hall].
  destruct (Hall _ _ _
              (interp_exec (answer_of view_reported) sample_fetch no_log
                 (answer_of_valid view_reported))
              (interp_agrees view_reported sample_fetch no_log))
    as (p & Hout & [Hp _] & Hrep & _).
  split.
  - rewrite Hout. f_equal. vm_compute in Hp.
    by apply list_elem_of_singleton in Hp.
  - apply Hrep. vm_compute. discriminate.
Defined.

Lemma fetch_errors_are_reported_witness :
  (interp (provider_raising (Exn ProviderError (lit "HTTP Error 404")) view_empty)
     sample_fetch no_log).1.2
    = inl (Exn PlainException
        (lit "Error downloading https://youtu.be/dQw4w9WgXcQ: HTTP Error 404")) ∧
  (interp (answer_of view_empty) sample_fetch no_log).1.2
    = inl (Exn PlainException
        (lit "Error downloading https://youtu.be/dQw4w9WgXcQ: No files were downloaded")).
Proof.
  split.
  - rewrite (proj1 (fetch_errors_are_reported (VStr sample_url) (VStr sample_dir)
               (VBool true) (VStr (lit "highest")) VNone no_log _ _ _
               (interp_exec _ sample_fetch no_log
                  (provider_raising_valid (Exn ProviderError (lit "HTTP Error 404")) view_empty)))
               (Exn ProviderError (lit "HTTP Error 404"))); [reflexivity|].
    vm_compute. reflexivity.
  - rewrite (proj2 (fetch_errors_are_reported (VStr sample_url) (VStr sample_dir)
               (VBool true) (VStr (lit "highest")) VNone no_log _ _ _
               (interp_exec _ sample_fetch no_log (answer_of_valid view_empty)))
               view_empty sample_url sample_dir); try reflexivity.
    + vm_compute. discriminate.
    + apply interp_agrees.
Defined.

(** ** The worker function *)

Lemma exec_yt_downloader_no_log url td oa q ti w tr out w' :
  exec (yt_downloader url td oa q ti) w tr out w' →
  w' = w ∧ Forall (λ ev, is_log_call ev = false) tr.
Proof.
  destruct (yt_downloader_cases url td oa q ti) as [(e & ->)|(s & d & _ & _ & _ & ->)].
  { by intros (-> & _ & ->). }
  intros (-> & [(e & -> & _)|[(e & -> & _)|(y & t1 & out1 & rx & -> & Hr & _)]])%exec_fetch;
    (split; [done|]).
  - by repeat constructor.
  - by repeat constructor.
  - apply exec_resolve_output in Hr as (_ & r & rest & -> & Hk & _).
    repeat (apply Forall_cons_2; [done|]). apply Forall_app. split.
    + eapply Forall_impl; [exact Hk|]. intros [A o a] Ho. by destruct o.
    + by repeat constructor.
Qed.



(** A run of the append, alone: either the whole line reaches the file and
    no call failed, or the append raises its last error and the file is as
    before. *)
Lemma exec_append_progress line w tr out w' :
  exec (append_progress line) w tr out w' →
  match out with
  | inr _ => log_errors tr = [] ∧ log_content w' = log_content w ++ line
  | inl e => last (log_errors tr) = Some e ∧ log_content w' = log_content w
  end.
Proof.
  unfold append_progress. prog_unfold. intros H.
  apply exec_bind in H as [(e & [Hs ->]%exec_call & ->)
                          |(f & w1 & tr1 & tr2 & [Hs ->]%exec_call & H & ->)];
    simpl in Hs; [by subst|]. destruct Hs as [Hfresh ->].
  apply exec_finally in H
    as (out1 & w1 & t1 & t2 & outf & [Hs1 ->]%exec_call & [Hs2 ->]%exec_call & -> & ->).
  simpl in Hs1, Hs2.
  destruct out1 as [e1|[]]; [subst w1|destruct Hs1 as (buf & Hbuf & [->| ->])];
    simpl in *; rewrite lookup_insert_eq in *.
  - destruct outf as [e2|[]]; [by destruct Hs2 as [_ ->]|].
    destruct Hs2 as (buf & [= <-] & ->). simpl. by rewrite app_nil_r.
  - injection Hbuf as <-.
    destruct outf as [e2|[]]; [by destruct Hs2 as [_ ->]|].
    by destruct Hs2 as (buf & [= <-] & ->).
  - injection Hbuf as <-.
    destruct outf as [e2|[]]; [by destruct Hs2 as [Hs2 _]|].
    destruct Hs2 as (buf & [= <-] & ->). simpl. by rewrite app_nil_r.
Qed.

(** The worker function on a task that has a url. *)
Lemma download_task_eq (t : task) (u : pyval) :
  t !! "url" = Some u →
  download_task t =
  try_except
    (bind (yt_downloader u
             (get t "target_dir" (VStr (lit "./downloads")))
             (get t "only_audio" (VBool true))
             (get t "quality" (VStr (lit "highest")))
             (get t "title" VNone)) (λ path,
     bind (append_progress (py_str u ++ newline)) (λ _, Ret (Success u path))))
    (λ e, Ret (Failure u (exn_str e))).
Proof. intros Hu. unfold download_task, getitem. by rewrite Hu. Qed.

Lemma exec_download_task (t : task) (u : pyval) w tr out w' :
  t !! "url" = Some u →
  exec (download_task t) w tr out w' →
  ∃ tr1 out1 tr2,
    tr = tr1 ++ tr2 ∧
    exec (yt_downloader u
            (get t "target_dir" (VStr (lit "./downloads")))
            (get t "only_audio" (VBool true))
            (get t "quality" (VStr (lit "highest")))
            (get t "title" VNone)) w tr1 out1 w ∧
    match out1 with
    | inl e => tr2 = [] ∧ out = inr (Failure u (exn_str e)) ∧ w' = w
    | inr path => ∃ out2,
        exec (append_progress (py_str u ++ newline)) w tr2 out2 w' ∧
        out = inr (match out2 with
                   | inr _ => Success u path
                   | inl e => Failure u (exn_str e)
                   end)
    end.
Proof.
  intros Hu. rewrite (download_task_eq t u Hu). intros H.
  apply exec_try_except in H as [(r & H & ->)|(e & w1 & t1 & t2 & H & (-> & -> & ->) & ->)].
  - apply exec_bind in H as [(? & _ & ?)|(path & w1 & t1 & t2 & H1 & H2 & ->)]; [done|].
    pose proof H1 as [-> _]%exec_yt_downloader_no_log.
    apply exec_bind in H2 as [(? & _ & ?)|([] & w2 & t3 & t4 & H2 & (-> & [= ->] & ->) & ->)];
      [done|].
    exists t1, (inr path), (t3 ++ []). split; [done|]. split; [done|].
    exists (inr ()). by rewrite app_nil_r.
  - rewrite app_nil_r.
    apply exec_bind in H as [(e' & H & [= ->])|(path & w2 & t3 & t4 & H1 & H2 & ->)].
    + pose proof H as [-> _]%exec_yt_downloader_no_log.
      eexists t1, (inl _), []. by rewrite app_nil_r.
    + pose proof H1 as [-> _]%exec_yt_downloader_no_log.
      apply exec_bind in H2 as [(e' & H2 & [= ->])|(? & ? & ? & ? & _ & (_ & ? & _) & _)];
        [|done].
      exists t3, (inr path), t4. split; [done|]. split; [done|].
      by eexists (inl _).
Qed.



(** ** Task source *)

Lemma comprehension_total {A B : Type} (f : A → B) (l : list A) :
  comprehension (λ x, inr (f x)) l = inr (f <$> l).
Proof. induction l as [|x l IH]; simpl; [done|]. by rewrite IH. Qed.

Lemma comprehension_fails {A B : Type} (e : exn) (l : list A) :
  l ≠ [] → comprehension (λ _, inl e : exn + B) l = inl e.
Proof. by destruct l. Qed.

(** The outcome of [_unified_download_tasks] on a mapping: without a url
    the defaults are never unpacked. *)
Lemma unified_tasks_mapping (c : config) :
  _unified_download_tasks (DocDict c) =
  match py_iter (get_urls c), py_unpack (get_defaults c) with
  | inl e, _ => Raise e
  | inr [], _ => Ret []
  | inr (_ :: _), inl e => Raise e
  | inr urls, inr d => Ret ((λ url, <["url" := url]> d) <$> urls)
  end.
Proof.
  simpl. destruct (py_iter (get_urls c)) as [e|urls]; [done|].
  destruct (py_unpack (get_defaults c)) as [e|d].
  - destruct urls as [|u urls]; [done|].
    by rewrite (comprehension_fails (B := task) e (u :: urls)).
  - rewrite (comprehension_total (λ url, <["url" := url]> d)).
    by destruct urls.
Qed.

Lemma py_iter_iterable (n : node) :
  if iterable n then ∃ l, py_iter n = inr l
  else ∃ e, py_iter n = inl e ∧ exn_cls e = TypeError.
Proof. destruct n as [items|l|[]]; simpl; eauto. Qed.

Lemma py_unpack_mapping (n : node) :
  if is_mapping n then ∃ d, py_unpack n = inr d
  else ∃ e, py_unpack n = inl e ∧ exn_cls e = TypeError.
Proof. destruct n as [items|l|v]; simpl; eauto. Qed.

(** [_unified_download_tasks] makes no call; it raises on the unusable
    documents and on no other. *)
Lemma exec_unified_download_tasks (doc : document) w tr out w' :
  exec (_unified_download_tasks doc) w tr out w' →
  tr = [] ∧ w' = w ∧
  if unusable doc
  then ∃ e, out = inl e ∧ (exn_cls e = AttributeError ∨ exn_cls e = TypeError)
  else ∃ tasks, out = inr tasks.
Proof.
  destruct doc as [c|l|v];
    [|simpl; intros (-> & -> & ->); split; [done|]; split; [done|]; eauto..].
  rewrite unified_tasks_mapping. unfold unusable, has_members.
  pose proof (py_iter_iterable (get_urls c)) as Hi.
  pose proof (py_unpack_mapping (get_defaults c)) as Hm.
  destruct (iterable (get_urls c)).
  - destruct Hi as [urls ->].
    destruct (is_mapping (get_defaults c)).
    + destruct Hm as [d ->].
      destruct urls; simpl; intros (-> & -> & ->); eauto.
    + destruct Hm as (e & -> & He).
      destruct urls; simpl; intros (-> & -> & ->); eauto 6.
  - destruct Hi as (e & -> & He). simpl. intros (-> & -> & ->). eauto 6.
Qed.

(** What a loader does: it loads, and either prints the error of the load
    and returns the empty list, or runs [_unified_download_tasks] on the
    parsed document. *)
Lemma exec_loader (yaml : bool) (config_file : pystr) w tr out w' :
  exec (if yaml then get_download_tasks_from_yaml config_file
        else get_download_tasks_from_json config_file) w tr out w' →
  (∃ e, load_error tr = Some e ∧ out = inr [] ∧ w' = w ∧
        calls tr = [if yaml then KLoadYaml else KLoadJson; KPrint]) ∨
  (∃ doc tr', loaded_document tr = Some doc ∧
        calls tr = (if yaml then KLoadYaml else KLoadJson) :: calls tr' ∧
        omap printed_by tr = omap printed_by tr' ∧
        exec (_unified_download_tasks doc) w tr' out w').
Proof.
  destruct yaml; simpl; intros (r & w1 & tr1 & -> & -> & H);
    destruct r as [e|doc].
  - left. exists e. by destruct H as ([] & w2 & tr2 & -> & -> & -> & -> & ->).
  - right. by exists doc, tr1.
  - left. exists e. by destruct H as ([] & w2 & tr2 & -> & -> & -> & -> & ->).
  - right. by exists doc, tr1.
Qed.

Lemma loading_valid (doc : document) (v : fs_view) : valid_oracle (loading doc v).
Proof.
  intros w A o. pose proof (answer_of_valid v w A o) as H.
  unfold loading. by destruct o.
Qed.

(** C7 (the code departs from the claim): the loaders handle a failure of
    the load itself and nothing else. A run of
    [get_download_tasks_from_json] or [get_download_tasks_from_yaml]
    leaves the progress log alone and is of one of two kinds. Either the
    load fails (the file cannot be opened or read, or the parser rejects
    it): then the error is printed and the empty list returned. Or the
    file parses: then nothing is printed and [_unified_download_tasks]
    runs on the parsed document outside the [try]; on an unusable document
    (not a mapping, ["urls"] that cannot be iterated, ["defaults"] that
    are not a mapping while there is a url) its [AttributeError] or
    [TypeError] leaves the loader, and on every other document the loader
    returns the tasks. *)
Theorem malformed_document_raises (yaml : bool) (config_file : pystr)
    (w : world) (tr : list event) (out : exn + list task) (w' : world) :
  exec (if yaml then get_download_tasks_from_yaml config_file
        else get_download_tasks_from_json config_file) w tr out w' →
  w' = w ∧
  ((∃ e, load_error tr = Some e ∧
      calls tr = [if yaml then KLoadYaml else KLoadJson; KPrint] ∧
      out = inr []) ∨
   (∃ doc, loaded_document tr = Some doc ∧
      calls tr = [if yaml then KLoadYaml else KLoadJson] ∧
      if unusable doc
      then ∃ e, out = inl e ∧ (exn_cls e = AttributeError ∨ exn_cls e = TypeError)
      else ∃ tasks, out = inr tasks)).
Proof.
  intros [(e & He & -> & -> & Hc)|(doc & tr' & Hd & Hc & _ & H)]%exec_loader.
  - split; [done|]. left. by exists e.
  - apply exec_unified_download_tasks in H as (-> & -> & H).
    split; [done|]. right. by exists doc.
Qed.

Lemma malformed_document_raises_witness :
  unusable (DocDict config_null_urls) = true ∧
  unusable (DocScalar VNone) = true ∧
  (∃ e, (interp (loading (DocDict config_null_urls) view_empty)
           (get_download_tasks_from_json (lit "configuration.json")) no_log).1.2
        = inl e ∧ (exn_cls e = AttributeError ∨ exn_cls e = TypeError)) ∧
  (∃ e, (interp (loading (DocScalar VNone) view_empty)
           (get_download_tasks_from_yaml (lit "configuration.yaml")) no_log).1.2
        = inl e ∧ (exn_cls e = AttributeError ∨ exn_cls e = TypeError)).
Proof.
  split; [reflexivity|]. split; [reflexivity|]. split.
  - destruct (malformed_document_raises false (lit "configuration.json") no_log
                _ _ _ (interp_exec _ _ no_log
                         (loading_valid (DocDict config_null_urls) view_empty)))
      as [_ [(e & He & _)|(doc & Hd & _ & H)]]; [discriminate He|].
    injection Hd as <-. exact H.
  - destruct (malformed_document_raises true (lit "configuration.yaml") no_log
                _ _ _ (interp_exec _ _ no_log
                         (loading_valid (DocScalar VNone) view_empty)))
      as [_ [(e & He & _)|(doc & Hd & _ & H)]]; [discriminate He|].
    injection Hd as <-. exact H.
Defined.

(** The documents of the witness end as Python ends on them. *)
Example null_urls_document_raises :
  (interp (loading (DocDict config_null_urls) view_empty)
     (get_download_tasks_from_json (lit "configuration.json")) no_log).1.2
  = inl (Exn TypeError (lit "'NoneType' object is not iterable")).
Proof. reflexivity. Qed.

Example bad_defaults_document_raises :
  (interp (loading (DocDict config_bad_defaults) view_empty)
     (get_download_tasks_from_json (lit "configuration.json")) no_log).1.2
  = inl (Exn TypeError (lit "'int' object is not a mapping")).
Proof. reflexivity. Qed.

(** A configuration without [defaults] yields one task per url, with the
    fallback defaults. *)
Example unified_tasks_fallback :
  _unified_download_tasks
    (DocDict (MkConfig None (Some (NSeq [VStr (lit "a"); VStr (lit "b")]))))
  = Ret [ <["url" := VStr (lit "a")]> task_defaults;
          <["url" := VStr (lit "b")]> task_defaults ].
Proof. reflexivity. Qed.

(** A document that parses but is not a mapping (an empty YAML file loads
    as [None]) is not a load failure: [_unified_download_tasks] runs outside
    the [try] block and its [AttributeError] leaves the function. *)
Example empty_yaml_document_raises (config_file : pystr) (w : world) :
  exec (get_download_tasks_from_yaml config_file) w
    [Ev (LoadYaml config_file) (inr (DocScalar VNone))]
    (inl (no_get (lit "NoneType"))) w.
Proof. simpl. eexists _, _, _. split; [reflexivity|]. done. Qed.

(** ** Orchestrator *)

(** C6 (the code departs from the claim): a task without [only_audio] is
    fetched in audio mode. The worker passes [only_audio=True], so the
    provider is opened with the audio options, not with the documented
    default [false]. *)
Theorem missing_only_audio_defaults_to_true :
  task_url_only !! "only_audio" = None ∧
  get task_url_only "only_audio" (VBool true) = VBool true ∧
  opened_with (interp (answer_of view_reported)
                 (download_task task_url_only) no_log).1.1
    = [_prepare_download_options (MkPath (lit "./downloads"))
         (VBool true) (VStr (lit "highest")) VNone] ∧
  (extract_audio <$> opened_with (interp (answer_of view_reported)
                                    (download_task task_url_only) no_log).1.1)
    = [Some true] ∧
  _prepare_download_options (MkPath (lit "./downloads"))
    (VBool true) (VStr (lit "highest")) VNone
  ≠ _prepare_download_options (MkPath (lit "./downloads"))
      (VBool false) (VStr (lit "highest")) VNone.
Proof.
  split; [done|]. split; [done|]. split; [by vm_compute|].
  split; [by vm_compute|]. intros H. by apply (f_equal extract_audio) in H.
Qed.

(** C1 (the code departs from the claim): on the empty task list the
    effective number of workers is [min(10, 0) = 0], the executor's
    constructor raises [ValueError], and [run_download_tasks] raises instead
    of returning the empty result list. *)
Theorem empty_batch_raises (w : world) (out : exn + list Result) (w' : world) :
  run_download_tasks [] 10 w out w' ↔
  out = inl (Exn ValueError (lit "max_workers must be greater than 0")) ∧ w' = w.
Proof.
  split.
  - inversion 1 as [e He|n st results He|n st e He]; simplify_eq; [|done..].
    vm_compute in He. by injection He as <-.
  - intros [-> ->]. by constructor.
Qed.

(** ** The thread pool *)

Lemma pool_ok_submitted tasks w : pool_ok tasks (submitted tasks w).
Proof.
  unfold pool_ok, submitted. simpl. induction tasks; constructor; done.
Qed.

Lemma pool_ok_update tasks st i t s' w' c :
  pool_ok tasks st → tasks !! i = Some t → slot_ok t s' →
  pool_ok tasks (MkPool (<[i := s']> (slots st)) w' c).
Proof.
  unfold pool_ok. simpl. intros H Ht Hs.
  rewrite <- (list_insert_id tasks i t Ht). by apply Forall2_insert.
Qed.

Lemma pool_ok_step workers tasks st st' :
  pool_ok tasks st → pool_step workers st st' → pool_ok tasks st'.
Proof.
  intros Hok Hstep.
  assert (Hget : ∀ i s, slots st !! i = Some s →
            ∃ t, tasks !! i = Some t ∧ slot_ok t s).
  { intros i s Hs. eapply Forall2_lookup_r in Hok as (t & ? & ?); eauto. }
  destruct Hstep as [st i t _ Hi _ _|st i A o k r w1 Hi _|st i r Hi|st i e Hi|st i e _ _ _].
  - apply Hget in Hi as (t' & Ht & Hs). simpl in Hs. subst t'.
    eapply pool_ok_update; [done..|]. by intros out.
  - apply Hget in Hi as (t & Ht & Hs). simpl in Hs.
    eapply pool_ok_update; [done..|]. intros out Ho. apply Hs. by econstructor.
  - apply Hget in Hi as (t & Ht & Hs). simpl in Hs.
    eapply pool_ok_update; [done..|]. apply Hs. constructor.
  - apply Hget in Hi as (t & Ht & Hs). simpl in Hs.
    eapply pool_ok_update; [done..|]. apply Hs. constructor.
  - done.
Qed.

Lemma pool_ok_reachable workers tasks w st :
  rtc (pool_step workers) (submitted tasks w) st → pool_ok tasks st.
Proof.
  intros H. revert st H.
  apply (rtc_ind_r (R := pool_step workers) (pool_ok tasks)).
  - apply pool_ok_submitted.
  - intros st1 st2 _ Hs Hok. by eapply pool_ok_step.
Qed.

(** When every task has a url, no worker raises, so the consumer of
    [executor.map] never meets an exception. *)
Lemma never_raised workers tasks w st :
  Forall (λ t : task, is_Some (t !! "url")) tasks →
  rtc (pool_step workers) (submitted tasks w) st → raised st = None.
Proof.
  intros Hurl H.
  revert st H.
  apply (rtc_ind_r (R := pool_step workers) (λ st, raised st = None)); [done|].
  intros st1 st2 Hr Hs Hnone.
  destruct Hs as [| | | |st1 i e _ _ Hi]; try done.
  apply pool_ok_reachable in Hr.
  eapply Forall2_lookup_r in Hr as (t & Ht & Hs); [|done]. simpl in Hs.
  destruct (Forall_lookup_1 _ _ _ _ Hurl Ht) as [u Hu].
  destruct (download_task_ends t u _ Hu Hs) as (r & ? & _). done.
Qed.

(** The results of a completed pool are, position by position, results of
    the worker function on the submitted tasks. *)
Lemma results_of_tasks tasks (results : list Result) st :
  pool_ok tasks st → slots st = (λ r, Done (inr r)) <$> results →
  Forall2 (λ t r, ends (download_task t) (inr r)) tasks results.
Proof.
  unfold pool_ok. intros H Hs. rewrite Hs in H.
  by rewrite Forall2_fmap_r in H.
Qed.

(** *** Termination *)

Lemma slot_sn (s : slot) : sn slot_next s.
Proof.
  assert (Hdone : ∀ out, sn slot_next (Done out)).
  { intros out. constructor. intros s' Hs. inversion Hs. }
  assert (Hrun : ∀ p, sn slot_next (Running p)).
  { induction p as [r|e|A o k IH]; constructor; intros s' Hs; simpl in Hs.
    - inversion Hs; subst. apply Hdone.
    - inversion Hs; subst. apply Hdone.
    - refine (match Hs in slot_next s1 s2 return
                match s1 with
                | Running (Do o' k') => (∀ r, sn slot_next (Running (k' r))) → sn slot_next s2
                | _ => True
                end
              with
              | next_start _ _ => I
              | next_call _ _ r => λ H, H r
              | next_done p _ => match p with Do _ _ => λ _, Hdone _ | _ => I end
              end IH). }
  destruct s as [t|p|out]; [|apply Hrun|apply Hdone].
  constructor. intros s' Hs. inversion Hs; subst. apply Hrun.
Qed.

Lemma slots_sn (l : list slot) : sn slots_next l.
Proof.
  induction l as [|s l IH].
  { constructor. intros l' (i & s & s' & Hi & _). done. }
  pose proof (slot_sn s) as Hs. revert l IH.
  induction Hs as [s _ IHs]. intros l Hl.
  induction Hl as [l Hl IHl].
  constructor. intros l' (i & s1 & s2 & Hi & Hn & ->). simpl in *.
  destruct i as [|i]; simpl in *.
  - injection Hi as ->. apply IHs; [done|]. by constructor.
  - apply IHl. by exists i, s1, s2.
Qed.

Lemma pool_step_slots workers st st' :
  pool_step workers st st' →
  slots_next (slots st) (slots st') ∨
  (slots st' = slots st ∧ raised st = None ∧ is_Some (raised st')).
Proof.
  destruct 1 as [st i t _ Hi _ _|st i A o k r w1 Hi _|st i r Hi|st i e Hi|st i e Hn _ _];
    simpl; [left; eexists i, _, _; split; [done|]; split; [constructor|done]..|].
  right. eauto.
Qed.

(** Every run of the pool is finite, whatever the schedule and the
    environment do. *)
Lemma pool_sn workers (st : pool) : sn (pool_step workers) st.
Proof.
  destruct st as [l w c]. pose proof (slots_sn l) as Hl. revert w c.
  induction Hl as [l _ IH]. intros w c.
  assert (Hsome : ∀ w e, sn (pool_step workers) (MkPool l w (Some e))).
  { intros w1 e. constructor. intros [l' w' c'] Hstep%pool_step_slots.
    simpl in *. destruct Hstep as [Hn|(_ & ? & _)]; [by apply IH|done]. }
  constructor. intros [l' w' c'] Hstep%pool_step_slots.
  simpl in *. destruct Hstep as [Hn|(-> & _ & [e ->])]; [by apply IH|apply Hsome].
Qed.

(** *** Progress *)

Lemma env_can_answer {A} (o : op A) (w : world) : ∃ r w', env_step w o r w'.
Proof. eexists _, _. apply (answer_of_valid view_empty). Qed.

Lemma running_count_none (l : list slot) :
  Forall (λ s, is_running s = false) l → running_count l = 0%nat.
Proof.
  unfold running_count. induction 1 as [|s l Hs _ IH]; [done|].
  rewrite filter_cons. destruct (decide (is_running s = true)); [congruence|done].
Qed.

(** A pool with at least one worker that is not final can take a step. *)
Lemma pool_progress (workers : nat) (st : pool) :
  (0 < workers)%nat → pool_final st ∨ ∃ st', pool_step workers st st'.
Proof.
  intros Hw.
  destruct (decide (Exists (λ s, is_running s = true) (slots st))) as [Hrun|Hnorun].
  { (* a worker is running: it makes its next move *)
    right. apply Exists_exists in Hrun as (s & [i Hi]%list_elem_of_lookup & Hs).
    destruct s as [|p|]; try done. destruct p as [r|e|A o k].
    - eexists. by apply (step_return workers st i r).
    - eexists. by apply (step_raise workers st i e).
    - destruct (env_can_answer o (pworld st)) as (r & w' & Henv).
      eexists. by apply (step_call workers st i o k r w'). }
  apply not_Exists_Forall in Hnorun; [|solve_decision].
  assert (Hnr : Forall (λ s, is_running s = false) (slots st)).
  { eapply Forall_impl; [exact Hnorun|]. simpl. intros s. by destruct (is_running s). }
  unfold pool_final. destruct (raised st) as [e|] eqn:Hraised; [by left|].
  destruct (list_find (λ s, is_pending s = true) (slots st)) as [[i s]|] eqn:Hfind.
  { (* nobody runs and a task is queued: a worker picks the first one *)
    right. apply list_find_Some in Hfind as (Hi & Hs & Hfirst).
    destruct s as [t| |]; try done.
    eexists. apply (step_start workers st i t); [done..| |].
    - intros j s Hj Hjs. specialize (Hfirst j s Hjs Hj). by destruct (is_pending s).
    - by rewrite running_count_none. }
  apply list_find_None in Hfind.
  destruct (list_find (λ s, has_result s = false) (slots st)) as [[i s]|] eqn:Hbad.
  - (* every future is resolved and one holds an exception *)
    right. apply list_find_Some in Hbad as (Hi & Hs & Hfirst).
    assert (∃ e, s = Done (inl e)) as [e ->].
    { pose proof (Forall_lookup_1 _ _ _ _ Hfind Hi) as Hp.
      pose proof (Forall_lookup_1 _ _ _ _ Hnr Hi) as Hr.
      destruct s as [|p|[e|r]]; try done. eauto. }
    eexists. apply (step_cancel workers st i e); [done| |done].
    intros j Hj. destruct (lookup_lt_is_Some_2 (slots st) j) as [s Hjs].
    { apply lookup_lt_Some in Hi. lia. }
    specialize (Hfirst j s Hjs Hj).
    destruct s as [t|p|[e'|r]]; try done. eauto.
  - left. apply list_find_None in Hbad.
    eapply Forall_impl; [exact Hbad|]. simpl. intros s Hs.
    destruct s as [t|p|[e|r]]; try done. eauto.
Qed.

(** From every state the pool can run to a final state. *)
Lemma pool_completes (workers : nat) (st : pool) :
  (0 < workers)%nat →
  ∃ st', rtc (pool_step workers) st st' ∧ pool_final st'.
Proof.
  intros Hw. induction (pool_sn workers st) as [st _ IH].
  destruct (pool_progress workers st Hw) as [Hfin|[st1 Hstep]].
  - by exists st.
  - destruct (IH st1 Hstep) as (st' & Hrtc & Hfin). exists st'.
    split; [by eapply rtc_l|done].
Qed.

(** *** Batches of tasks that have a url *)

Lemma executor_created (tasks : list task) (max_workers : Z) :
  0 < max_workers → tasks ≠ [] →
  ∃ workers, (0 < workers)%nat ∧
    ThreadPoolExecutor (Z.min max_workers (Z.of_nat (length tasks))) = inr workers.
Proof.
  intros Hk Hne. unfold ThreadPoolExecutor.
  assert (0 < Z.min max_workers (Z.of_nat (length tasks))).
  { destruct tasks; [done|]. simpl. lia. }
  destruct (Z.leb_spec (Z.min max_workers (Z.of_nat (length tasks))) 0); [lia|].
  eexists. split; [|done]. lia.
Qed.

Lemma all_resolved (l : list slot) :
  Forall (λ s, ∃ r, s = Done (inr r)) l →
  ∃ results, l = (λ r, Done (inr r)) <$> results.
Proof.
  induction 1 as [|s l [r ->] _ [results ->]]; [by exists []|].
  by exists (r :: results).
Qed.

(** With at least one worker and a non-empty batch of tasks that all have a
    url, [run_download_tasks] can return, it cannot raise, and it returns,
    position by position, results of the worker function on the tasks. *)
Lemma run_returns (tasks : list task) (max_workers : Z) (w : world) :
  0 < max_workers → tasks ≠ [] →
  Forall (λ t : task, is_Some (t !! "url")) tasks →
  (∃ results w', run_download_tasks tasks max_workers w (inr results) w') ∧
  ∀ out w', run_download_tasks tasks max_workers w out w' →
    ∃ results, out = inr results ∧
      Forall2 (λ t r, ends (download_task t) (inr r)) tasks results.
Proof.
  intros Hk Hne Hurl.
  destruct (executor_created tasks max_workers Hk Hne) as (workers & Hw & Hex).
  split.
  - destruct (pool_completes workers (submitted tasks w) Hw) as (st & Hrtc & Hfin).
    unfold pool_final in Hfin.
    rewrite (never_raised workers tasks w st Hurl Hrtc) in Hfin.
    apply all_resolved in Hfin as [results Hres].
    exists results, (pworld st). eapply run_results; [done..| |done].
    by eapply never_raised.
  - intros out w'. inversion 1 as [e He|n st results He Hrtc Hr Hs|n st e He Hrtc Hr Hs];
      subst; [congruence| |].
    + exists results. split; [done|].
      eapply results_of_tasks; [|done]. by eapply pool_ok_reachable.
    + by rewrite (never_raised n tasks w st Hurl Hrtc) in Hr.
Qed.

(** C9: the results come back in input order: the i-th result carries the
    url of the i-th task. *)
Theorem results_in_input_order (tasks : list task) (max_workers : Z) (w : world) :
  0 < max_workers → tasks ≠ [] →
  Forall (λ t : task, is_Some (t !! "url")) tasks →
  (∃ results w', run_download_tasks tasks max_workers w (inr results) w') ∧
  ∀ out w', run_download_tasks tasks max_workers w out w' →
    ∃ results, out = inr results ∧ length results = length tasks ∧
      ∀ i t, tasks !! i = Some t → result_url <$> results !! i = t !! "url".
Proof.
  intros Hk Hne Hurl.
  destruct (run_returns tasks max_workers w Hk Hne Hurl) as [Hex Hall].
  split; [done|]. intros out w' Hrun.
  destruct (Hall out w' Hrun) as (results & -> & Hres).
  exists results. split; [done|]. split; [symmetry; by eapply Forall2_length|].
  intros i t Ht.
  destruct (Forall2_lookup_l _ _ _ _ _ Hres Ht) as (r & Hr & Hends).
  destruct (Forall_lookup_1 _ _ _ _ Hurl Ht) as [u Hu].
  destruct (download_task_ends t u _ Hu Hends) as (r' & [= <-] & Hru).
  by rewrite Hr, Hu, <- Hru.
Qed.

Lemma results_in_input_order_witness :
  0 < 10 ∧ sample_batch ≠ [] ∧
  Forall (λ t : task, is_Some (t !! "url")) sample_batch ∧
  ∃ results w',
    run_download_tasks sample_batch 10 no_log (inr results) w' ∧
    result_url <$> results = [VStr sample_url; VStr sample_url].
Proof.
  assert (Hk : 0 < 10) by lia.
  assert (Hne : sample_batch ≠ []) by discriminate.
  assert (Hurl : Forall (λ t : task, is_Some (t !! "url")) sample_batch).
  { repeat constructor; eexists; reflexivity. }
  split; [exact Hk|]. split; [exact Hne|]. split; [exact Hurl|].
  destruct (results_in_input_order sample_batch 10 no_log Hk Hne Hurl)
    as [(results & w' & Hrun) Hall].
  exists results, w'. split; [exact Hrun|].
  destruct (Hall _ _ Hrun) as (results' & [= <-] & Hlen & Hi).
  pose proof (Hi 0%nat sample_task eq_refl) as H0.
  pose proof (Hi 1%nat task_url_only eq_refl) as H1.
  destruct results as [|r0 [|r1 [|r2 results]]]; try discriminate Hlen.
  simpl in H0, H1. injection H0 as H0. injection H1 as H1.
  simpl. by rewrite H0, H1.
Defined.

(** C2: a task whose url is empty or whitespace-only gets a [Failure]
    result without any I/O: its worker makes no call at all (no directory
    is created, the provider is not invoked, the progress log is not
    touched); and in a batch every sibling task still gets a result of its
    own worker. *)
Theorem blank_url_fails_without_io (tasks : list task) (max_workers : Z)
    (w : world) (i : nat) (t : task) (s : pystr) :
  0 < max_workers →
  Forall (λ t : task, is_Some (t !! "url")) tasks →
  tasks !! i = Some t →
  t !! "url" = Some (VStr s) →
  whitespace_only s →
  (∀ w0 tr out w1, exec (download_task t) w0 tr out w1 →
     tr = [] ∧ out = inr (Failure (VStr s) (lit "URL cannot be empty")) ∧ w1 = w0) ∧
  (∃ results w', run_download_tasks tasks max_workers w (inr results) w') ∧
  ∀ out w', run_download_tasks tasks max_workers w out w' →
    ∃ results, out = inr results ∧
      results !! i = Some (Failure (VStr s) (lit "URL cannot be empty")) ∧
      ∀ j t', tasks !! j = Some t' →
        ∃ r, results !! j = Some r ∧ ends (download_task t') (inr r).
Proof.
  intros Hk Hurl Hi Hu Hs.
  pose proof (download_task_blank_url t s Hu Hs) as Heq.
  split; [by rewrite Heq|].
  assert (Hne : tasks ≠ []) by (by destruct tasks).
  destruct (run_returns tasks max_workers w Hk Hne Hurl) as [Hex Hall].
  split; [done|]. intros out w' Hrun.
  destruct (Hall out w' Hrun) as (results & -> & Hres).
  exists results. split; [done|]. split.
  - destruct (Forall2_lookup_l _ _ _ _ _ Hres Hi) as (r & Hr & Hends).
    rewrite Heq in Hends. apply ends_Ret_inv in Hends. by injection Hends as ->.
  - intros j t' Hj. by apply (Forall2_lookup_l _ _ _ _ _ Hres Hj).
Qed.

Lemma blank_url_fails_without_io_witness :
  0 < 10 ∧
  Forall (λ t : task, is_Some (t !! "url")) batch_with_blank ∧
  batch_with_blank !! 1%nat = Some blank_task ∧
  blank_task !! "url" = Some (VStr (lit "   ")) ∧
  whitespace_only (lit "   ") ∧
  (interp (answer_of view_reported) (download_task blank_task) no_log).1.1 = [] ∧
  ∃ results w',
    run_download_tasks batch_with_blank 10 no_log (inr results) w' ∧
    results !! 1%nat = Some (Failure (VStr (lit "   ")) (lit "URL cannot be empty")).
Proof.
  assert (Hk : 0 < 10) by lia.
  assert (Hurl : Forall (λ t : task, is_Some (t !! "url")) batch_with_blank).
  { repeat constructor; eexists; reflexivity. }
  assert (Hs : whitespace_only (lit "   ")) by (by repeat constructor).
  split; [exact Hk|]. split; [exact Hurl|]. split; [reflexivity|].
  split; [reflexivity|]. split; [exact Hs|].
  destruct (blank_url_fails_without_io batch_with_blank 10 no_log 1 blank_task
              (lit "   ") Hk Hurl eq_refl eq_refl Hs)
    as (Hio & (results & w' & Hrun) & Hall).
  split.
  - by destruct (Hio _ _ _ _ (interp_exec (answer_of view_reported)
                   (download_task blank_task) no_log
                   (answer_of_valid view_reported))) as (-> & _).
  - exists results, w'. split; [exact Hrun|].
    by destruct (Hall _ _ Hrun) as (results' & [= <-] & Hr & _).
Defined.

(** ** The protocol of a worker on the progress log *)

Lemma log_free_bind {A B} (p : Prog A) (f : A → Prog B) :
  log_free p → (∀ a, log_free (f a)) → log_free (bind p f).
Proof.
  intros Hp Hf. induction p as [a|e|X o k IH]; simpl; [done..|].
  destruct Hp as [Ho Hk]. split; [done|]. intros r. by apply IH.
Qed.

Lemma log_free_try_except {A} (p : Prog A) (h : exn → Prog A) :
  log_free p → (∀ e, log_free (h e)) → log_free (try_except p h).
Proof.
  intros Hp Hh. induction p as [a|e|X o k IH]; simpl; [done..|].
  destruct Hp as [Ho Hk]. split; [done|]. intros r. by apply IH.
Qed.

Lemma log_free_finally {A} (p : Prog A) (fin : Prog unit) :
  log_free p → log_free fin → log_free (finally p fin).
Proof.
  intros Hp Hf. induction p as [a|e|X o k IH]; simpl.
  - by apply log_free_bind.
  - by apply log_free_bind.
  - destruct Hp as [Ho Hk]. split; [done|]. intros r. by apply IH.
Qed.

Lemma log_free_call {A} (o : op (exn + A)) :
  is_log_kind (op_kind o) = false → log_free (call o).
Proof. intros Ho. split; [done|]. by intros []. Qed.

Lemma log_free_stat_all files : log_free (stat_all files).
Proof.
  induction files as [|f files IH]; [done|]. rewrite stat_all_cons.
  apply log_free_bind; [by apply log_free_call|]. intros m.
  by apply log_free_bind.
Qed.

Lemma log_free_resolve_output y url d : log_free (resolve_output y url d).
Proof.
  rewrite resolve_output_split.
  apply log_free_bind; [by apply log_free_call|]. intros [info|]; [|done].
  simpl. unfold resolve_from_info.
  apply log_free_bind.
  { destruct (reported_files info); [by apply log_free_call|done]. }
  intros files2. apply log_free_bind.
  { destruct files2; [|done]. destruct (filename info); [|done].
    apply log_free_bind; [by apply log_free_call|done]. }
  intros [|f1 [|f2 files3]]; [done..|].
  apply log_free_bind; [|by intros []].
  unfold sort_by_mtime. apply log_free_bind; [apply log_free_stat_all|done].
Qed.

Lemma log_free_yt_downloader url td oa q ti : log_free (yt_downloader url td oa q ti).
Proof.
  destruct (yt_downloader_cases url td oa q ti) as [(e & ->)|(s & d & _ & _ & _ & ->)];
    [done|].
  unfold fetch. apply log_free_bind; [by apply log_free_call|]. intros _.
  apply log_free_try_except; [|done].
  apply log_free_bind; [by apply log_free_call|]. intros y.
  apply log_free_finally; [apply log_free_resolve_output|by apply log_free_call].
Qed.

(** A worker that has not yet touched the log. *)
Lemma worker_at_stage (u : pyval) (line : pystr) (q : Prog Path) :
  log_free q →
  at_stage u line Fetching
    (try_except
       (bind q (λ path, bind (append_progress line) (λ _, Ret (Success u path))))
       (λ e, Ret (Failure u (exn_str e)))).
Proof.
  induction q as [path|e|A o k IH]; intros Hq.
  - unfold append_progress. prog_unfold. simpl.
    split; [done|]. split; [intros e; simpl; eauto|].
    intros f. simpl. split; [done|]. split; [done|]. split.
    + intros e. simpl. left. split; [done|]. intros [e2|[]]; simpl; eauto.
    + intros [] through. simpl. right. split; [by exists through|]. split.
      * intros e. simpl. eauto.
      * intros []. simpl. eauto.
  - simpl. eauto.
  - destruct Hq as [Ho Hk].
    change (at_stage u line Fetching
              (Do o (λ r, try_except
                 (bind (k r) (λ path, bind (append_progress line)
                                         (λ _, Ret (Success u path))))
                 (λ e, Ret (Failure u (exn_str e)))))).
    destruct o; try done; simpl; (split; [done|]); intros r; by apply IH.
Qed.

Lemma download_task_at_stage (t : task) (u : pyval) :
  t !! "url" = Some u →
  at_stage u (py_str u ++ newline) Fetching (download_task t).
Proof.
  intros Hu. rewrite (download_task_eq t u Hu).
  apply worker_at_stage, log_free_yt_downloader.
Qed.

(** ** The progress log under concurrent workers *)

Lemma lines_of_snoc tasks order i t :
  tasks !! i = Some t → lines_of tasks (order ++ [i]) = lines_of tasks order ++ line_of t.
Proof.
  intros Ht. unfold lines_of. rewrite fmap_app, concat_app. simpl.
  by rewrite Ht, app_nil_r.
Qed.

Lemma log_inv_submitted tasks w :
  log_inv tasks w (submitted tasks w) (replicate (length tasks) Fetching) [].
Proof.
  split; simpl.
  - apply length_replicate.
  - apply length_fmap.
  - done.
  - intros i t σ s Ht [-> _]%lookup_replicate Hs.
    rewrite list_lookup_fmap, Ht in Hs. by injection Hs as <-.
  - by intros i t σ f _ [-> _]%lookup_replicate.
  - by intros i j σi σj f [-> _]%lookup_replicate.
  - intros i. split; [by intros ?%elem_of_nil|].
    by intros (σ & [-> _]%lookup_replicate & ?).
  - constructor.
  - unfold lines_of. simpl. by rewrite app_nil_r.
Qed.

(** One worker moves from stage [σ] to stage [σ']: what has to be checked
    for the invariant to hold again. *)
Lemma log_inv_update tasks w0 st stages order i t σ σ' s' w' order' :
  log_inv tasks w0 st stages order →
  tasks !! i = Some t → stages !! i = Some σ →
  slot_at_stage t σ' s' →
  (∀ g, holds σ ≠ Some g → holds σ' ≠ Some g →
        open_files w' !! g = open_files (pworld st) !! g) →
  (∀ f, holds σ' = Some f →
        (holds σ = Some f ∨ open_files (pworld st) !! f = None) ∧
        open_files w' !! f = Some (buffered (line_of t) σ')) →
  (in_file σ' = in_file σ ∧ order' = order ∧
   log_content w' = log_content (pworld st)) ∨
  (in_file σ = false ∧ in_file σ' = true ∧ order' = order ++ [i] ∧
   log_content w' = log_content (pworld st) ++ line_of t) →
  log_inv tasks w0 (MkPool (<[i := s']> (slots st)) w' (raised st))
    (<[i := σ']> stages) order'.
Proof.
  intros [Hls Hlt Hr Hslots Hbufs Hdist Hord Hnd Hcont] Ht Hσ Hs' Hother Hown Horder.
  assert (Hi : (i < length stages)%nat) by (by eapply lookup_lt_Some).
  split; simpl.
  - by rewrite length_insert.
  - by rewrite length_insert.
  - done.
  - intros j tj σj sj Htj Hσj Hsj. destruct (decide (j = i)) as [->|Hne].
    + rewrite list_lookup_insert_eq in Hσj by done.
      rewrite list_lookup_insert_eq in Hsj by lia. by simplify_eq.
    + rewrite list_lookup_insert_ne in Hσj by done.
      rewrite list_lookup_insert_ne in Hsj by done. by eapply Hslots.
  - intros j tj σj f Htj Hσj Hf. destruct (decide (j = i)) as [->|Hne].
    + rewrite list_lookup_insert_eq in Hσj by done. simplify_eq.
      by apply Hown.
    + rewrite list_lookup_insert_ne in Hσj by done.
      rewrite Hother; [by eapply Hbufs| |].
      * intros Hf'. by apply Hne, (Hdist j i σj σ f).
      * intros Hf'. destruct (Hown f Hf') as [[Hf''|Hnone] _].
        -- by apply Hne, (Hdist j i σj σ f).
        -- by rewrite (Hbufs j tj σj f) in Hnone.
  - assert (Hnew : ∀ j σj f, j ≠ i → stages !! j = Some σj →
              holds σ' = Some f → holds σj = Some f → False).
    { intros j σj f Hne Hσj Hf' Hf. destruct (Hown f Hf') as [[Hf''|Hnone] _].
      - by apply Hne, (Hdist j i σj σ f).
      - destruct (lookup_lt_is_Some_2 tasks j) as [tj Htj].
        { rewrite <- Hls. by eapply lookup_lt_Some. }
        by rewrite (Hbufs j tj σj f) in Hnone. }
    intros j1 j2 σ1 σ2 f H1 H2 Hf1 Hf2.
    destruct (decide (j1 = i)) as [->|Hne1], (decide (j2 = i)) as [->|Hne2]; try done.
    + rewrite list_lookup_insert_eq in H1 by done.
      rewrite list_lookup_insert_ne in H2 by done. simplify_eq.
      by destruct (Hnew j2 σ2 f).
    + rewrite list_lookup_insert_ne in H1 by done.
      rewrite list_lookup_insert_eq in H2 by done. simplify_eq.
      by destruct (Hnew j1 σ1 f).
    + rewrite list_lookup_insert_ne in H1 by done.
      rewrite list_lookup_insert_ne in H2 by done. by eapply Hdist.
  - intros j. destruct Horder as [(Hin & -> & _)|(Hin & Hin' & -> & _)].
    + rewrite Hord. destruct (decide (j = i)) as [->|Hne].
      * rewrite list_lookup_insert_eq by done. rewrite Hσ. split.
        -- intros (? & [= <-] & ?). exists σ'. split; [done|congruence].
        -- intros (? & [= <-] & ?). exists σ. split; [done|congruence].
      * by rewrite list_lookup_insert_ne.
    + rewrite elem_of_app, list_elem_of_singleton, Hord.
      destruct (decide (j = i)) as [->|Hne].
      * rewrite list_lookup_insert_eq by done. split; [by exists σ'|by right].
      * rewrite list_lookup_insert_ne by done. split; [by intros [?|?]|by left].
  - destruct Horder as [(_ & -> & _)|(Hin & _ & -> & _)]; [done|].
    apply NoDup_app. split; [done|]. split; [|apply NoDup_singleton].
    intros j Hj ->%list_elem_of_singleton. apply Hord in Hj as (σ0 & Hσ0 & Hin0).
    congruence.
  - destruct Horder as [(_ & -> & ->)|(_ & _ & -> & ->)]; [done|].
    by rewrite (lines_of_snoc _ _ _ t), Hcont, app_assoc.
Qed.

(** A slot changes while its worker stays at the same stage. *)
Lemma log_inv_slot tasks w0 st stages order i t σ s' :
  log_inv tasks w0 st stages order →
  tasks !! i = Some t → stages !! i = Some σ →
  slot_at_stage t σ s' →
  log_inv tasks w0 (MkPool (<[i := s']> (slots st)) (pworld st) (raised st))
    stages order.
Proof.
  intros [Hls Hlt Hr Hslots Hbufs Hdist Hord Hnd Hcont] Ht Hσ Hs'.
  split; simpl; try done.
  - by rewrite length_insert.
  - intros j tj σj sj Htj Hσj Hsj. destruct (decide (j = i)) as [->|Hne].
    + rewrite list_lookup_insert_eq in Hsj.
      * by simplify_eq.
      * rewrite Hlt. by eapply lookup_lt_Some.
    + rewrite list_lookup_insert_ne in Hsj by done. by eapply Hslots.
Qed.

Lemma log_inv_lookup tasks w0 st stages order i s :
  log_inv tasks w0 st stages order → slots st !! i = Some s →
  ∃ t σ, tasks !! i = Some t ∧ stages !! i = Some σ ∧ slot_at_stage t σ s.
Proof.
  intros Hinv Hs. pose proof (lookup_lt_Some _ _ _ Hs) as Hi.
  destruct (lookup_lt_is_Some_2 tasks i) as [t Ht].
  { by rewrite <- (inv_length _ _ _ _ _ Hinv). }
  destruct (lookup_lt_is_Some_2 stages i) as [σ Hσ].
  { rewrite (inv_stages _ _ _ _ _ Hinv), <- (inv_length _ _ _ _ _ Hinv). done. }
  exists t, σ. split; [done|]. split; [done|]. by eapply inv_slots.
Qed.

Lemma url_of_Some (t : task) u : t !! "url" = Some u → url_of t = u.
Proof. unfold url_of. by intros ->. Qed.



(** *** The file objects of the workers *)

Lemma held_insert (stages : list log_stage) (i : nat) (σ σ' : log_stage) :
  stages !! i = Some σ →
  (length (omap holds (<[i := σ']> stages)) + length (option_list (holds σ))
   = length (omap holds stages) + length (option_list (holds σ')))%nat.
Proof.
  revert i. induction stages as [|x l IH]; intros [|i] Hi; simpl in *; try done.
  - injection Hi as ->. destruct (holds σ), (holds σ'); simpl; lia.
  - specialize (IH i Hi). unfold omap in IH. destruct (holds x); simpl; lia.
Qed.

Lemma files_inv_submitted (tasks : list task) (w : world) :
  files_inv w w (replicate (length tasks) Fetching).
Proof.
  split.
  - assert (H : omap holds (replicate (length tasks) Fetching) = []).
    { induction (length tasks) as [|n IH]; [done|]. simpl. exact IH. }
    rewrite H. simpl. lia.
  - done.
  - by intros i σ f [-> _]%lookup_replicate.
Qed.

(** A worker moves without opening or closing a file object. *)
Lemma files_inv_same w0 w w' stages i σ σ' :
  files_inv w0 w stages → stages !! i = Some σ →
  holds σ' = holds σ → open_files w' = open_files w →
  files_inv w0 w' (<[i := σ']> stages).
Proof.
  intros [Hsz Hk Hn] Hσ Hh Hw. split.
  - pose proof (held_insert stages i σ σ' Hσ) as H. rewrite Hh in H.
    rewrite Hw, Hsz. destruct (holds σ); simpl in *; lia.
  - intros f b Hf. rewrite Hw. by apply Hk.
  - intros j σj f Hj Hf. destruct (decide (j = i)) as [->|Hne].
    + rewrite list_lookup_insert_eq in Hj by (by eapply lookup_lt_Some).
      injection Hj as <-. rewrite Hh in Hf. by eapply Hn.
    + rewrite list_lookup_insert_ne in Hj by done. by eapply Hn.
Qed.

(** A worker opens a file object. *)
Lemma files_inv_open w0 w w' stages i σ σ' f b :
  files_inv w0 w stages → stages !! i = Some σ →
  holds σ = None → holds σ' = Some f →
  open_files w !! f = None → open_files w' = <[f := b]> (open_files w) →
  files_inv w0 w' (<[i := σ']> stages).
Proof.
  intros [Hsz Hk Hn] Hσ Hh Hh' Hf Hw. split.
  - pose proof (held_insert stages i σ σ' Hσ) as H. rewrite Hh, Hh' in H.
    rewrite Hw, map_size_insert_None by done. simpl in *. lia.
  - intros g b' Hg. rewrite Hw. rewrite lookup_insert_ne; [by apply Hk|].
    intros <-. apply Hk in Hg. congruence.
  - intros j σj g Hj Hg. destruct (decide (j = i)) as [->|Hne].
    + rewrite list_lookup_insert_eq in Hj by (by eapply lookup_lt_Some).
      injection Hj as <-. rewrite Hh' in Hg. injection Hg as <-.
      destruct (open_files w0 !! f) as [b'|] eqn:Hf0; [|done].
      apply Hk in Hf0. congruence.
    + rewrite list_lookup_insert_ne in Hj by done. by eapply Hn.
Qed.

(** A worker writes to the file object it holds. *)
Lemma files_inv_write w0 w w' stages i σ σ' f b0 b :
  files_inv w0 w stages → stages !! i = Some σ →
  holds σ = Some f → holds σ' = Some f →
  open_files w !! f = Some b0 → open_files w' = <[f := b]> (open_files w) →
  files_inv w0 w' (<[i := σ']> stages).
Proof.
  intros [Hsz Hk Hn] Hσ Hh Hh' Hf Hw. split.
  - pose proof (held_insert stages i σ σ' Hσ) as H. rewrite Hh, Hh' in H.
    rewrite Hw, map_size_insert_Some by (by eexists). simpl in *. lia.
  - intros g b' Hg. rewrite Hw. rewrite lookup_insert_ne; [by apply Hk|].
    intros <-. rewrite (Hn i σ f Hσ Hh) in Hg. done.
  - intros j σj g Hj Hg. destruct (decide (j = i)) as [->|Hne].
    + rewrite list_lookup_insert_eq in Hj by (by eapply lookup_lt_Some).
      injection Hj as <-. rewrite Hh' in Hg. injection Hg as <-. by eapply Hn.
    + rewrite list_lookup_insert_ne in Hj by done. by eapply Hn.
Qed.

(** A worker closes the file object it holds. *)
Lemma files_inv_close w0 w w' stages i σ σ' f b0 :
  files_inv w0 w stages → stages !! i = Some σ →
  holds σ = Some f → holds σ' = None →
  open_files w !! f = Some b0 → open_files w' = delete f (open_files w) →
  files_inv w0 w' (<[i := σ']> stages).
Proof.
  intros [Hsz Hk Hn] Hσ Hh Hh' Hf Hw. split.
  - pose proof (held_insert stages i σ σ' Hσ) as H. rewrite Hh, Hh' in H.
    pose proof (map_size_delete_Some f (open_files w) (mk_is_Some _ _ Hf)) as Hd.
    rewrite Hw. simpl in *. lia.
  - intros g b' Hg. rewrite Hw. rewrite lookup_delete_ne; [by apply Hk|].
    intros <-. rewrite (Hn i σ f Hσ Hh) in Hg. done.
  - intros j σj g Hj Hg. destruct (decide (j = i)) as [->|Hne].
    + rewrite list_lookup_insert_eq in Hj by (by eapply lookup_lt_Some).
      injection Hj as <-. congruence.
    + rewrite list_lookup_insert_ne in Hj by done. by eapply Hn.
Qed.

(** Both invariants are kept by every step of the pool. A step leaves the
    file as it is, or it is the write or the close of a worker whose line
    was not in the file, and puts that line at the end of the file. *)
Lemma files_inv_step workers tasks w0 st st' stages order :
  Forall (λ t : task, is_Some (t !! "url")) tasks →
  log_inv tasks w0 st stages order →
  files_inv w0 (pworld st) stages →
  pool_step workers st st' →
  ∃ stages' order',
    log_inv tasks w0 st' stages' order' ∧ files_inv w0 (pworld st') stages' ∧
    ((order' = order ∧ log_content (pworld st') = log_content (pworld st)) ∨
     ∃ i t, tasks !! i = Some t ∧ (i ∉ order) ∧ order' = order ++ [i] ∧
       log_content (pworld st') = log_content (pworld st) ++ line_of t ∧
       ((∃ f k, slots st !! i = Some (Running (Do (LogWrite f (line_of t)) k))) ∨
        (∃ f k, slots st !! i = Some (Running (Do (LogClose f) k))))).
Proof.
  intros Hurl Hinv Hfiles Hstep.
  destruct Hstep as [st i t _ Hi _ _|st i A o k r w1 Hi Henv|st i r Hi|st i e Hi|st i e _ _ Hi];
    destruct (log_inv_lookup _ _ _ _ _ _ _ Hinv Hi) as (ti & σ & Ht & Hσ & Hs);
    simpl in Hs; try done.
  - (* a worker picks the task *)
    destruct Hs as [-> ->]. exists stages, order.
    split; [|split; [done|by left]].
    eapply log_inv_slot; [done..|]. simpl.
    destruct (Forall_lookup_1 _ _ _ _ Hurl Ht) as [u Hu].
    unfold line_of. rewrite (url_of_Some ti u Hu).
    by apply download_task_at_stage.
  - (* a call *)
    assert (Hnotin : in_file σ = false → i ∉ order).
    { intros Hn (σ0 & Hσ0 & Hin)%(inv_order _ _ _ _ _ Hinv). congruence. }
    assert (Hquiet : ∀ σ', holds σ = None → in_file σ' = in_file σ →
              holds σ' = None → w1 = pworld st →
              at_stage (url_of ti) (line_of ti) σ' (k r) →
              ∃ stages' order',
                log_inv tasks w0
                  (MkPool (<[i := Running (k r)]> (slots st)) w1 (raised st))
                  stages' order' ∧
                files_inv w0 w1 stages' ∧
                ((order' = order ∧ log_content w1 = log_content (pworld st)) ∨
                 ∃ j t, tasks !! j = Some t ∧ (j ∉ order) ∧ order' = order ++ [j] ∧
                   log_content w1 = log_content (pworld st) ++ line_of t ∧
                   ((∃ f k', slots st !! j
                             = Some (Running (Do (LogWrite f (line_of t)) k'))) ∨
                    (∃ f k', slots st !! j = Some (Running (Do (LogClose f) k')))))).
    { intros σ' Hh Hin Hh' -> Hk. exists (<[i := σ']> stages), order. split.
      - eapply log_inv_update; [done..|exact Hk| | |left; done].
        + done.
        + intros f Hf. congruence.
      - split; [|by left]. eapply files_inv_same; [done..|congruence|done]. }
    destruct o; simpl in Hs, Henv;
      try (destruct Hs as [-> Hk]; by apply (Hquiet Fetching)).
    + (* open *)
      destruct Hs as (-> & Hfail & Hok). destruct r as [e|f].
      * by apply (Hquiet (Finished false)).
      * destruct Henv as [Hfresh ->]. exists (<[i := Opened f]> stages), order.
        split.
        -- eapply log_inv_update; [done..|apply Hok| | |left; done]; simpl.
           ++ intros g _ Hg. rewrite lookup_insert_ne; [done|congruence].
           ++ intros ? [= <-]. split; [by right|]. by rewrite lookup_insert_eq.
        -- split; [|by left].
           by eapply (files_inv_open _ _ _ _ _ Fetching (Opened f) f []).
    + (* write *)
      destruct Hs as (-> & -> & Hfail & Hok).
      pose proof (inv_bufs _ _ _ _ _ Hinv i ti (Opened f) f Ht Hσ eq_refl) as Hbuf.
      simpl in Hbuf. destruct r as [e|[]].
      * subst w1. exists (<[i := WriteFailed f]> stages), order. split.
        -- eapply log_inv_update; [done..|apply Hfail| | |left; done]; simpl.
           ++ done.
           ++ intros ? [= <-]. split; [by left|done].
        -- split; [|by left].
           by eapply (files_inv_same _ _ _ _ _ (Opened f) (WriteFailed f)).
      * destruct Henv as (buf & Hb & Hw1).
        pose proof (eq_trans (eq_sym Hb) Hbuf) as [= ->].
        destruct Hw1 as [->| ->].
        -- (* the line stays in the buffer *)
           exists (<[i := Written f false]> stages), order. split.
           ++ eapply log_inv_update; [done..|apply Hok| | |left; done]; simpl.
              ** intros g _ Hg. rewrite lookup_insert_ne; [done|congruence].
              ** intros ? [= <-]. split; [by left|]. by rewrite lookup_insert_eq.
           ++ split; [|by left].
              by eapply (files_inv_write _ _ _ _ _ (Opened f) (Written f false) f).
        -- (* the line is written through *)
           exists (<[i := Written f true]> stages), (order ++ [i]). split.
           ++ eapply log_inv_update; [done..|apply Hok| | |right; done]; simpl.
              ** intros g _ Hg. rewrite lookup_insert_ne; [done|congruence].
              ** intros ? [= <-]. split; [by left|]. by rewrite lookup_insert_eq.
           ++ split;
                [by eapply (files_inv_write _ _ _ _ _ (Opened f) (Written f true) f)|].
              right. exists i, ti. split; [done|]. split; [by apply Hnotin|].
              split; [done|]. split; [done|]. left. by exists f, k.
    + (* close *)
      assert (Hdel : open_files w1 = delete f (open_files (pworld st))).
      { destruct r as [e|[]]; [by destruct Henv as [_ ->]
                              |by destruct Henv as (buf & _ & ->)]. }
      destruct Hs as [(-> & Hk)|([through ->] & Hfail & Hok)].
      * (* after a failed write *)
        pose proof (inv_bufs _ _ _ _ _ Hinv i ti (WriteFailed f) f Ht Hσ eq_refl) as Hbuf.
        simpl in Hbuf.
        destruct r as [e|[]]; [by destruct Henv as [Henv _]|].
        destruct Henv as (buf & Hb & ->).
        pose proof (eq_trans (eq_sym Hb) Hbuf) as [= ->].
        exists (<[i := Finished false]> stages), order. split.
        -- eapply log_inv_update; [done..|apply (Hk (inr ()))| | |left]; simpl.
           ++ intros g Hg _. rewrite lookup_delete_ne; [done|congruence].
           ++ done.
           ++ by rewrite app_nil_r.
        -- split; [|left; simpl; by rewrite app_nil_r].
           by eapply (files_inv_close _ _ _ _ _ (WriteFailed f) (Finished false) f).
      * pose proof (inv_bufs _ _ _ _ _ Hinv i ti (Written f through) f Ht Hσ eq_refl)
          as Hbuf.
        destruct through; simpl in Hbuf.
        -- (* the line is in the file already *)
           destruct r as [e|[]]; [by destruct Henv as [Henv _]|].
           destruct Henv as (buf & Hb & ->).
           pose proof (eq_trans (eq_sym Hb) Hbuf) as [= ->].
           exists (<[i := Finished true]> stages), order. split.
           ++ eapply log_inv_update; [done..|apply Hok| | |left]; simpl.
              ** intros g Hg _. rewrite lookup_delete_ne; [done|congruence].
              ** done.
              ** by rewrite app_nil_r.
           ++ split; [|left; simpl; by rewrite app_nil_r].
              by eapply (files_inv_close _ _ _ _ _ (Written f true) (Finished true) f).
        -- (* the line is in the buffer *)
           destruct r as [e|[]].
           ++ destruct Henv as [_ ->].
              exists (<[i := Finished false]> stages), order. split.
              ** eapply log_inv_update; [done..|apply Hfail| | |left; done]; simpl.
                 --- intros g Hg _. rewrite lookup_delete_ne; [done|congruence].
                 --- done.
              ** split; [|by left].
                 by eapply (files_inv_close _ _ _ _ _ (Written f false)
                              (Finished false) f).
           ++ destruct Henv as (buf & Hb & ->).
              pose proof (eq_trans (eq_sym Hb) Hbuf) as [= ->].
              exists (<[i := Finished true]> stages), (order ++ [i]). split.
              ** eapply log_inv_update; [done..|apply Hok| | |right; done]; simpl.
                 --- intros g Hg _. rewrite lookup_delete_ne; [done|congruence].
                 --- done.
              ** split;
                   [by eapply (files_inv_close _ _ _ _ _ (Written f false)
                                 (Finished true) f)|].
                 right. exists i, ti. split; [done|]. split; [by apply Hnotin|].
                 split; [done|]. split; [done|]. right. by exists f, k.
  - (* the worker returns *)
    exists stages, order. split; [by eapply log_inv_slot|split; [done|by left]].
Qed.

Lemma files_inv_reachable workers tasks w st :
  Forall (λ t : task, is_Some (t !! "url")) tasks →
  rtc (pool_step workers) (submitted tasks w) st →
  ∃ stages order, log_inv tasks w st stages order ∧ files_inv w (pworld st) stages.
Proof.
  intros Hurl H. revert st H.
  apply (rtc_ind_r (R := pool_step workers)
           (λ st, ∃ stages order,
              log_inv tasks w st stages order ∧ files_inv w (pworld st) stages)).
  - eexists _, _. split; [apply log_inv_submitted|apply files_inv_submitted].
  - intros st1 st2 _ Hs (stages & order & Hinv & Hf).
    destruct (files_inv_step _ _ _ _ _ _ _ Hurl Hinv Hf Hs)
      as (stages' & order' & Hinv' & Hf' & _).
    by exists stages', order'.
Qed.


(** *** The scheduler follows the step relation *)

Lemma tick_sound workers ans i st st' :
  valid_oracle ans → tick workers ans i st = Some st' → pool_step workers st st'.
Proof.
  intros Hans. unfold tick.
  destruct (slots st !! i) as [[t|[r|e|A o k]|]|] eqn:Hi; try done.
  - destruct (decide (raised st = None)) as [Hr|]; [|done].
    destruct (forallb _ _) eqn:Hf; [|done].
    destruct (Nat.ltb_spec (running_count (slots st)) workers) as [Hlt|]; [|done].
    intros [= <-]. apply step_start; [done..| |done].
    intros j s Hj Hjs. rewrite forallb_forall in Hf. specialize (Hf s).
    destruct (is_pending s); [|done]. symmetry. apply Hf.
    apply list_elem_of_In, list_elem_of_lookup. exists j. by rewrite lookup_take_lt.
  - intros [= <-]. by apply step_return.
  - intros [= <-]. by apply step_raise.
  - intros [= <-]. by apply (step_call workers st i o k).
Qed.

Lemma schedule_sound workers ans sched st st' :
  valid_oracle ans → schedule workers ans sched st = Some st' →
  rtc (pool_step workers) st st'.
Proof.
  intros Hans. revert st. induction sched as [|i sched IH]; intros st; simpl.
  - by intros [= ->].
  - destruct (tick workers ans i st) as [st1|] eqn:Ht; [|done].
    intros Hs. eapply rtc_l; [by eapply tick_sound|by apply IH].
Qed.







(** A line can be in the file before its worker closes (on a platform
    whose buffer does not hold the line): the write of the first worker
    goes through, then the second worker writes, closes and returns. The
    log then holds both lines, that of the first worker first, although
    the first worker has not closed yet. *)
Example line_written_through :
  ∃ st f k r,
    rtc (pool_step 2) (submitted sample_batch no_log) st ∧
    slots st !! 0%nat = Some (Running (Do (LogClose f) k)) ∧
    slots st !! 1%nat = Some (Done (inr r)) ∧
    log_content (pworld st) = lines_of sample_batch [0; 1]%nat.
Proof.
  destruct (schedule 2 (answer_of view_reported) both_open
              (submitted sample_batch no_log)) as [st0|] eqn:Hs;
    [|by vm_compute in Hs].
  pose proof (schedule_sound 2 _ _ _ _ (answer_of_valid view_reported) Hs) as Hrtc.
  vm_compute in Hs. injection Hs as <-.
  eexists _, _, _, _. split.
  { etrans; [exact Hrtc|].
    eapply rtc_l.
    { eapply (step_call 2 _ 0%nat (LogWrite _ _) _ (inr ())); [reflexivity|].
      simpl. eexists. split; [reflexivity|]. right. reflexivity. }
    eapply rtc_l.
    { eapply (step_call 2 _ 1%nat (LogWrite _ _) _ (inr ())); [reflexivity|].
      simpl. eexists. split; [reflexivity|]. left. reflexivity. }
    eapply rtc_l.
    { eapply (step_call 2 _ 1%nat (LogClose _) _ (inr ())); [reflexivity|].
      simpl. eexists. split; [reflexivity|]. reflexivity. }
    eapply rtc_l.
    { eapply (step_return 2 _ 1%nat); reflexivity. }
    apply rtc_refl. }
  split; [reflexivity|]. split; [reflexivity|]. vm_compute. reflexivity.
Qed.

(** * Further properties *)

(** ** The orchestrator: the size of the pool *)

(** X1: when the effective number of workers [min(max_workers,
    len(download_tasks))] is not positive (an empty batch, or a caller's cap
    of zero or less), [run_download_tasks] raises the [ValueError] of the
    executor's constructor: no task is started and nothing is changed. *)
Theorem no_workers_raises (tasks : list task) (max_workers : Z) (w : world)
    (out : exn + list Result) (w' : world) :
  Z.min max_workers (Z.of_nat (length tasks)) ≤ 0 →
  run_download_tasks tasks max_workers w out w' ↔
  out = inl (Exn ValueError (lit "max_workers must be greater than 0")) ∧ w' = w.
Proof.
  intros Hmin.
  assert (Hex : ThreadPoolExecutor (Z.min max_workers (Z.of_nat (length tasks)))
                = inl (Exn ValueError (lit "max_workers must be greater than 0"))).
  { unfold ThreadPoolExecutor.
    by destruct (Z.leb_spec (Z.min max_workers (Z.of_nat (length tasks))) 0); [|lia]. }
  split.
  - inversion 1 as [e He|n st results He|n st e He]; subst; rewrite Hex in He;
      [by injection He as <-|done..].
  - intros [-> ->]. by constructor.
Qed.

Lemma no_workers_raises_witness :
  Z.min 0 (Z.of_nat (length sample_batch)) ≤ 0 ∧
  run_download_tasks sample_batch 0 no_log
    (inl (Exn ValueError (lit "max_workers must be greater than 0"))) no_log.
Proof.
  assert (H : Z.min 0 (Z.of_nat (length sample_batch)) ≤ 0) by (simpl; lia).
  split; [exact H|].
  by apply (no_workers_raises sample_batch 0 no_log _ _ H).
Defined.

Lemma running_count_cons (s : slot) (l : list slot) :
  running_count (s :: l)
  = ((if is_running s then 1 else 0) + running_count l)%nat.
Proof.
  unfold running_count. rewrite filter_cons.
  destruct (is_running s) eqn:Hs; simpl.
  - by destruct (decide (true = true)).
  - by destruct (decide (false = true)).
Qed.

(** Replacing the slot at [i] changes the count by what the two slots
    contribute. *)
Lemma running_count_insert (l : list slot) (i : nat) (s s' : slot) :
  l !! i = Some s →
  (running_count (<[i := s']> l) + (if is_running s then 1 else 0)
   = running_count l + (if is_running s' then 1 else 0))%nat.
Proof.
  revert i. induction l as [|x l IH]; intros [|i] Hi; simpl in *; try done.
  - injection Hi as ->. rewrite !running_count_cons. lia.
  - rewrite !running_count_cons. specialize (IH i Hi). lia.
Qed.

(** A pool never runs more tasks than it has workers. *)
Lemma running_bounded (workers : nat) (tasks : list task) (w : world) (st : pool) :
  rtc (pool_step workers) (submitted tasks w) st →
  (running_count (slots st) ≤ workers)%nat.
Proof.
  intros Hrtc. revert st Hrtc.
  apply (rtc_ind_r (R := pool_step workers)
           (λ st, (running_count (slots st) ≤ workers)%nat)).
  - simpl. rewrite running_count_none; [lia|].
    apply Forall_fmap. by apply Forall_true.
  - intros st1 st2 _ Hstep IH.
    destruct Hstep as [st i t _ Hi _ Hlt|st i A o k r w1 Hi _|st i r Hi|st i e Hi|st i e _ _ _];
      simpl; [| | | |done].
    + pose proof (running_count_insert _ i _ (Running (download_task t)) Hi) as H.
      simpl in H. lia.
    + pose proof (running_count_insert _ i _ (Running (k r)) Hi) as H.
      simpl in H. lia.
    + pose proof (running_count_insert _ i _ (Done (inr r)) Hi) as H.
      simpl in H. lia.
    + pose proof (running_count_insert _ i _ (Done (inl e)) Hi) as H.
      simpl in H. lia.
Qed.

(** X2: at every moment of a batch the number of tasks being executed is at
    most the size of the pool, which is at most the caller's [max_workers]
    and at most the number of tasks. *)
Theorem concurrency_is_bounded (tasks : list task) (max_workers : Z)
    (workers : nat) (w : world) (st : pool) :
  ThreadPoolExecutor (Z.min max_workers (Z.of_nat (length tasks))) = inr workers →
  rtc (pool_step workers) (submitted tasks w) st →
  (running_count (slots st) ≤ workers)%nat ∧
  Z.of_nat workers ≤ max_workers ∧
  (workers ≤ length tasks)%nat.
Proof.
  intros Hex Hrtc. split; [by eapply running_bounded|].
  unfold ThreadPoolExecutor in Hex.
  destruct (Z.leb_spec (Z.min max_workers (Z.of_nat (length tasks))) 0); [done|].
  injection Hex as <-. lia.
Qed.

Lemma concurrency_is_bounded_witness :
  ThreadPoolExecutor (Z.min 10 (Z.of_nat (length sample_batch))) = inr 2%nat ∧
  ∃ st,
    schedule 2 (answer_of view_reported) both_open (submitted sample_batch no_log)
      = Some st ∧
    (running_count (slots st) ≤ 2)%nat.
Proof.
  assert (Hex : ThreadPoolExecutor (Z.min 10 (Z.of_nat (length sample_batch)))
                = inr 2%nat) by reflexivity.
  split; [exact Hex|].
  destruct (schedule 2 (answer_of view_reported) both_open
              (submitted sample_batch no_log)) as [st|] eqn:Hs;
    [|by vm_compute in Hs].
  exists st. split; [reflexivity|].
  pose proof (schedule_sound 2 (answer_of view_reported) both_open _ st
                (answer_of_valid view_reported) Hs) as Hrtc.
  by destruct (concurrency_is_bounded sample_batch 10 2 no_log st Hex Hrtc).
Defined.

(** ** The orchestrator: a task without a url *)

(** The worker's own [except] clause reads [task["url"]] again, so the
    [KeyError] of a task without a url leaves the worker. *)
Lemma download_task_no_url (t : task) :
  t !! "url" = None → download_task t = Raise missing_url.
Proof. intros Hu. unfold download_task, getitem. by rewrite Hu. Qed.

Lemma download_task_raises (t : task) (e : exn) :
  ends (download_task t) (inl e) → t !! "url" = None ∧ e = missing_url.
Proof.
  intros H. destruct (t !! "url") as [u|] eqn:Hu.
  - by destruct (download_task_ends t u _ Hu H) as (r & ? & _).
  - rewrite (download_task_no_url t Hu) in H. apply ends_Raise_inv in H.
    by injection H as ->.
Qed.

(** The exception met by the consumer of the futures is the exception of
    one of the workers. *)
Lemma raised_by_a_worker workers tasks w st e :
  rtc (pool_step workers) (submitted tasks w) st →
  raised st = Some e →
  ∃ i t, tasks !! i = Some t ∧ ends (download_task t) (inl e).
Proof.
  intros H. revert st H e.
  apply (rtc_ind_r (R := pool_step workers)
           (λ st, ∀ e, raised st = Some e →
                       ∃ i t, tasks !! i = Some t ∧ ends (download_task t) (inl e)));
    [done|].
  intros st1 st2 Hr Hs IH e.
  destruct Hs as [| | | |st1 i e' _ _ Hi]; simpl; try apply IH.
  intros [= <-]. apply pool_ok_reachable in Hr.
  eapply Forall2_lookup_r in Hr as (t & Ht & Hs); [|done]. eauto.
Qed.

(** X3: a single task without a ["url"] key makes the whole batch raise:
    its worker raises [KeyError('url')] (without any I/O), so
    [run_download_tasks] cannot return a result list, and when the other
    tasks have a url the exception it raises is that [KeyError]. *)
Theorem task_without_url_fails_the_batch (tasks : list task) (max_workers : Z)
    (w : world) (i : nat) (t : task) :
  0 < max_workers →
  tasks !! i = Some t →
  t !! "url" = None →
  download_task t = Raise missing_url ∧
  (∃ w', run_download_tasks tasks max_workers w (inl missing_url) w') ∧
  ∀ out w', run_download_tasks tasks max_workers w out w' → out = inl missing_url.
Proof.
  intros Hk Hi Hu. split; [by apply download_task_no_url|].
  assert (Hne : tasks ≠ []) by (by destruct tasks).
  destruct (executor_created tasks max_workers Hk Hne) as (workers & Hw & Hex).
  assert (Hall : ∀ out w', run_download_tasks tasks max_workers w out w' →
                           out = inl missing_url).
  { intros out w'.
    inversion 1 as [e He|n st results He Hrtc Hr Hs|n st e He Hrtc Hr Hs]; subst.
    - congruence.
    - apply pool_ok_reachable in Hrtc.
      pose proof (results_of_tasks _ _ _ Hrtc Hs) as Hres.
      destruct (Forall2_lookup_l _ _ _ _ _ Hres Hi) as (r & _ & Hends).
      rewrite (download_task_no_url t Hu) in Hends.
      by apply ends_Raise_inv in Hends.
    - destruct (raised_by_a_worker _ _ _ _ _ Hrtc Hr) as (j & tj & _ & Hends).
      by apply download_task_raises in Hends as [_ ->]. }
  split; [|done].
  destruct (pool_completes workers (submitted tasks w) Hw) as (st & Hrtc & Hfin).
  unfold pool_final in Hfin. destruct (raised st) as [e|] eqn:Hr.
  - assert (Hrun : run_download_tasks tasks max_workers w (inl e) (pworld st))
      by (by eapply run_raised).
    pose proof (Hall _ _ Hrun) as [= ->]. eauto.
  - apply all_resolved in Hfin as [results Hres].
    assert (Hrun : run_download_tasks tasks max_workers w (inr results) (pworld st))
      by (by eapply run_results).
    by pose proof (Hall _ _ Hrun).
Qed.

Lemma task_without_url_fails_the_batch_witness :
  0 < 10 ∧ batch_with_no_url !! 1%nat = Some task_no_url ∧
  task_no_url !! "url" = None ∧
  ∃ w', run_download_tasks batch_with_no_url 10 no_log (inl missing_url) w'.
Proof.
  assert (Hk : 0 < 10) by lia.
  split; [exact Hk|]. split; [reflexivity|]. split; [reflexivity|].
  by destruct (task_without_url_fails_the_batch batch_with_no_url 10 no_log 1
                 task_no_url Hk eq_refl eq_refl) as (_ & Hex & _).
Defined.

(** ** A single download: [yt_downloader] *)

Lemma strict_bind {A B} (p : Prog A) (f : A → Prog B) :
  strict p → (∀ a, strict (f a)) → strict (bind p f).
Proof.
  intros Hp Hf. induction p as [a|e|C o k IH]; simpl; [apply Hf|done|].
  intros r. specialize (Hp r). simpl in Hp.
  destruct o; simpl in *;
    try (destruct r as [e|a]; simpl in *; [by rewrite Hp|by apply IH]).
  by apply IH.
Qed.

Lemma strict_stat_all files : strict (stat_all files).
Proof.
  induction files as [|f files IH]; [done|].
  rewrite stat_all_cons. apply strict_bind.
  - by intros [e|m].
  - intros m. apply strict_bind; [done|]. by intros keyed.
Qed.

Lemma strict_resolve_from_info info d : strict (resolve_from_info info d).
Proof.
  unfold resolve_from_info. apply strict_bind.
  { destruct (reported_files info); [by intros [e|l]|done]. }
  intros files2. apply strict_bind.
  { destruct files2 as [|? ?]; [|done]. destruct (filename info); [|done].
    apply strict_bind; [by intros [e|b]|done]. }
  intros [|f1 [|f2 files3]]; [done..|].
  apply strict_bind; [|by intros [|? ?]].
  unfold sort_by_mtime. apply (strict_bind (stat_all _)); [apply strict_stat_all|done].
Qed.

Lemma strict_resolve_output y url d : strict (resolve_output y url d).
Proof.
  rewrite resolve_output_split. apply strict_bind; [by intros [e|i]|].
  intros [info|]; (apply strict_bind; [done|]); intros info'.
  all: apply strict_resolve_from_info.
Qed.

Lemma call_errors_app t1 t2 : call_errors (t1 ++ t2) = call_errors t1 ++ call_errors t2.
Proof. apply omap_app. Qed.

(** In a run of a strict program a failed call is the last call, and its
    exception is the outcome. *)
Lemma strict_exec {R} (p : Prog R) w tr out w' :
  strict p → exec p w tr out w' →
  call_errors tr = [] ∨
  ∃ pre ev e, tr = pre ++ [ev] ∧ call_error ev = Some e ∧
    call_errors pre = [] ∧ out = inl e.
Proof.
  revert w tr. induction p as [a|e|C o k IH]; intros w tr Hp H; simpl in H.
  - destruct H as (-> & _). by left.
  - destruct H as (-> & _). by left.
  - destruct H as (r & w1 & tr1 & _ & -> & H). specialize (Hp r).
    destruct (call_error (Ev o r)) as [e|] eqn:He.
    + rewrite Hp in H. destruct H as (-> & -> & _).
      right. by exists [], (Ev o r), e.
    + destruct (IH r w1 tr1 Hp H) as [Hn|(pre & ev & e & -> & Hev & Hpre & ->)].
      * left. unfold call_errors in *. simpl. fold (call_error (Ev o r)).
        by rewrite He.
      * right. exists (Ev o r :: pre), ev, e. split; [done|]. split; [done|].
        split; [|done]. unfold call_errors in *. simpl.
        fold (call_error (Ev o r)). by rewrite He.
Qed.

(** The runs of [yt_downloader]: the arguments are rejected before any
    call, or the run is one of [fetch]. *)
Lemma exec_yt_downloader url td oa q ti w tr out w' :
  exec (yt_downloader url td oa q ti) w tr out w' →
  w' = w ∧
  ((∃ e, yt_downloader url td oa q ti = Raise e ∧ tr = [] ∧ out = inl e) ∨
   (∃ s d, url = VStr s ∧ strip s ≠ [] ∧ td = VStr d ∧
      exec (fetch url (MkPath d) (_prepare_download_options (MkPath d) oa q ti))
        w tr out w)).
Proof.
  intros H.
  destruct (yt_downloader_cases url td oa q ti) as [[e He]|(s & d & -> & Hs & -> & He)];
    rewrite He in H.
  - destruct H as (-> & -> & ->). split; [done|]. left. eauto.
  - pose proof H as (-> & _)%exec_fetch. split; [done|]. right. by exists s, d.
Qed.

(** The exceptions [yt_downloader] raises before its first call. *)
Lemma yt_downloader_raise_cases url td oa q ti e :
  yt_downloader url td oa q ti = Raise e →
  (e = Exn ValueError (lit "URL cannot be empty") ∧
   (truthy url = false ∨ ∃ s, url = VStr s ∧ strip s = [])) ∨
  (exn_cls e = AttributeError ∧ truthy url = true ∧ ∀ s, url ≠ VStr s) ∨
  (exn_cls e = TypeError ∧ (∃ s, url = VStr s ∧ strip s ≠ []) ∧ ∀ d, td ≠ VStr d).
Proof.
  unfold yt_downloader. prog_unfold.
  destruct url as [|[]|z|s]; simpl.
  - intros [= <-]. left. eauto.
  - intros [= <-]. right; left. done.
  - intros [= <-]. left. eauto.
  - destruct z; simpl; intros [= <-]; [left; eauto|right; left; done..].
  - destruct s as [|c s]; simpl; [intros [= <-]; left; eauto|].
    destruct (strip (c :: s)) as [|c' s'] eqn:Hs; simpl.
    + intros [= <-]. left. split; [done|]. right. eauto.
    + destruct td as [| | |d]; simpl; try done; intros [= <-].
      all: right; right; split; [done|]; split; [|done].
      all: exists (c :: s); by rewrite Hs.
Qed.

(** X4: [yt_downloader] rejects its url with [ValueError("URL cannot be
    empty")] before making any call exactly when the url is falsy ([None],
    [""], [0], [False]) or a string of white space only. *)
Theorem url_validation (url target_dir only_audio quality title : pyval) :
  yt_downloader url target_dir only_audio quality title
    = Raise (Exn ValueError (lit "URL cannot be empty"))
  ↔ truthy url = false ∨ ∃ s, url = VStr s ∧ whitespace_only s.
Proof.
  split.
  - intros H. apply yt_downloader_raise_cases in H
      as [(_ & [?|(s & -> & Hs)])|[(? & _)|(? & _)]]; try done; [by left|].
    right. exists s. split; [done|]. by apply strip_nil_iff.
  - unfold yt_downloader. prog_unfold.
    intros [Hu|(s & -> & Hs)].
    + by rewrite Hu.
    + apply strip_nil_iff in Hs. destruct s as [|c s]; [done|]. simpl.
      by rewrite Hs.
Qed.

(** X5: [yt_downloader] checks its arguments before it has any effect, and
    creates the target directory before it contacts the provider: a run
    that makes no call raises [ValueError], [AttributeError] (a url that
    is not a string) or [TypeError] (a target directory that is not one);
    any other run starts with [mkdir] on the target directory, and when
    that fails nothing else is called and the error reaches the caller as
    it is. *)
Theorem directory_is_created_first (url target_dir only_audio quality title : pyval)
    (w : world) (tr : list event) (out : exn + Path) (w' : world) :
  exec (yt_downloader url target_dir only_audio quality title) w tr out w' →
  (tr = [] ∧
   ∃ e, out = inl e ∧ exn_cls e ∈ [ValueError; AttributeError; TypeError]) ∨
  (∃ d r rest, target_dir = VStr d ∧ tr = Ev (Mkdir (MkPath d)) r :: rest ∧
     ∀ e, r = inl e → rest = [] ∧ out = inl e).
Proof.
  intros H. apply exec_yt_downloader in H
    as (-> & [(e & He & -> & ->)|(s & d & -> & Hs & -> & H)]).
  - left. split; [done|]. exists e. split; [done|].
    apply yt_downloader_raise_cases in He as [(-> & _)|[(-> & _)|(-> & _)]];
      simpl; rewrite !elem_of_cons; tauto.
  - right. apply exec_fetch in H
      as (_ & [(e & -> & ->)|[(e & -> & ->)|(y & t1 & out1 & rx & -> & _ & _)]]).
    + eexists d, _, _. split; [done|]. split; [done|]. by intros ? [= ->].
    + eexists d, _, _. split; [done|]. split; [done|]. done.
    + eexists d, _, _. split; [done|]. split; [done|]. done.
Qed.

Lemma directory_is_created_first_witness :
  ∃ tr out w',
    exec sample_fetch no_log tr out w' ∧
    ∃ d r rest, VStr sample_dir = VStr d ∧ tr = Ev (Mkdir (MkPath d)) r :: rest.
Proof.
  pose proof (interp_exec (answer_of view_reported) sample_fetch no_log
                (answer_of_valid _)) as H.
  eexists _, _, _. split; [exact H|].
  destruct (directory_is_created_first (VStr sample_url) (VStr sample_dir)
              (VBool true) (VStr (lit "highest")) VNone _ _ _ _ H)
    as [[Hn _]|(d & r & rest & Hd & Htr & _)]; [by vm_compute in Hn|].
  by exists d, r, rest.
Defined.

(** The calls of the [with] block other than on the provider object itself
    are calls on the file system. *)
Lemma resolve_output_trace y url d w t1 out1 w1 :
  exec (resolve_output y url d) w t1 out1 w1 →
  ∃ r rest, t1 = Ev (ExtractInfo y url) r :: rest ∧
    Forall (λ ev, is_fs_kind (kind_of ev) = true) rest ∧
    (r = inr None → rest = [] ∧ out1 = inl none_has_no_get).
Proof.
  rewrite resolve_output_split. intros H.
  apply exec_bind in H as [(e & [_ ->]%exec_call & ->)
                          |(oi & w2 & tr1 & tr2 & [Hs ->]%exec_call & H & ->)].
  { eexists _, []. split; [done|]. split; [constructor|]. done. }
  simpl in Hs. subst w2. destruct oi as [info|].
  - apply exec_bind in H as [(e & (_ & ? & _) & _)
                            |(? & ? & t1 & t2 & (-> & [= ->] & ->) & H2 & ->)]; [done|].
    apply exec_resolve_from_info in H2 as (_ & Hk & _).
    eexists _, _. split; [done|]. split; [done|]. done.
  - apply exec_bind in H as [(e & (-> & [= ->] & ->) & ->)
                            |(? & ? & t1 & t2 & (_ & ? & _) & _)]; [|done].
    eexists _, []. split; [done|]. split; [constructor|]. done.
Qed.

Lemma fs_kind_not_provider rest :
  Forall (λ ev, is_fs_kind (kind_of ev) = true) rest →
  omap opened_provider rest = [] ∧ omap closed_provider rest = [] ∧
  omap extracted rest = [].
Proof.
  induction 1 as [|[A o r] rest Hk _ (IH1 & IH2 & IH3)]; [done|].
  destruct o; simpl in *; done.
Qed.

(** X6: [yt_downloader] closes every provider object it creates: in every
    run the objects whose [__exit__] is called are the objects created (at
    most one), and when one was created closing it is the last call of the
    run, whether the download succeeded or not. *)
Theorem provider_is_always_closed (url target_dir only_audio quality title : pyval)
    (w : world) (tr : list event) (out : exn + Path) (w' : world) :
  exec (yt_downloader url target_dir only_audio quality title) w tr out w' →
  omap closed_provider tr = omap opened_provider tr ∧
  (length (omap opened_provider tr) ≤ 1)%nat ∧
  (omap opened_provider tr ≠ [] → last (calls tr) = Some KYdlExit).
Proof.
  intros H. apply exec_yt_downloader in H
    as (-> & [(e & He & -> & ->)|(s & d & -> & Hs & -> & H)]);
    [simpl; split; [done|]; split; [lia|done]|].
  apply exec_fetch in H
    as (_ & [(e & -> & ->)|[(e & -> & ->)|(y & t1 & out1 & rx & -> & H & _)]]);
    [simpl; split; [done|]; split; [lia|done]..|].
  apply resolve_output_trace in H as (r & rest & -> & Hfs & _).
  apply fs_kind_not_provider in Hfs as (Ho & Hc & _).
  simpl. rewrite !omap_app, Ho, Hc. simpl. split; [done|]. split; [lia|].
  intros _. unfold calls. rewrite !fmap_app. simpl.
  by rewrite !app_comm_cons, last_snoc.
Qed.

Lemma provider_is_always_closed_witness :
  omap closed_provider (interp (answer_of view_reported) sample_fetch no_log).1.1
  = omap opened_provider (interp (answer_of view_reported) sample_fetch no_log).1.1 ∧
  omap opened_provider (interp (answer_of view_reported) sample_fetch no_log).1.1
  = [0%N].
Proof.
  pose proof (interp_exec (answer_of view_reported) sample_fetch no_log
                (answer_of_valid _)) as H.
  destruct (provider_is_always_closed (VStr sample_url) (VStr sample_dir)
              (VBool true) (VStr (lit "highest")) VNone _ _ _ _ H) as (Hc & _).
  split; [exact Hc|]. vm_compute. reflexivity.
Defined.

(** X7: when [extract_info] returns [None] (what the provider does for a
    failed download under [ignoreerrors], which the options always set),
    [yt_downloader] looks for no file: it closes the provider and raises
    ["Error downloading <url>: 'NoneType' object has no attribute 'get'"],
    or the error of the close if that fails too. *)
Theorem none_info_is_an_error (url target_dir only_audio quality title : pyval)
    (w : world) (tr : list event) (out : exn + Path) (w' : world) :
  exec (yt_downloader url target_dir only_audio quality title) w tr out w' →
  None ∈ omap extracted tr →
  calls tr = [KMkdir; KYdlOpen; KExtractInfo; KYdlExit] ∧
  ∃ e, out = inl (Exn PlainException (error_downloading url e)) ∧
       (last (call_errors tr) = None → e = none_has_no_get) ∧
       (∀ e', last (call_errors tr) = Some e' → e = e').
Proof.
  intros H Hn. apply exec_yt_downloader in H
    as (-> & [(e & He & -> & ->)|(s & d & -> & Hs & -> & H)]);
    [by apply elem_of_nil in Hn|].
  apply exec_fetch in H
    as (_ & [(e & -> & ->)|[(e & -> & ->)|(y & t1 & out1 & rx & -> & H & ->)]]);
    [by simpl in Hn; apply elem_of_nil in Hn..|].
  apply resolve_output_trace in H as (r & rest & -> & Hfs & Hr).
  apply fs_kind_not_provider in Hfs as (_ & _ & Hx).
  simpl in Hn. rewrite omap_app, Hx in Hn.
  destruct r as [e|[i|]]; simpl in Hn.
  - by apply elem_of_nil in Hn.
  - by apply elem_of_cons in Hn as [?|?%elem_of_nil].
  - destruct (Hr eq_refl) as [-> ->]. split; [done|].
    destruct rx as [e|[]]; simpl.
    + exists e. split; [done|]. split; [done|]. by intros e' [= <-].
    + exists none_has_no_get. done.
Qed.

Lemma none_info_is_an_error_witness :
  None ∈ omap extracted
           (interp (provider_returning_none view_reported) sample_fetch no_log).1.1 ∧
  (interp (provider_returning_none view_reported) sample_fetch no_log).1.2
  = inl (Exn PlainException
           (lit "Error downloading https://youtu.be/dQw4w9WgXcQ: 'NoneType' object has no attribute 'get'")).
Proof.
  assert (Hv : valid_oracle (provider_returning_none view_reported)).
  { intros w A o. pose proof (answer_of_valid view_reported w A o) as H.
    unfold provider_returning_none. by destruct o. }
  pose proof (interp_exec _ sample_fetch no_log Hv) as H.
  assert (Hn : None ∈ omap extracted
             (interp (provider_returning_none view_reported) sample_fetch no_log).1.1).
  { vm_compute. apply elem_of_cons. by left. }
  split; [exact Hn|].
  destruct (none_info_is_an_error (VStr sample_url) (VStr sample_dir)
              (VBool true) (VStr (lit "highest")) VNone _ _ _ _ H Hn)
    as (_ & e & -> & He & _).
  by rewrite (He eq_refl).
Defined.

(** A failed call in a run of [yt_downloader]. *)
Lemma exec_yt_downloader_failed_call url td oa q ti w tr out w' e :
  exec (yt_downloader url td oa q ti) w tr out w' →
  last (call_errors tr) = Some e →
  out = inl (if decide (calls tr = [KMkdir]) then e
             else Exn PlainException (error_downloading url e)) ∧
  ∃ pre ev rest, tr = pre ++ ev :: rest ∧ call_error ev = Some e ∧
    (calls rest = [] ∨ calls rest = [KYdlExit]).
Proof.
  intros H He. apply exec_yt_downloader in H
    as (-> & [(e0 & _ & -> & ->)|(s & d & -> & Hs & -> & H)]); [done|].
  apply exec_fetch in H
    as (_ & [(e0 & -> & ->)|[(e0 & -> & ->)|(y & t1 & out1 & rx & -> & H & ->)]]).
  - injection He as ->. split; [done|]. exists [], (Ev (Mkdir (MkPath d)) (inl e)), [].
    split; [done|]. split; [done|]. by left.
  - injection He as ->. split; [done|].
    eexists [_], (Ev (YdlOpen _) (inl e)), []. split; [done|]. split; [done|]. by left.
  - assert (Hc : calls (Ev (Mkdir (MkPath d)) (inr ())
                   :: Ev (YdlOpen (_prepare_download_options (MkPath d) oa q ti)) (inr y)
                   :: t1 ++ [Ev (YdlExit y) rx]) ≠ [KMkdir]) by done.
    destruct (decide _) as [?|_]; [done|].
    change (last (call_errors ([Ev (Mkdir (MkPath d)) (inr ());
              Ev (YdlOpen (_prepare_download_options (MkPath d) oa q ti)) (inr y)]
              ++ t1 ++ [Ev (YdlExit y) rx])) = Some e) in He.
    rewrite !call_errors_app in He. simpl in He.
    destruct rx as [e'|[]]; simpl in He.
    + rewrite last_snoc in He. injection He as ->. split; [done|].
      eexists (_ :: _ :: t1), (Ev (YdlExit y) (inl e)), [].
      split; [done|]. split; [done|]. by left.
    + rewrite app_nil_r in He.
      destruct (strict_exec _ _ _ _ _ (strict_resolve_output y (VStr s) (MkPath d)) H)
        as [Hn|(pre & ev & e' & -> & Hev & Hpre & ->)].
      * by rewrite Hn in He.
      * rewrite call_errors_app, Hpre in He. simpl in He. rewrite Hev in He.
        injection He as ->. split; [done|].
        eexists (_ :: _ :: pre), ev, [_]. split; [by rewrite <- app_assoc|].
        split; [done|]. by right.
Qed.

(** X8: [yt_downloader] swallows no failure of a call it makes: whenever
    a call fails (creating the directory, the provider, or listing,
    probing and dating files while the output is located) the function
    raises; nothing more is attempted except closing the provider; and the
    error of the last failed call reaches the caller, as it is for [mkdir]
    and as ["Error downloading <url>: <error>"] otherwise. *)
Theorem failed_call_is_reported (url target_dir only_audio quality title : pyval)
    (w : world) (tr : list event) (out : exn + Path) (w' : world) (e : exn) :
  exec (yt_downloader url target_dir only_audio quality title) w tr out w' →
  last (call_errors tr) = Some e →
  out = inl (if decide (calls tr = [KMkdir]) then e
             else Exn PlainException (error_downloading url e)) ∧
  ∃ pre ev rest, tr = pre ++ ev :: rest ∧ call_error ev = Some e ∧
    (calls rest = [] ∨ calls rest = [KYdlExit]).
Proof. apply exec_yt_downloader_failed_call. Qed.

Lemma failed_call_is_reported_witness :
  last (call_errors
          (interp (glob_failing permission_denied view_empty) sample_fetch no_log).1.1)
    = Some permission_denied ∧
  (interp (glob_failing permission_denied view_empty) sample_fetch no_log).1.2
  = inl (Exn PlainException
           (lit "Error downloading https://youtu.be/dQw4w9WgXcQ: [Errno 13] Permission denied")).
Proof.
  assert (Hv : valid_oracle (glob_failing permission_denied view_empty)).
  { intros w A o. pose proof (answer_of_valid view_empty w A o) as H.
    unfold glob_failing. by destruct o. }
  pose proof (interp_exec _ sample_fetch no_log Hv) as H.
  assert (He : last (call_errors
             (interp (glob_failing permission_denied view_empty) sample_fetch no_log).1.1)
           = Some permission_denied) by (vm_compute; reflexivity).
  split; [exact He|].
  destruct (failed_call_is_reported (VStr sample_url) (VStr sample_dir)
              (VBool true) (VStr (lit "highest")) VNone _ _ _ _ _ H He) as [-> _].
  vm_compute. reflexivity.
Defined.

(** ** The audio and video entry points *)

Lemma yt_downloader_rejects url td oa q ti :
  truthy url = false ∨ (∃ s, url = VStr s ∧ whitespace_only s) →
  yt_downloader url td oa q ti = Raise (Exn ValueError (lit "URL cannot be empty")).
Proof.
  unfold yt_downloader. prog_unfold. intros [Hu|(s & -> & Hs)].
  - by rewrite Hu.
  - apply strip_nil_iff in Hs. destruct s as [|c s]; [done|]. simpl. by rewrite Hs.
Qed.

(** X9: [yt_audio_downloader] and [yt_video_downloader] run [yt_downloader]
    with [only_audio] fixed and wrap every exception once more: they return
    what it returns, and raise [Exception("Error downloading <url>: <e>")]
    for every [e] it raises. So neither raises a [ValueError]: a blank url
    gives [Exception("Error downloading <url>: URL cannot be empty")]
    without any call, and an error of the provider or of the file system
    reaches the caller with the prefix twice. *)
Theorem entry_points_wrap_every_error (audio : bool) (url target_dir quality title : pyval)
    (w : world) (tr : list event) (out : exn + Path) (w' : world) :
  exec ((if audio then yt_audio_downloader else yt_video_downloader)
          url target_dir quality title) w tr out w' →
  (∃ out1,
     exec (yt_downloader url target_dir (VBool audio) quality title) w tr out1 w' ∧
     out = match out1 with
           | inr p => inr p
           | inl e => inl (Exn PlainException (error_downloading url e))
           end) ∧
  (∀ e, out = inl e → exn_cls e = PlainException) ∧
  (truthy url = false ∨ (∃ s, url = VStr s ∧ whitespace_only s) →
   tr = [] ∧
   out = inl (Exn PlainException
                (lit "Error downloading " ++ py_str url ++ lit ": URL cannot be empty"))) ∧
  (∀ e, last (call_errors tr) = Some e → calls tr ≠ [KMkdir] →
   out = inl (Exn PlainException
                (lit "Error downloading " ++ py_str url ++ lit ": Error downloading "
                 ++ py_str url ++ lit ": " ++ exn_str e))).
Proof.
  intros H.
  assert (H1 : ∃ out1,
     exec (yt_downloader url target_dir (VBool audio) quality title) w tr out1 w' ∧
     out = match out1 with
           | inr p => inr p
           | inl e => inl (Exn PlainException (error_downloading url e))
           end).
  { assert (H' : exec (try_except
                (yt_downloader url target_dir (VBool audio) quality title)
                (λ e, Raise (Exn PlainException (error_downloading url e))))
              w tr out w') by (by destruct audio).
    apply exec_try_except in H' as [(p & H' & ->)
                                   |(e & w1 & t1 & t2 & H' & (-> & -> & ->) & ->)].
    - by exists (inr p).
    - exists (inl e). by rewrite app_nil_r. }
  destruct H1 as (out1 & H1 & ->). split; [by exists out1|]. split; [|split].
  - intros e. destruct out1; [|done]. by intros [= <-].
  - intros Hu. rewrite (yt_downloader_rejects _ _ _ _ _ Hu) in H1.
    by destruct H1 as (-> & -> & _).
  - intros e He Hk.
    destruct (exec_yt_downloader_failed_call _ _ _ _ _ _ _ _ _ _ H1 He) as [-> _].
    by destruct (decide _).
Qed.

Lemma entry_points_wrap_every_error_witness :
  (interp (provider_raising not_found view_empty)
     (yt_audio_downloader (VStr sample_url) (VStr sample_dir) (VStr (lit "highest")) VNone)
     no_log).1.2
  = inl (Exn PlainException
      (lit "Error downloading https://youtu.be/dQw4w9WgXcQ: Error downloading https://youtu.be/dQw4w9WgXcQ: HTTP Error 404")).
Proof.
  pose proof (interp_exec (provider_raising not_found view_empty)
                (yt_audio_downloader (VStr sample_url) (VStr sample_dir)
                   (VStr (lit "highest")) VNone) no_log
                (provider_raising_valid _ _)) as H.
  destruct (entry_points_wrap_every_error true _ _ _ _ _ _ _ _ H) as (_ & _ & _ & He).
  rewrite (He not_found); [|vm_compute; reflexivity|vm_compute; discriminate].
  vm_compute. reflexivity.
Defined.

(** ** The options given to the provider *)

Lemma opened_with_app t1 t2 : opened_with (t1 ++ t2) = opened_with t1 ++ opened_with t2.
Proof. apply omap_app. Qed.

Lemma fs_kind_not_opened rest :
  Forall (λ ev, is_fs_kind (kind_of ev) = true) rest → opened_with rest = [].
Proof.
  induction 1 as [|[A o r] rest Hk _ IH]; [done|].
  destruct o; simpl in *; done.
Qed.

(** [yt_downloader] creates at most one provider object, with the options
    [_prepare_download_options] builds from its arguments. *)
Lemma opened_with_yt_downloader url td oa q ti w tr out w' :
  exec (yt_downloader url td oa q ti) w tr out w' →
  opened_with tr = [] ∨
  ∃ d, td = VStr d ∧
    opened_with tr = [_prepare_download_options (MkPath d) oa q ti].
Proof.
  intros H. apply exec_yt_downloader in H
    as (-> & [(e & He & -> & ->)|(s & d & -> & Hs & -> & H)]); [by left|].
  apply exec_fetch in H
    as (_ & [(e & -> & ->)|[(e & -> & ->)|(y & t1 & out1 & rx & -> & H & _)]]).
  - by left.
  - right. by exists d.
  - right. exists d. split; [done|].
    apply resolve_output_trace in H as (r & rest & -> & Hfs & _).
    apply fs_kind_not_opened in Hfs. simpl. by rewrite opened_with_app, Hfs.
Qed.

(** X10: whatever its arguments, [yt_downloader] configures the provider
    with the same policy: 10 retries, 10 fragment retries, a socket timeout
    of 30 seconds, errors ignored, partial downloads continued, no
    subtitles; one [mp3] extraction or one [mp4] conversion as the only
    post-processor; and at most one provider object is created per call. *)
Theorem provider_policy_is_fixed (url target_dir only_audio quality title : pyval)
    (w : world) (tr : list event) (out : exn + Path) (w' : world) :
  exec (yt_downloader url target_dir only_audio quality title) w tr out w' →
  (length (opened_with tr) ≤ 1)%nat ∧
  ∀ opts, opts ∈ opened_with tr →
    retries opts = 10 ∧ fragment_retries opts = 10 ∧ socket_timeout opts = 30 ∧
    ignoreerrors opts = true ∧ continuedl opts = true ∧
    writesubtitles opts = false ∧ writeautomaticsub opts = false ∧
    length (postprocessors opts) = 1%nat.
Proof.
  intros H. apply opened_with_yt_downloader in H as [->|(d & -> & ->)].
  - split; [simpl; lia|]. by intros opts ?%elem_of_nil.
  - split; [simpl; lia|]. intros opts [->|?%elem_of_nil]%elem_of_cons; [|done].
    unfold _prepare_download_options. by destruct (truthy only_audio).
Qed.

Lemma provider_policy_is_fixed_witness :
  ∃ opts,
    opened_with (interp (answer_of view_reported) sample_fetch no_log).1.1 = [opts] ∧
    retries opts = 10 ∧ socket_timeout opts = 30 ∧ writesubtitles opts = false.
Proof.
  pose proof (interp_exec (answer_of view_reported) sample_fetch no_log
                (answer_of_valid _)) as H.
  destruct (provider_policy_is_fixed (VStr sample_url) (VStr sample_dir)
              (VBool true) (VStr (lit "highest")) VNone _ _ _ _ H) as [_ Hp].
  eexists. split; [vm_compute; reflexivity|].
  edestruct Hp as (? & _ & ? & _ & _ & ? & _); [|done].
  vm_compute. apply elem_of_cons. by left.
Defined.

(** X11: the mode and the format given to the provider depend on the truth
    value of [only_audio] and on whether [quality] is the string
    ["highest"], and on nothing else: audio is extracted exactly when
    [only_audio] is truthy (a non-empty string such as ["false"] or a
    non-zero number included), one of the two best formats is asked for
    exactly when [quality == "highest"], and every other quality (["lowest"],
    a misspelt or missing one) selects the worst format of the mode. *)
Theorem mode_and_format_selection (url target_dir only_audio quality title : pyval)
    (w : world) (tr : list event) (out : exn + Path) (w' : world) :
  exec (yt_downloader url target_dir only_audio quality title) w tr out w' →
  ∀ opts, opts ∈ opened_with tr →
    (extract_audio opts = Some true ↔ truthy only_audio = true) ∧
    (keepvideo opts = Some false ↔ truthy only_audio = true) ∧
    (format opts ∈ best_formats ↔ quality = VStr (lit "highest")) ∧
    (format opts ∈ worst_formats ↔ quality ≠ VStr (lit "highest")) ∧
    format opts
    = nth (if truthy only_audio then 0 else 1)
        (if decide (quality = VStr (lit "highest")) then best_formats else worst_formats)
        [].
Proof.
  intros H opts Ho.
  apply opened_with_yt_downloader in H as [Hn|(d & -> & Hn)]; rewrite Hn in Ho;
    [by apply elem_of_nil in Ho|].
  apply elem_of_cons in Ho as [->|?%elem_of_nil]; [|done].
  unfold _prepare_download_options, best_formats, worst_formats.
  destruct (truthy only_audio); simpl;
    (destruct (decide (quality = VStr (lit "highest"))) as [Hq|Hq];
     [rewrite bool_decide_eq_true_2 by done|rewrite bool_decide_eq_false_2 by done]);
    rewrite ?elem_of_cons, ?elem_of_nil; repeat split; try done;
    try (intros; exfalso; intuition congruence); intuition discriminate.
Qed.

Lemma mode_and_format_selection_witness :
  ∃ opts,
    opened_with (interp (answer_of view_reported) sloppy_fetch no_log).1.1 = [opts] ∧
    extract_audio opts = Some true ∧ format opts = lit "worstaudio".
Proof.
  pose proof (interp_exec (answer_of view_reported) sloppy_fetch no_log
                (answer_of_valid _)) as H.
  pose proof (mode_and_format_selection (VStr sample_url) (VStr sample_dir)
                (VStr (lit "false")) (VStr (lit "Highest")) VNone _ _ _ _ H) as Hp.
  eexists. split; [vm_compute; reflexivity|].
  edestruct Hp as (Ha & _ & _ & _ & Hf); [vm_compute; apply elem_of_cons; by left|].
  split; [by apply Ha|]. rewrite Hf. reflexivity.
Defined.

(** ** The task source *)

Lemma unpacked_lookup (items : list (string * pyval)) (d : task)
    (key : string) (v : pyval) :
  NoDup items.*1 →
  foldl (λ d kv, <[kv.1 := kv.2]> d) d items !! key = Some v ↔
  (key, v) ∈ items ∨ (key ∉ items.*1) ∧ d !! key = Some v.
Proof.
  revert d. induction items as [|[k x] items IH]; intros d Hnd; simpl.
  - split; [intros H; right; split; [apply not_elem_of_nil|done]|].
    by intros [?%elem_of_nil|[_ ?]].
  - apply NoDup_cons in Hnd as [Hk Hnd]. rewrite (IH _ Hnd).
    rewrite !elem_of_cons. destruct (decide (key = k)) as [->|Hne].
    + rewrite lookup_insert_eq. split.
      * intros [Hin|[_ [= ->]]]; [|by left; left].
        destruct Hk. apply list_elem_of_fmap. by exists (k, v).
      * intros [[[= ->]|Hin]|[Hn _]].
        -- right. done.
        -- destruct Hk. apply list_elem_of_fmap. by exists (k, v).
        -- destruct Hn. by left.
    + rewrite lookup_insert_ne by done. split.
      * intros [Hin|[Hn Hd]]; [by left; right|].
        right. split; [|done]. by intros [?|?].
      * intros [[[= ? ?]|Hin]|[Hn Hd]]; [done|by left|].
        right. split; [|done]. intros ?. apply Hn. by right.
Qed.

(** X12: what [_unified_download_tasks] makes of a configuration mapping.
    When ["urls"] cannot be iterated (a number, a boolean, [null]) it
    raises the [TypeError] of the [for]; when there is a url and the
    ["defaults"] are not a mapping it raises the [TypeError] of the dict
    display; without a url it returns the empty list, whatever the
    defaults are. Otherwise it returns one task per url (per member of a
    list, key of a dict or character of a string), in that order: the
    task's ["url"] is that url, also when the defaults carry a ["url"] of
    their own, and its other items are the items of the defaults (of the
    built-in fallback when the mapping has no ["defaults"]). *)
Theorem one_task_per_url (c : config) :
  (∀ v, get_urls c = NLeaf v → (∀ s, v ≠ VStr s) →
     _unified_download_tasks (DocDict c)
     = Raise (Exn TypeError
                (lit "'" ++ type_name v ++ lit "' object is not iterable"))) ∧
  (∀ urls, py_iter (get_urls c) = inr urls → urls ≠ [] →
     is_mapping (get_defaults c) = false →
     _unified_download_tasks (DocDict c)
     = Raise (Exn TypeError
                (lit "'" ++ node_type (get_defaults c)
                 ++ lit "' object is not a mapping"))) ∧
  (py_iter (get_urls c) = inr [] →
     _unified_download_tasks (DocDict c) = Ret []) ∧
  (∀ urls items, py_iter (get_urls c) = inr urls →
     get_defaults c = NMap items → NoDup items.*1 →
     ∃ tasks, _unified_download_tasks (DocDict c) = Ret tasks ∧
       length tasks = length urls ∧
       ∀ i t, tasks !! i = Some t →
         t !! "url" = urls !! i ∧
         ∀ key v, key ≠ "url" → t !! key = Some v ↔ (key, v) ∈ items).
Proof.
  rewrite unified_tasks_mapping. split; [|split; [|split]].
  - intros v -> Hv. destruct v; try done. by destruct (Hv s).
  - intros urls -> Hne Hm. destruct urls as [|u urls]; [done|].
    by destruct (get_defaults c).
  - by intros ->.
  - intros urls items -> -> Hnd. simpl.
    exists ((λ url, <["url" := url]>
                      (foldl (λ d kv, <[kv.1 := kv.2]> d) ∅ items)) <$> urls).
    split; [by destruct urls|]. split; [by rewrite length_fmap|].
    intros i t Ht. rewrite list_lookup_fmap in Ht.
    destruct (urls !! i) as [u|] eqn:Hu; [|done]. injection Ht as <-. split.
    + by rewrite lookup_insert_eq.
    + intros key v Hk. rewrite lookup_insert_ne by done.
      rewrite (unpacked_lookup items ∅ key v Hnd). split; [|by left].
      by intros [?|[_ ?]].
Qed.

(** X13: a configuration file that parses to something else than a mapping
    (a list, a number, the [None] of an empty YAML file) is not reported as
    a load failure: [_unified_download_tasks] runs outside the loader's
    [try], so the loader prints nothing and raises the [AttributeError] of
    [download_config.get]. *)
Theorem non_mapping_document_raises (yaml : bool) (config_file : pystr)
    (w : world) (tr : list event) (out : exn + list task) (w' : world)
    (doc : document) :
  exec (if yaml then get_download_tasks_from_yaml config_file
        else get_download_tasks_from_json config_file) w tr out w' →
  loaded_document tr = Some doc →
  (∀ c, doc ≠ DocDict c) →
  out = inl (Exn AttributeError
               (lit "'" ++ document_type doc ++ lit "' object has no attribute 'get'")) ∧
  calls tr = [if yaml then KLoadYaml else KLoadJson] ∧
  w' = w.
Proof.
  intros H Hd Hn.
  destruct yaml; simpl in H; destruct H as (r & w1 & tr1 & -> & -> & H);
    simpl in Hd; destruct r as [e|doc']; try done; injection Hd as ->;
    (destruct doc as [c|l|v]; [by destruct (Hn c)|..]);
    simpl in H; by destruct H as (-> & -> & ->).
Qed.

Lemma non_mapping_document_raises_witness :
  loaded_document
    (interp (loading (DocScalar VNone) view_empty)
       (get_download_tasks_from_yaml (lit "configuration.yaml")) no_log).1.1
    = Some (DocScalar VNone) ∧
  (interp (loading (DocScalar VNone) view_empty)
     (get_download_tasks_from_yaml (lit "configuration.yaml")) no_log).1.2
    = inl (Exn AttributeError (lit "'NoneType' object has no attribute 'get'")).
Proof.
  assert (Hv : valid_oracle (loading (DocScalar VNone) view_empty)).
  { intros w A o. pose proof (answer_of_valid view_empty w A o) as H.
    unfold loading. by destruct o. }
  pose proof (interp_exec _ (get_download_tasks_from_yaml (lit "configuration.yaml"))
                no_log Hv) as H.
  assert (Hd : loaded_document
    (interp (loading (DocScalar VNone) view_empty)
       (get_download_tasks_from_yaml (lit "configuration.yaml")) no_log).1.1
    = Some (DocScalar VNone)) by reflexivity.
  split; [exact Hd|].
  assert (Hn : ∀ c, DocScalar VNone ≠ DocDict c) by done.
  by destruct (non_mapping_document_raises true _ _ _ _ _ _ H Hd Hn) as (-> & _).
Defined.

Lemma unified_tasks_have_url (c : config) (tasks : list task) :
  _unified_download_tasks (DocDict c) = Ret tasks →
  ∃ urls, py_iter (get_urls c) = inr urls ∧
    Forall2 (λ u (t : task), t !! "url" = Some u) urls tasks.
Proof.
  rewrite unified_tasks_mapping.
  destruct (py_iter (get_urls c)) as [e|urls]; [done|]. intros H.
  exists urls. split; [done|].
  destruct (py_unpack (get_defaults c)) as [e|d].
  - destruct urls; [|done]. injection H as <-. constructor.
  - assert (tasks = (λ url, <["url" := url]> d) <$> urls) as ->
      by (by destruct urls; injection H as <-).
    apply Forall2_fmap_r, Forall_Forall2_diag, Forall_forall.
    intros u _. simpl. by rewrite lookup_insert_eq.
Qed.

Lemma result_urls_of_tasks (urls : list pyval) (tasks : list task)
    (results : list Result) :
  Forall2 (λ u (t : task), t !! "url" = Some u) urls tasks →
  Forall2 (λ t r, ends (download_task t) (inr r)) tasks results →
  result_url <$> results = urls.
Proof.
  intros Hu. revert results.
  induction Hu as [|u t urls tasks Hut _ IH]; intros results Hr;
    inversion Hr as [|? r ? results' Hend Hr']; subst; [done|].
  simpl. f_equal; [|by apply IH].
  by destruct (download_task_ends t u _ Hut Hend) as (r' & [= <-] & ?).
Qed.

(** X14: the tasks [_unified_download_tasks] builds from a configuration
    with at least one url can always be run: with a positive [max_workers],
    [run_download_tasks] returns on them, never raises, and its results
    carry the configured urls, in the order of the configuration, whatever
    the defaults are and however the downloads end. *)
Theorem configured_urls_give_results (c : config) (urls : list pyval)
    (tasks : list task) (max_workers : Z) (w : world) :
  py_iter (get_urls c) = inr urls → urls ≠ [] → 0 < max_workers →
  _unified_download_tasks (DocDict c) = Ret tasks →
  (∃ results w', run_download_tasks tasks max_workers w (inr results) w') ∧
  ∀ out w', run_download_tasks tasks max_workers w out w' →
    ∃ results, out = inr results ∧ result_url <$> results = urls.
Proof.
  intros Hc Hne Hk Ht.
  destruct (unified_tasks_have_url c tasks Ht) as (urls' & Hc' & Hu).
  rewrite Hc in Hc'. injection Hc' as <-.
  assert (Hne' : tasks ≠ []).
  { intros ->. apply Forall2_nil_inv_r in Hu. done. }
  assert (Hall : Forall (λ t : task, is_Some (t !! "url")) tasks).
  { apply Forall_forall. intros t Hin.
    apply list_elem_of_lookup in Hin as [i Hi].
    destruct (Forall2_lookup_r _ _ _ _ _ Hu Hi) as (u & _ & Hu'). eauto. }
  destruct (run_returns tasks max_workers w Hk Hne' Hall) as [Hex Hres].
  split; [done|]. intros out w' Hrun.
  destruct (Hres out w' Hrun) as (results & -> & Hends).
  exists results. split; [done|]. by eapply result_urls_of_tasks.
Qed.

Lemma configured_urls_give_results_witness :
  py_iter (get_urls sample_config)
    = inr [VStr sample_url; VStr (lit "https://youtu.be/second")] ∧
  ∃ tasks results w',
    _unified_download_tasks (DocDict sample_config) = Ret tasks ∧
    run_download_tasks tasks 10 no_log (inr results) w' ∧
    result_url <$> results = [VStr sample_url; VStr (lit "https://youtu.be/second")].
Proof.
  assert (Hk : 0 < 10) by lia.
  assert (Hne : [VStr sample_url; VStr (lit "https://youtu.be/second")] ≠ []) by done.
  split; [reflexivity|].
  destruct (configured_urls_give_results sample_config _ _ 10 no_log
              eq_refl Hne Hk eq_refl) as [(results & w' & Hrun) Hall].
  destruct (Hall _ _ Hrun) as (results' & [= <-] & Hu).
  eexists _, results, w'. split; [reflexivity|]. split; [exact Hrun|exact Hu].
Defined.

(** ** The worker and the two layers of defaults *)

Lemma exec_append_progress_calls line w tr out w' :
  exec (append_progress line) w tr out w' →
  Forall (λ ev, is_log_call ev = true) tr ∧ open_files w' = open_files w ∧
  ((∃ e, tr = [Ev LogOpen (inl e)]) ∨
   (∃ f r1 r2, tr = [Ev LogOpen (inr f); Ev (LogWrite f line) r1; Ev (LogClose f) r2])).
Proof.
  unfold append_progress. intros H.
  apply exec_bind in H as [(e & [Hs ->]%exec_call & ->)
                          |(f & w1 & tr1 & tr2 & [Hs ->]%exec_call & H & ->)];
    simpl in Hs.
  { subst. split; [by repeat constructor|]. split; [done|]. left. eauto. }
  destruct Hs as [Hf ->].
  apply exec_finally in H
    as (out1 & w2 & t1 & t2 & outf & [Hw ->]%exec_call & [Hc ->]%exec_call & -> & ->).
  split; [by repeat constructor|]. split; [|right; by eexists _, _, _].
  assert (Hw2 : ∃ buf, open_files w2 = <[f := buf]> (open_files w)).
  { destruct out1 as [e|[]]; simpl in Hw.
    - subst. simpl. eauto.
    - destruct Hw as (buf & _ & [-> | ->]); simpl; rewrite insert_insert_eq; eauto. }
  destruct Hw2 as (buf & Hw2).
  assert (Hd : open_files w' = delete f (open_files w2)).
  { destruct outf as [e|[]]; simpl in Hc; [by destruct Hc as [_ ->]|].
    by destruct Hc as (buf' & _ & ->). }
  rewrite Hd, Hw2, delete_insert_eq. by apply delete_id.
Qed.

Lemma log_calls_not_opened tr :
  Forall (λ ev, is_log_call ev = true) tr → opened_with tr = [].
Proof.
  induction 1 as [|[A o r] rest Hk _ IH]; [done|].
  destruct o; simpl in *; done.
Qed.

(** The options a worker gives to the provider are built from the fields
    of its task, with the worker's defaults for the missing ones. *)
Lemma opened_with_download_task (t : task) (u : pyval) w tr out w' opts :
  t !! "url" = Some u →
  exec (download_task t) w tr out w' →
  opts ∈ opened_with tr →
  ∃ d, get t "target_dir" (VStr (lit "./downloads")) = VStr d ∧
    opts = _prepare_download_options (MkPath d)
             (get t "only_audio" (VBool true))
             (get t "quality" (VStr (lit "highest")))
             (get t "title" VNone).
Proof.
  intros Hu H Ho.
  apply (exec_download_task t u) in H as (tr1 & out1 & tr2 & -> & H1 & H2); [|done].
  assert (H2' : opened_with tr2 = []).
  { destruct out1 as [e|path]; [by destruct H2 as (-> & _)|].
    destruct H2 as (out2 & H2 & _).
    by apply exec_append_progress_calls in H2 as [H2%log_calls_not_opened _]. }
  rewrite opened_with_app, H2', app_nil_r in Ho.
  apply opened_with_yt_downloader in H1 as [Hn|(d & Hd & Hn)]; rewrite Hn in Ho.
  - by apply elem_of_nil in Ho.
  - apply elem_of_cons in Ho as [->|?%elem_of_nil]; [|done]. by exists d.
Qed.

(** X15: the two layers of defaults disagree. For a configuration without
    ["defaults"] the task source fills in [only_audio = False] and
    [quality = "lowest"], and every worker asks the provider for the worst
    video format; for a configuration whose ["defaults"] are present but
    empty the worker's own defaults apply ([only_audio = True],
    [quality = "highest"]) and every worker asks for the best audio. In
    both cases the target directory is ["./downloads"] and no title is
    set. *)
Theorem default_layers_disagree (c : config) (tasks : list task) (t : task)
    (w : world) (tr : list event) (out : exn + Result) (w' : world)
    (opts : ydl_opts) :
  _unified_download_tasks (DocDict c) = Ret tasks →
  t ∈ tasks →
  exec (download_task t) w tr out w' →
  opts ∈ opened_with tr →
  (cfg_defaults c = None →
   opts = _prepare_download_options (MkPath (lit "./downloads"))
            (VBool false) (VStr (lit "lowest")) VNone ∧
   extract_audio opts = None ∧
   format opts = lit "worstvideo[ext=mp4]+worstaudio[ext=m4a]/worst[ext=mp4]") ∧
  (cfg_defaults c = Some (NMap []) →
   opts = _prepare_download_options (MkPath (lit "./downloads"))
            (VBool true) (VStr (lit "highest")) VNone ∧
   extract_audio opts = Some true ∧
   format opts = lit "bestaudio").
Proof.
  intros Hu Ht H Ho.
  assert (Hd : ∀ d, py_unpack (get_defaults c) = inr d →
            ∃ u, t = <["url" := u]> d).
  { intros d Hd. rewrite unified_tasks_mapping, Hd in Hu.
    destruct (py_iter (get_urls c)) as [e|urls]; [done|].
    assert (tasks = (λ url, <["url" := url]> d) <$> urls) as ->
      by (by destruct urls; injection Hu as <-).
    apply list_elem_of_fmap in Ht as (u & -> & _). by exists u. }
  split; intros Hc.
  - destruct (Hd task_defaults) as [u ->];
      [by unfold get_defaults; rewrite Hc|].
    destruct (opened_with_download_task _ u _ _ _ _ _ (lookup_insert_eq _ _ _) H Ho)
      as (d & Hdir & ->).
    unfold get in *. rewrite !lookup_insert_ne in * by done.
    assert (H1 : task_defaults !! "target_dir" = Some (VStr (lit "./downloads")))
      by (vm_compute; reflexivity).
    assert (H2 : task_defaults !! "only_audio" = Some (VBool false))
      by (vm_compute; reflexivity).
    assert (H3 : task_defaults !! "quality" = Some (VStr (lit "lowest")))
      by (vm_compute; reflexivity).
    assert (H4 : task_defaults !! "title" = None) by (vm_compute; reflexivity).
    rewrite H1 in Hdir. rewrite H2, H3, H4. simpl in *. injection Hdir as <-. done.
  - destruct (Hd ∅) as [u ->]; [by unfold get_defaults; rewrite Hc|].
    destruct (opened_with_download_task _ u _ _ _ _ _ (lookup_insert_eq _ _ _) H Ho)
      as (d & Hdir & ->).
    unfold get in *. rewrite !lookup_insert_ne in * by done.
    rewrite !lookup_empty in *. simpl in *. injection Hdir as <-. done.
Qed.

Lemma default_layers_disagree_witness :
  ∃ t opts,
    _unified_download_tasks (DocDict config_without_defaults) = Ret [t] ∧
    opened_with (interp (answer_of view_reported) (download_task t) no_log).1.1
      = [opts] ∧
    extract_audio opts = None ∧
    format opts = lit "worstvideo[ext=mp4]+worstaudio[ext=m4a]/worst[ext=mp4]".
Proof.
  pose proof (interp_exec (answer_of view_reported)
                (download_task (<["url" := VStr sample_url]> task_defaults)) no_log
                (answer_of_valid _)) as H.
  exists (<["url" := VStr sample_url]> task_defaults),
    (_prepare_download_options (MkPath (lit "./downloads"))
       (VBool false) (VStr (lit "lowest")) VNone).
  split; [reflexivity|]. split; [vm_compute; reflexivity|].
  assert (Ht : <["url" := VStr sample_url]> task_defaults
               ∈ [<["url" := VStr sample_url]> task_defaults])
    by (apply elem_of_cons; by left).
  assert (Ho : _prepare_download_options (MkPath (lit "./downloads"))
                 (VBool false) (VStr (lit "lowest")) VNone
               ∈ opened_with (interp (answer_of view_reported)
                   (download_task (<["url" := VStr sample_url]> task_defaults))
                   no_log).1.1)
    by (vm_compute; apply elem_of_cons; by left).
  destruct (default_layers_disagree config_without_defaults _ _ _ _ _ _ _
              eq_refl Ht H Ho) as [Hv _].
  by destruct (Hv eq_refl) as (_ & ? & ?).
Defined.

(** ** The worker and the progress log *)

Lemma no_log_call_no_file tr :
  Forall (λ ev, is_log_call ev = false) tr →
  omap opened_file tr = [] ∧ omap closed_file tr = [].
Proof.
  induction 1 as [|[A o r] rest Hk _ [IH1 IH2]]; [done|].
  destruct o; simpl in *; done.
Qed.

(** X16: a worker closes every file object it opens on the progress log:
    in every run of [download_task] the file objects closed are the file
    objects opened (at most one), also when the write fails, and the file
    objects that are open when the worker ends are those that were open
    when it started. *)
Theorem log_file_is_always_closed (t : task) (w : world) (tr : list event)
    (out : exn + Result) (w' : world) :
  exec (download_task t) w tr out w' →
  omap closed_file tr = omap opened_file tr ∧
  (length (omap opened_file tr) ≤ 1)%nat ∧
  open_files w' = open_files w.
Proof.
  intros H. destruct (t !! "url") as [u|] eqn:Hu.
  - destruct (exec_download_task t u _ _ _ _ Hu H) as (tr1 & out1 & tr2 & -> & H1 & H2).
    apply exec_yt_downloader_no_log in H1 as [_ [Ho Hc]%no_log_call_no_file].
    rewrite !omap_app, Ho, Hc. simpl.
    destruct out1 as [e|path]; [by destruct H2 as (-> & _ & ->); simpl; split; [|split; [lia|]]|].
    destruct H2 as (out2 & H2 & _).
    apply exec_append_progress_calls in H2
      as (_ & -> & [(e & ->)|(f & r1 & r2 & ->)]); simpl; (split; [done|]); split; (lia || done).
  - unfold download_task, getitem in H. rewrite Hu in H. simpl in H.
    destruct H as (-> & _ & ->). simpl. split; [done|]. split; [lia|done].
Qed.

Lemma log_file_is_always_closed_witness :
  omap opened_file
    (interp (write_failing disk_full view_reported) (download_task sample_task) no_log).1.1
    = [0%N] ∧
  omap closed_file
    (interp (write_failing disk_full view_reported) (download_task sample_task) no_log).1.1
    = [0%N] ∧
  open_files
    (interp (write_failing disk_full view_reported) (download_task sample_task) no_log).2
    = ∅.
Proof.
  assert (Hv : valid_oracle (write_failing disk_full view_reported)).
  { intros w A o. pose proof (answer_of_valid view_reported w A o) as H.
    unfold write_failing. by destruct o. }
  pose proof (interp_exec _ (download_task sample_task) no_log Hv) as H.
  destruct (log_file_is_always_closed _ _ _ _ _ H) as (Hc & _ & Hw).
  assert (Ho : omap opened_file
    (interp (write_failing disk_full view_reported) (download_task sample_task) no_log).1.1
    = [0%N]) by (vm_compute; reflexivity).
  split; [exact Ho|]. split; [by rewrite Hc|exact Hw].
Defined.

(** ** The command-line entry point *)









(** ** The file objects open during a batch *)

(** A worker that holds a file object is running. *)
Lemma holder_is_running (t : task) (σ : log_stage) (s : slot) :
  slot_at_stage t σ s → is_Some (holds σ) → is_running s = true.
Proof.
  destruct s as [t'|p|[e|r]]; simpl; [|done| |].
  - by intros [_ ->] [g Hg].
  - done.
  - destruct σ as [| | | |[]]; simpl; by intros ? [g Hg].
Qed.

Lemma held_le_running (stages : list log_stage) (l : list slot) :
  length stages = length l →
  (∀ i σ s, stages !! i = Some σ → l !! i = Some s →
            is_Some (holds σ) → is_running s = true) →
  (length (omap holds stages) ≤ running_count l)%nat.
Proof.
  revert l. induction stages as [|σ stages IH]; intros [|s l] Hlen H;
    simpl in *; try done; try lia.
  rewrite running_count_cons.
  assert (IH' : (length (omap holds stages) ≤ running_count l)%nat).
  { apply IH; [lia|]. intros i σi si Hσ Hs. by apply (H (S i)). }
  unfold omap in IH'. destruct (holds σ) as [f|] eqn:Hf; simpl; [|lia].
  rewrite (H 0%nat σ s eq_refl eq_refl) by (by rewrite Hf). lia.
Qed.

(** X19: a batch leaves no file object open: when [run_download_tasks]
    ends on tasks that have a url, the file objects open on the progress
    log are those that were open before the call, each with the text it
    had buffered; every file object opened by a worker has been closed,
    however the workers were interleaved and whichever calls failed. *)
Theorem batch_leaves_no_file_open (tasks : list task) (max_workers : Z)
    (w : world) (out : exn + list Result) (w' : world) :
  Forall (λ t : task, is_Some (t !! "url")) tasks →
  run_download_tasks tasks max_workers w out w' →
  open_files w' = open_files w.
Proof.
  intros Hurl Hrun.
  inversion Hrun as [e He|n st results He Hrtc Hr Hs|n st e He Hrtc Hr Hs]; subst;
    [done| |by rewrite (never_raised _ _ _ _ Hurl Hrtc) in Hr].
  destruct (files_inv_reachable _ _ _ _ Hurl Hrtc) as (stages & order & Hinv & Hf).
  assert (Hnone : omap holds stages = []).
  { assert (Hall : Forall (λ σ, holds σ = None) stages).
    { apply Forall_lookup. intros i σ Hσ.
      destruct (lookup_lt_is_Some_2 tasks i) as [t Ht].
      { rewrite <- (inv_stages _ _ _ _ _ Hinv). by eapply lookup_lt_Some. }
      destruct (lookup_lt_is_Some_2 (slots st) i) as [s Hsl].
      { rewrite (inv_length _ _ _ _ _ Hinv). by eapply lookup_lt_Some. }
      pose proof (inv_slots _ _ _ _ _ Hinv i t σ s Ht Hσ Hsl) as Hat.
      rewrite Hs, list_lookup_fmap in Hsl.
      destruct (results !! i) as [r|]; [|done]. injection Hsl as <-.
      destruct (holds σ) as [f|] eqn:Hh; [|done].
      by pose proof (holder_is_running t σ _ Hat (mk_is_Some _ _ Hh)). }
    clear -Hall. induction Hall as [|σ l Hσ _ IH]; [done|].
    simpl. by rewrite Hσ. }
  symmetry. apply map_subseteq_size_eq.
  - apply map_subseteq_spec. apply (fi_kept _ _ _ Hf).
  - rewrite (fi_size _ _ _ Hf), Hnone. simpl. lia.
Qed.

Lemma batch_leaves_no_file_open_witness :
  Forall (λ t : task, is_Some (t !! "url")) sample_batch ∧
  ∃ results w',
    run_download_tasks sample_batch 10 no_log (inr results) w' ∧ open_files w' = ∅.
Proof.
  assert (Hurl : Forall (λ t : task, is_Some (t !! "url")) sample_batch).
  { repeat constructor; by eexists. }
  assert (Hk : 0 < 10) by lia.
  assert (Hne : sample_batch ≠ []) by done.
  split; [exact Hurl|].
  destruct (run_returns sample_batch 10 no_log Hk Hne Hurl)
    as [(results & w' & Hrun) _].
  exists results, w'. split; [exact Hrun|].
  exact (batch_leaves_no_file_open _ _ _ _ _ Hurl Hrun).
Defined.

(** X20: at every moment of a batch on tasks that have a url, the file
    objects open on the progress log are, besides those open before the
    call, at most one per running worker, hence at most as many as the pool
    has workers. So the appends are exclusive when the pool has a single
    worker ([max_workers = 1], or a batch of one task) and no file object
    was open before. *)
Theorem open_log_files_are_bounded (tasks : list task) (max_workers : Z)
    (workers : nat) (w : world) :
  Forall (λ t : task, is_Some (t !! "url")) tasks →
  ThreadPoolExecutor (Z.min max_workers (Z.of_nat (length tasks))) = inr workers →
  (∀ st, rtc (pool_step workers) (submitted tasks w) st →
     (size (open_files (pworld st))
      ≤ size (open_files w) + running_count (slots st))%nat ∧
     (running_count (slots st) ≤ workers)%nat) ∧
  (Z.min max_workers (Z.of_nat (length tasks)) = 1 → open_files w = ∅ →
   exclusive_appends workers tasks w).
Proof.
  intros Hurl Hex.
  assert (Hb : ∀ st, rtc (pool_step workers) (submitted tasks w) st →
     (size (open_files (pworld st))
      ≤ size (open_files w) + running_count (slots st))%nat ∧
     (running_count (slots st) ≤ workers)%nat).
  { intros st Hrtc. split; [|by eapply running_bounded].
    destruct (files_inv_reachable _ _ _ _ Hurl Hrtc) as (stages & order & Hinv & Hf).
    rewrite (fi_size _ _ _ Hf). apply Nat.add_le_mono_l, held_le_running.
    - by rewrite (inv_stages _ _ _ _ _ Hinv), (inv_length _ _ _ _ _ Hinv).
    - intros i σ s Hσ Hs Hh.
      destruct (lookup_lt_is_Some_2 tasks i) as [t Ht].
      { rewrite <- (inv_stages _ _ _ _ _ Hinv). by eapply lookup_lt_Some. }
      eapply holder_is_running; [|done]. by eapply inv_slots. }
  split; [done|]. intros H1 Hw st Hrtc.
  destruct (Hb st Hrtc) as [Hsz Hrun].
  rewrite H1 in Hex. injection Hex as <-.
  rewrite Hw, map_size_empty in Hsz. simpl in Hrun. lia.
Qed.

Lemma open_log_files_are_bounded_witness :
  Forall (λ t : task, is_Some (t !! "url")) sample_batch ∧
  ThreadPoolExecutor (Z.min 10 (Z.of_nat (length sample_batch))) = inr 2%nat ∧
  ∃ st,
    schedule 2 (answer_of view_reported) both_open (submitted sample_batch no_log)
      = Some st ∧
    (size (open_files (pworld st)) ≤ 0 + running_count (slots st))%nat.
Proof.
  assert (Hurl : Forall (λ t : task, is_Some (t !! "url")) sample_batch).
  { repeat constructor; by eexists. }
  assert (Hex : ThreadPoolExecutor (Z.min 10 (Z.of_nat (length sample_batch)))
                = inr 2%nat) by reflexivity.
  split; [exact Hurl|]. split; [exact Hex|].
  destruct (schedule 2 (answer_of view_reported) both_open
              (submitted sample_batch no_log)) as [st|] eqn:Hs;
    [|by vm_compute in Hs].
  exists st. split; [done|].
  pose proof (schedule_sound _ _ _ _ _ (answer_of_valid view_reported) Hs) as Hrtc.
  destruct (open_log_files_are_bounded sample_batch 10 2 no_log Hurl Hex) as [Hb _].
  by destruct (Hb st Hrtc) as [Hsz _].
Defined.

(** ** A pool of one worker *)













(** ** The reasons for which [yt_downloader] raises *)

Lemma unfailing_bind {A B} (E : exn → Prop) (Q : A → Prop) (Q' : B → Prop)
    (p : Prog A) (f : A → Prog B) :
  unfailing E Q p → (∀ a, Q a → unfailing E Q' (f a)) → unfailing E Q' (bind p f).
Proof.
  intros Hp Hf. induction p as [a|e|C o k IH]; simpl in *; [by apply Hf|done|].
  intros r Hr. by apply IH, Hp.
Qed.

Lemma unfailing_call {A} (E : exn → Prop) (o : op (exn + A)) :
  (∀ e, call_error (Ev o (inl e)) = Some e) → unfailing E (λ _, True) (call o).
Proof. intros Ho [e|a] Hr; [by rewrite Ho in Hr|done]. Qed.

Lemma unfailing_exec {R} (E : exn → Prop) (Q : R → Prop) (p : Prog R) w tr out w' :
  unfailing E Q p → exec p w tr out w' → call_errors tr = [] →
  match out with inl e => E e | inr r => Q r end.
Proof.
  revert w tr. induction p as [a|e|C o k IH]; intros w tr Hp H Hn; simpl in *.
  - by destruct H as (_ & -> & _).
  - by destruct H as (_ & -> & _).
  - destruct H as (r & w1 & tr1 & _ & -> & H).
    unfold call_errors in Hn. simpl in Hn. fold (call_error (Ev o r)) in Hn.
    destruct (call_error (Ev o r)) eqn:Hr; [done|].
    exact (IH r w1 tr1 (Hp r Hr) H Hn).
Qed.

Lemma unfailing_stat_all (E : exn → Prop) files :
  unfailing E (λ keyed, length keyed = length files) (stat_all files).
Proof.
  induction files as [|f files IH]; [done|].
  rewrite stat_all_cons.
  eapply unfailing_bind; [by apply unfailing_call|]. intros m _.
  eapply unfailing_bind; [apply IH|]. intros keyed Hk. simpl. by rewrite Hk.
Qed.

Lemma unfailing_resolve_from_info info d :
  unfailing (λ e, e = no_files) (λ _, True) (resolve_from_info info d).
Proof.
  unfold resolve_from_info.
  eapply (unfailing_bind _ (λ _, True)).
  { destruct (reported_files info); [by apply unfailing_call|done]. }
  intros files2 _. eapply (unfailing_bind _ (λ _, True)).
  { destruct files2 as [|? ?]; [|done]. destruct (filename info); [|done].
    eapply unfailing_bind; [by apply unfailing_call|done]. }
  intros [|f1 [|f2 files3]] _; [done..|].
  eapply (unfailing_bind _ (λ sorted, sorted ≠ [])).
  - unfold sort_by_mtime.
    eapply (unfailing_bind _ _ _ (stat_all _)); [apply unfailing_stat_all|].
    intros keyed Hk. simpl. intros Hnil%(f_equal length).
    rewrite length_fmap, sort_desc_length, Hk in Hnil. done.
  - by intros [|? ?].
Qed.

Lemma unfailing_resolve_output y url d :
  unfailing (λ e, e = no_files ∨ e = none_has_no_get) (λ _, True)
    (resolve_output y url d).
Proof.
  rewrite resolve_output_split.
  eapply unfailing_bind; [by apply unfailing_call|]. intros [info|] _.
  - eapply (unfailing_bind _ (λ _, True)); [done|]. intros info' _.
    pose proof (unfailing_resolve_from_info info' d) as H.
    revert H. generalize (resolve_from_info info' d). intros p.
    induction p as [a|e|C o k IH]; simpl; [done|by left|].
    intros H r Hr. by apply IH, H.
  - simpl. by right.
Qed.

(** X22: [yt_downloader] raises for no other reason than these: its
    arguments are rejected before any call ([ValueError], [AttributeError],
    [TypeError]); a call it makes fails; the provider returns [None]; or no
    method finds a file. In a run in which no call fails the last two are
    reported as ["Error downloading <url>: 'NoneType' object has no
    attribute 'get'"] and ["Error downloading <url>: No files were
    downloaded"]; in particular the [IndexError] of [downloaded_files[0]]
    cannot arise. *)
Theorem reasons_to_raise (url target_dir only_audio quality title : pyval)
    (w : world) (tr : list event) (out : exn + Path) (w' : world) (e : exn) :
  exec (yt_downloader url target_dir only_audio quality title) w tr out w' →
  out = inl e →
  (tr = [] ∧ exn_cls e ∈ [ValueError; AttributeError; TypeError]) ∨
  call_errors tr ≠ [] ∨
  e = Exn PlainException (error_downloading url none_has_no_get) ∨
  e = Exn PlainException (error_downloading url no_files).
Proof.
  intros H ->. apply exec_yt_downloader in H
    as (-> & [(e0 & He & -> & [= ->])|(s & d & -> & Hs & -> & H)]).
  { left. split; [done|].
    apply yt_downloader_raise_cases in He as [(-> & _)|[(-> & _)|(-> & _)]];
      simpl; rewrite !elem_of_cons; tauto. }
  right.
  apply exec_fetch in H
    as (_ & [(e0 & -> & _)|[(e0 & -> & _)|(y & t1 & out1 & rx & -> & H & Ho)]]);
    [by left..|].
  destruct (decide (call_errors
              (Ev (Mkdir (MkPath d)) (inr ())
               :: Ev (YdlOpen (_prepare_download_options (MkPath d)
                                 only_audio quality title)) (inr y)
               :: t1 ++ [Ev (YdlExit y) rx]) = [])) as [Hn|Hn]; [|by left].
  right.
  change (call_errors ([Ev (Mkdir (MkPath d)) (inr ());
            Ev (YdlOpen (_prepare_download_options (MkPath d)
                           only_audio quality title)) (inr y)]
            ++ t1 ++ [Ev (YdlExit y) rx]) = []) in Hn.
  rewrite !call_errors_app in Hn. simpl in Hn.
  apply app_eq_nil in Hn as [Hn1 Hn2].
  destruct rx as [e'|[]]; [done|].
  pose proof (unfailing_exec _ _ _ _ _ _ _ (unfailing_resolve_output y (VStr s) (MkPath d))
                H Hn1) as Hout.
  destruct out1 as [e1|p]; [|done]. injection Ho as ->.
  destruct Hout as [->| ->]; [by right|by left].
Qed.

Lemma reasons_to_raise_witness :
  call_errors (interp (answer_of view_empty) sample_fetch no_log).1.1 = [] ∧
  (interp (answer_of view_empty) sample_fetch no_log).1.2
  = inl (Exn PlainException
           (lit "Error downloading https://youtu.be/dQw4w9WgXcQ: No files were downloaded")).
Proof.
  pose proof (interp_exec (answer_of view_empty) sample_fetch no_log
                (answer_of_valid _)) as H.
  assert (Hn : call_errors (interp (answer_of view_empty) sample_fetch no_log).1.1 = [])
    by (vm_compute; reflexivity).
  split; [exact Hn|].
  destruct ((interp (answer_of view_empty) sample_fetch no_log).1.2) as [e|p] eqn:Ho;
    [|by vm_compute in Ho].
  destruct (reasons_to_raise (VStr sample_url) (VStr sample_dir) (VBool true)
              (VStr (lit "highest")) VNone _ _ _ _ e H eq_refl)
    as [[Ht _]|[Hc|[->| ->]]].
  - by vm_compute in Ht.
  - by destruct Hc.
  - by vm_compute in Ho.
  - reflexivity.
Defined.

(** ** What the result of a worker tells *)

Lemma log_calls_errors tr :
  Forall (λ ev, is_log_call ev = true) tr → call_errors tr = log_errors tr.
Proof.
  induction 1 as [|ev rest Hk _ IH]; [done|].
  assert (Hev : call_error ev = log_error ev)
    by (destruct ev as [A o r]; destruct o; done).
  unfold call_errors, log_errors in *.
  change (omap call_error (ev :: rest))
    with (match call_error ev with
          | Some y => y :: omap call_error rest
          | None => omap call_error rest
          end).
  by rewrite Hev, IH.
Qed.

(** X23: the result of a worker tells whether anything failed. A
    [Success] is returned only by a run in which no call failed and whose
    last call closed the progress log; and when a call failed, the result
    is a [Failure] for the task's url whose error text ends with the text
    of the last failed call (it is that text for [mkdir] and for the
    progress log, and that text after ["Error downloading <url>: "]
    otherwise). *)
Theorem result_tells_what_failed (t : task) (u : pyval) (w : world)
    (tr : list event) (out : exn + Result) (w' : world) :
  t !! "url" = Some u →
  exec (download_task t) w tr out w' →
  (∀ path, out = inr (Success u path) →
     call_errors tr = [] ∧ last (calls tr) = Some KLogClose) ∧
  (∀ e, last (call_errors tr) = Some e →
     out = inr (Failure u (exn_str e)) ∨
     out = inr (Failure u (lit "Error downloading " ++ py_str u ++ lit ": "
                           ++ exn_str e))).
Proof.
  intros Hu H.
  destruct (exec_download_task t u _ _ _ _ Hu H) as (tr1 & out1 & tr2 & -> & H1 & H2).
  assert (Hfetch : ∀ e, last (call_errors tr1) = Some e →
            out1 = inl e ∨ out1 = inl (Exn PlainException (error_downloading u e))).
  { intros e He.
    destruct (exec_yt_downloader_failed_call _ _ _ _ _ _ _ _ _ _ H1 He) as [-> _].
    destruct (decide _); eauto. }
  destruct out1 as [e1|path1].
  - destruct H2 as (-> & -> & ->). rewrite app_nil_r. split; [done|].
    intros e He. by destruct (Hfetch e He) as [[= ->]|[= ->]]; [left|right].
  - assert (Hn1 : call_errors tr1 = []).
    { destruct (call_errors tr1) as [|e0 l] eqn:Hc using rev_ind; [done|].
      rewrite last_snoc in Hfetch. by destruct (Hfetch e0 eq_refl). }
    destruct H2 as (out2 & H2 & ->).
    pose proof (exec_append_progress _ _ _ _ _ H2) as Hlog.
    apply exec_append_progress_calls in H2 as (Hcalls & _ & Hshape).
    rewrite call_errors_app, Hn1, (log_calls_errors _ Hcalls). simpl.
    destruct out2 as [e2|[]].
    + destruct Hlog as [Hlast _]. split; [done|].
      intros e He. rewrite Hlast in He. injection He as <-. by left.
    + destruct Hlog as [Hnone _]. rewrite Hnone. split; [|done].
      intros path _. split; [done|].
      destruct Hshape as [(e & ->)|(f & r1 & r2 & ->)]; [done|].
      unfold calls. rewrite fmap_app.
      change (kind_of <$> [Ev LogOpen (inr f);
                           Ev (LogWrite f (py_str u ++ newline)) r1;
                           Ev (LogClose f) r2])
        with ([KLogOpen; KLogWrite] ++ [KLogClose]).
      by rewrite app_assoc, last_snoc.
Qed.

Lemma result_tells_what_failed_witness :
  sample_task !! "url" = Some (VStr sample_url) ∧
  last (call_errors
          (interp (glob_failing permission_denied view_empty)
             (download_task sample_task) no_log).1.1) = Some permission_denied ∧
  (interp (glob_failing permission_denied view_empty)
     (download_task sample_task) no_log).1.2
  = inr (Failure (VStr sample_url)
           (lit "Error downloading https://youtu.be/dQw4w9WgXcQ: [Errno 13] Permission denied")).
Proof.
  assert (Hv : valid_oracle (glob_failing permission_denied view_empty)).
  { intros w A o. pose proof (answer_of_valid view_empty w A o) as H.
    unfold glob_failing. by destruct o. }
  pose proof (interp_exec _ (download_task sample_task) no_log Hv) as H.
  assert (Hu : sample_task !! "url" = Some (VStr sample_url)) by reflexivity.
  assert (He : last (call_errors
             (interp (glob_failing permission_denied view_empty)
                (download_task sample_task) no_log).1.1) = Some permission_denied)
    by (vm_compute; reflexivity).
  split; [exact Hu|]. split; [exact He|].
  destruct (result_tells_what_failed _ _ _ _ _ _ Hu H) as [_ Hf].
  destruct (Hf _ He) as [Ho|Ho]; [by vm_compute in Ho|].
  rewrite Ho. vm_compute. reflexivity.
Defined.

(** ** The choice among several candidates *)

(** The head of a list sorted by [sort_desc] is the first of the elements
    with the greatest key: the sort is stable. *)
Lemma sort_desc_first (keyed : list (mtime * Path)) :
  keyed ≠ [] →
  ∃ x rest pre post, sort_desc keyed = x :: rest ∧ keyed = pre ++ x :: post ∧
    Forall (λ c, c.1 < x.1) pre ∧ Forall (λ c, c.1 ≤ x.1) post.
Proof.
  induction keyed as [|a keyed IH]; [done|]. intros _.
  destruct keyed as [|b keyed].
  { exists a, [], [], []. by repeat split. }
  destruct IH as (x & rest & pre & post & Hs & Hk & Hpre & Hpost); [done|].
  change (sort_desc (a :: b :: keyed)) with (insert_desc a (sort_desc (b :: keyed))).
  rewrite Hs. simpl. destruct (a.1 <? x.1) eqn:Hlt.
  - apply Z.ltb_lt in Hlt. exists x, (insert_desc a rest), (a :: pre), post.
    rewrite Hk. split; [done|]. split; [done|]. split; [by constructor|done].
  - apply Z.ltb_ge in Hlt. exists a, (x :: rest), [], (b :: keyed).
    split; [done|]. split; [done|]. split; [constructor|].
    rewrite Hk. apply Forall_app. split.
    + eapply Forall_impl; [exact Hpre|]. simpl. intros c Hc. lia.
    + constructor; [done|]. eapply Forall_impl; [exact Hpost|]. simpl. intros c Hc. lia.
Qed.

Lemma chosen_first (v : fs_view) (files : list Path) :
  files ≠ [] → ∃ p, chosen v files = inr p ∧ first_most_recent v files p.
Proof.
  intros Hne. destruct files as [|f1 [|f2 files]]; [done| |].
  { exists f1. split; [done|]. exists [], []. by repeat split. }
  destruct (sort_desc_first (keyed_by v (f1 :: f2 :: files)))
    as (x & rest & pre & post & Hs & Hk & Hpre & Hpost); [done|].
  unfold chosen. rewrite Hs. simpl. exists x.2. split; [done|].
  unfold keyed_by in Hk.
  apply fmap_app_inv in Hk as (pre' & post' & -> & Hpost' & Hf).
  symmetry in Hpost'. apply fmap_cons_inv in Hpost' as (p & post'' & -> & -> & ->).
  exists pre', post''. split; [done|].
  rewrite Forall_forall in Hpre. rewrite Forall_forall in Hpost.
  split; apply Forall_forall; intros c Hc.
  - by apply (Hpre (mtime_of v c, c)), (list_elem_of_fmap_2 (λ f, (mtime_of v f, f))).
  - by apply (Hpost (mtime_of v c, c)), (list_elem_of_fmap_2 (λ f, (mtime_of v f, f))).
Qed.

Lemma exec_pick_chosen files w tr out w' v :
  exec (match files with
        | [] => Raise (Exn PlainException (lit "No files were downloaded"))
        | [file] => Ret file
        | _ => bind (sort_by_mtime files) (λ sorted,
                 match sorted with
                 | file :: _ => Ret file
                 | [] => Raise (Exn IndexError (lit "list index out of range"))
                 end)
        end) w tr out w' →
  Forall (agrees v) tr → out = chosen v files.
Proof.
  destruct files as [|f1 [|f2 files]].
  - by intros (_ & -> & _).
  - by intros (_ & -> & _).
  - intros H Hv.
    apply exec_bind in H as [(e & H & ->)|(sorted & w1 & t1 & t2 & H & H2 & ->)];
      apply exec_sort_by_mtime in H as (-> & Hk & Ho).
    + by specialize (Ho v Hv).
    + apply Forall_app in Hv as [Hv1 _]. specialize (Ho v Hv1).
      assert (Hso : sorted = snd <$> sort_desc (keyed_by v (f1 :: f2 :: files)))
        by congruence.
      unfold chosen. rewrite <- Hso.
      by destruct sorted; destruct H2 as (_ & -> & _).
Qed.

Lemma exec_resolve_from_info_chosen info d w tr out w' v :
  exec (resolve_from_info info d) w tr out w' →
  provider_info v = info → Forall (agrees v) tr →
  out = chosen v (resolution_candidates v d).
Proof.
  unfold resolve_from_info, resolution_candidates. intros H <- Hv.
  destruct (reported_files (provider_info v)) as [|f1 fs] eqn:Hrep.
  - apply exec_bind in H as [(e & [Hs ->]%exec_call & ->)
                            |(files2 & w1 & t1 & t2 & [Hs ->]%exec_call & H & ->)].
    { by apply Forall_cons in Hv as [Hv _]. }
    apply Forall_cons in Hv as [Hg Hv]. simpl in Hg. injection Hg as ->.
    destruct (listing v d) as [|g1 gs] eqn:Hl.
    + destruct (filename (provider_info v)) as [name|] eqn:Hname.
      * apply exec_bind in H as [(e & H & ->)|(files3 & w2 & t1 & t3 & H & H3 & ->)].
        { apply exec_bind in H as [(e' & [_ ->]%exec_call & [= ->])
                                  |(? & ? & ? & ? & _ & (_ & ? & _) & _)]; [|done].
          by apply Forall_cons in Hv as [Hv _]. }
        apply exec_bind in H as [(e' & _ & ?)
                                |(b & w3 & t4 & t5 & [_ ->]%exec_call & (-> & [= ->] & ->) & ->)];
          [done|].
        apply Forall_cons in Hv as [He Hv]. simpl in He. injection He as ->.
        apply (exec_pick_chosen (if exists_ v (path_join d name)
                                 then [path_join d name] else []) _ _ _ _ v) in H3;
          [|done].
        by destruct (exists_ v (path_join d name)).
      * apply exec_bind in H as [(e & (_ & ? & _) & _)
                                |(? & ? & ? & t3 & (-> & [= ->] & ->) & H3 & ->)];
          [done|].
        by apply (exec_pick_chosen [] _ _ _ _ v) in H3.
    + apply exec_bind in H as [(e & (_ & ? & _) & _)
                              |(? & ? & ? & t3 & (-> & [= ->] & ->) & H3 & ->)];
        [done|].
      by apply (exec_pick_chosen (g1 :: gs) _ _ _ _ v) in H3.
  - apply exec_bind in H as [(e & (_ & ? & _) & _)
                            |(? & ? & ? & t3 & (-> & [= ->] & ->) & H2 & ->)]; [done|].
    apply exec_bind in H2 as [(e & (_ & ? & _) & _)
                             |(? & ? & ? & t4 & (-> & [= ->] & ->) & H3 & ->)]; [done|].
    by apply (exec_pick_chosen (f1 :: fs) _ _ _ _ v) in H3.
Qed.

(** X24: when several candidates were modified last at the same time,
    [yt_downloader] returns the first of them in the order of the
    candidates (the order of the provider's report, or of the directory
    listing): the sort by modification time is stable, so in a run without
    failures the file returned is preceded, among the candidates, only by
    files modified strictly earlier. *)
Theorem ties_go_to_the_first (v : fs_view) (s d : pystr)
    (only_audio quality title : pyval) (w : world) (tr : list event)
    (out : exn + Path) (w' : world) :
  strip s ≠ [] →
  resolution_candidates v (MkPath d) ≠ [] →
  exec (yt_downloader (VStr s) (VStr d) only_audio quality title) w tr out w' →
  Forall (agrees v) tr →
  ∃ p, out = inr p ∧ first_most_recent v (resolution_candidates v (MkPath d)) p.
Proof.
  intros Hs Hne H Hv. rewrite yt_downloader_valid in H by done.
  apply exec_fetch in H
    as (_ & [(e & -> & _)|[(e & -> & _)|(y & t1 & out1 & rx & -> & H & ->)]]).
  - by apply Forall_cons in Hv as [Hv _].
  - by apply Forall_cons in Hv as [_ [Hv _]%Forall_cons].
  - apply Forall_cons in Hv as [_ [_ [Hv Hx]%Forall_app]%Forall_cons].
    apply Forall_cons in Hx as [Hx _]. simpl in Hx. subst rx.
    rewrite resolve_output_split in H.
    apply exec_bind in H as [(e & [_ ->]%exec_call & ->)
                            |(oi & w2 & tr1 & tr2 & [_ ->]%exec_call & H & ->)].
    { by apply Forall_cons in Hv as [Hv _]. }
    apply Forall_cons in Hv as [Hi Hv]. simpl in Hi. injection Hi as ->.
    apply exec_bind in H as [(e & (_ & ? & _) & _)
                            |(? & ? & t3 & t4 & (-> & [= ->] & ->) & H2 & ->)]; [done|].
    apply (exec_resolve_from_info_chosen _ _ _ _ _ _ v) in H2; [|done..].
    destruct (chosen_first v _ Hne) as (p & Hp & Hfirst).
    exists p. by rewrite H2, Hp.
Qed.

Lemma ties_go_to_the_first_witness :
  strip sample_url ≠ [] ∧
  resolution_candidates view_tie (MkPath sample_dir)
    = [MkPath (lit "/d/a.mp3"); MkPath (lit "/d/b.mp3"); MkPath (lit "/d/c.mp3")] ∧
  (interp (answer_of view_tie) sample_fetch no_log).1.2 = inr (MkPath (lit "/d/b.mp3")).
Proof.
  assert (Hs : strip sample_url ≠ []) by (vm_compute; discriminate).
  assert (Hc : resolution_candidates view_tie (MkPath sample_dir)
    = [MkPath (lit "/d/a.mp3"); MkPath (lit "/d/b.mp3"); MkPath (lit "/d/c.mp3")])
    by reflexivity.
  assert (Hne : resolution_candidates view_tie (MkPath sample_dir) ≠ [])
    by (by rewrite Hc).
  split; [exact Hs|]. split; [exact Hc|].
  pose proof (interp_exec (answer_of view_tie) sample_fetch no_log
                (answer_of_valid _)) as H.
  pose proof (interp_agrees view_tie sample_fetch no_log) as Hv.
  destruct (ties_go_to_the_first view_tie sample_url sample_dir (VBool true)
              (VStr (lit "highest")) VNone _ _ _ _ Hs Hne H Hv) as (p & Hp & _).
  rewrite Hp. vm_compute in Hp. by injection Hp as <-.
Defined.

(** ** Who writes the progress log *)

(** X25: the progress log belongs to the batch: [yt_downloader],
    [yt_audio_downloader] and [yt_video_downloader] never open, write or
    close it and leave its state as it is, whatever their arguments and
    however the download ends; only the worker of [run_download_tasks]
    appends to it. *)
Theorem single_downloads_leave_the_log_alone :
  (∀ url target_dir only_audio quality title w tr out w',
     exec (yt_downloader url target_dir only_audio quality title) w tr out w' →
     w' = w ∧ Forall (λ k, is_log_kind k = false) (calls tr)) ∧
  (∀ (audio : bool) url target_dir quality title w tr out w',
     exec ((if audio then yt_audio_downloader else yt_video_downloader)
             url target_dir quality title) w tr out w' →
     w' = w ∧ Forall (λ k, is_log_kind k = false) (calls tr)).
Proof.
  assert (Hd : ∀ url target_dir only_audio quality title w tr out w',
     exec (yt_downloader url target_dir only_audio quality title) w tr out w' →
     w' = w ∧ Forall (λ k, is_log_kind k = false) (calls tr)).
  { intros url td oa q ti w tr out w' H.
    apply exec_yt_downloader_no_log in H as [-> H]. split; [done|].
    unfold calls. by apply Forall_fmap. }
  split; [exact Hd|].
  intros audio url td q ti w tr out w' H.
  assert (H' : exec (try_except (yt_downloader url td (VBool audio) q ti)
                       (λ e, Raise (Exn PlainException (error_downloading url e))))
                 w tr out w') by (by destruct audio).
  apply exec_try_except in H' as [(p & H' & ->)
                                 |(e & w1 & t1 & t2 & H' & (-> & -> & ->) & ->)].
  - by eapply Hd.
  - rewrite app_nil_r. by eapply Hd.
Qed.
